(** * A shallow embedding of the match-3 board engine of [src/index.tsx]

    The React component [App] keeps the board as an array of gems and
    resolves swaps with [findMatches], [processBoard], [handleSwap] and
    [handleClick].  This file embeds those functions and states the
    properties of the engine over the embedding.

    Modelling choices, each taken from the source:
    - a [Gem] is the record of the source; [x] and [y] are integers ([Z])
      because [processBoard] creates gems at negative rows;
    - a [Gem[]] is a [list Gem]; [Array.prototype.find] is [list_find];
    - the [Set<number>] of matched ids is a [gset nat];
    - [Math.random] behind [getRandomType] is a sequence [rng : nat -> Kind]
      read at a cursor; the module variable [gemIdCounter] and that cursor
      form the record [Env];
    - the [useState] cells of [App] form the record [State];
    - the [await wait(...)] pauses only delay; the calls are embedded in
      the order in which they run;
    - the particle effects ([spawnExplosion]) are cosmetic and left out;
    - a [TypeError] on a property access of [undefined] is the outcome
      [Threw]; a recursion that does not stop within the given number of
      rounds is the outcome [OutOfFuel]. *)

From stdpp Require Import base decidable option numbers list sorting gmap fin_sets.

#[local] Set Warnings "-clear-no-such-hyp".

(** ** Data model *)

(** [TYPES]: the six kinds of gems. *)
Inductive Kind : Type :=
  | Apple | Orange | Grape | Coconut | Kiwi | Lemon.

#[global] Instance Kind_eq_dec : EqDecision Kind.
Proof. solve_decision. Defined.

Definition TYPES : list Kind := [Apple; Orange; Grape; Coconut; Kiwi; Lemon].

(** [type Gem]; the optional flags are [None] when the field is absent. *)
Record Gem : Type := mkGem {
  id : nat;
  x : Z;
  y : Z;
  type : Kind;
  isMatch : option bool;
  isNew : option bool;
}.

#[global] Instance Gem_eq_dec : EqDecision Gem.
Proof. solve_decision. Defined.

(** The result of running a function of the source. *)
Inductive outcome (A : Type) : Type :=
  | Returned (a : A)
  | Threw
  | OutOfFuel.
Arguments Returned {A} a.
Arguments Threw {A}.
Arguments OutOfFuel {A}.

#[global] Instance outcome_ret : MRet outcome := λ A a, Returned a.
#[global] Instance outcome_bind : MBind outcome := λ A B f m,
  match m with
  | Returned a => f a
  | Threw => Threw
  | OutOfFuel => OutOfFuel
  end.

(** Module state: [gemIdCounter] and the position in the random sequence. *)
Record Env : Type := mkEnv {
  gemIdCounter : nat;
  rngPos : nat;
}.

(** The [useState] cells of [App] that the engine reads and writes. *)
Record State : Type := mkState {
  gems : list Gem;
  score : nat;
  selectedId : option nat;
  isProcessing : bool;
  isPaused : bool;
}.

Definition setGems (l : list Gem) (st : State) : State :=
  mkState l (score st) (selectedId st) (isProcessing st) (isPaused st).
Definition setScore (f : nat → nat) (st : State) : State :=
  mkState (gems st) (f (score st)) (selectedId st) (isProcessing st) (isPaused st).
Definition setSelectedId (s : option nat) (st : State) : State :=
  mkState (gems st) (score st) s (isProcessing st) (isPaused st).
Definition setIsProcessing (b : bool) (st : State) : State :=
  mkState (gems st) (score st) (selectedId st) b (isPaused st).

(** ** Utilities *)

(** [getRandomType]: one draw from the random sequence. *)
Definition getRandomType (rng : nat → Kind) (env : Env) : Kind * Env :=
  (rng (rngPos env), mkEnv (gemIdCounter env) (S (rngPos env))).

(** [createGem(x, y, type)] with the kind given. *)
Definition createGemOf (gx gy : Z) (t : Kind) (env : Env) : Gem * Env :=
  (mkGem (gemIdCounter env) gx gy t None (Some true),
   mkEnv (S (gemIdCounter env)) (rngPos env)).

(** [createGem(x, y)] without a kind: the id is taken first, then the kind
    is drawn. *)
Definition createGem (rng : nat → Kind) (gx gy : Z) (env : Env) : Gem * Env :=
  (mkGem (gemIdCounter env) gx gy (rng (rngPos env)) None (Some true),
   mkEnv (S (gemIdCounter env)) (S (rngPos env))).

(** [getGemAt]: the first gem of the array at the given cell. *)
Definition getGemAt (gx gy : Z) (currentGems : list Gem) : option Gem :=
  snd <$> list_find (λ g, x g = gx ∧ y g = gy) currentGems.

(** [gems.find(g => g.id === i)] *)
Definition findById (i : nat) (l : list Gem) : option Gem :=
  snd <$> list_find (λ g, id g = i) l.

Section Board.
Local Open Scope Z_scope.

(** The source fixes [COLS = 8] and [ROWS = 8]; the functions are written
    for any size. *)
Variables COLS ROWS : Z.

(** ** [findMatches] *)

(** The inner [while (k < COLS)] loop: [cells] are the cells from [k] to the
    border, in order; the loop stops at the first cell that is empty or of
    another kind. *)
Fixpoint extendRun (cells : list (Z * Z)) (t : Kind) (currentGems : list Gem)
    (matches : gset nat) : gset nat :=
  match cells with
  | [] => matches
  | (cx, cy) :: rest =>
      match getGemAt cx cy currentGems with
      | Some next =>
          if decide (type next = t)
          then extendRun rest t currentGems ({[id next]} ∪ matches)
          else matches
      | None => matches
      end
  end.

(** The body of the two horizontal loops at the window starting at (x, y). *)
Definition scanH (currentGems : list Gem) (gy : Z) (matches : gset nat)
    (gx : Z) : gset nat :=
  match getGemAt gx gy currentGems,
        getGemAt (gx + 1) gy currentGems,
        getGemAt (gx + 2) gy currentGems with
  | Some g1, Some g2, Some g3 =>
      if decide (type g1 = type g2 ∧ type g1 = type g3)
      then extendRun ((λ k, (k, gy)) <$> seqZ (gx + 3) (COLS - (gx + 3)))
             (type g1) currentGems
             ({[id g3]} ∪ ({[id g2]} ∪ ({[id g1]} ∪ matches)))
      else matches
  | _, _, _ => matches
  end.

(** The body of the two vertical loops at the window starting at (x, y). *)
Definition scanV (currentGems : list Gem) (gx : Z) (matches : gset nat)
    (gy : Z) : gset nat :=
  match getGemAt gx gy currentGems,
        getGemAt gx (gy + 1) currentGems,
        getGemAt gx (gy + 2) currentGems with
  | Some g1, Some g2, Some g3 =>
      if decide (type g1 = type g2 ∧ type g1 = type g3)
      then extendRun ((λ k, (gx, k)) <$> seqZ (gy + 3) (ROWS - (gy + 3)))
             (type g1) currentGems
             ({[id g3]} ∪ ({[id g2]} ∪ ({[id g1]} ∪ matches)))
      else matches
  | _, _, _ => matches
  end.

Definition findMatches (currentGems : list Gem) : gset nat :=
  let horizontal :=
    foldl (λ matches gy, foldl (scanH currentGems gy) matches (seqZ 0 (COLS - 2)))
      ∅ (seqZ 0 ROWS) in
  foldl (λ matches gx, foldl (scanV currentGems gx) matches (seqZ 0 (ROWS - 2)))
    horizontal (seqZ 0 COLS).

(** ** [processBoard] *)

(** [columns[x].sort((a, b) => a.y - b.y)]: the sort of an array is stable;
    insertion from the right, in front of the first gem that is not above. *)
Fixpoint insertByY (g : Gem) (l : list Gem) : list Gem :=
  match l with
  | [] => [g]
  | h :: t => if decide (y g ≤ y h) then g :: h :: t else h :: insertByY g t
  end.

Definition sortByY (l : list Gem) : list Gem := foldr insertByY [] l.

(** [columns[g.x].push(g)]; [columns[g.x]] is [undefined] outside the array,
    and the call of [push] on it throws. *)
Definition pushColumn (columns : list (list Gem)) (g : Gem) : outcome (list (list Gem)) :=
  if decide (0 ≤ x g) then
    match columns !! Z.to_nat (x g) with
    | Some col => Returned (<[Z.to_nat (x g) := col ++ [g]]> columns)
    | None => Threw
    end
  else Threw.

(** [remainingGems.forEach(g => columns[g.x].push(g))] *)
Fixpoint pushAll (columns : list (list Gem)) (l : list Gem) : outcome (list (list Gem)) :=
  match l with
  | [] => Returned columns
  | g :: rest => columns' ← pushColumn columns g; pushAll columns' rest
  end.

(** [{ ...createGem(x, i - missing), isNew: true }] for every [i] of the
    loop [for (let i = 0; i < missing; i++)]. *)
Fixpoint refill (rng : nat → Kind) (gx missing : Z) (ks : list Z) (env : Env)
    : list Gem * Env :=
  match ks with
  | [] => ([], env)
  | i :: rest =>
      let '(g, env1) := createGem rng gx (i - missing) env in
      let g := mkGem (id g) (x g) (y g) (type g) (isMatch g) (Some true) in
      let '(gs, env2) := refill rng gx missing rest env1 in
      (g :: gs, env2)
  end.

(** [{ ...g, y: index + missing, isMatch: false }] *)
Definition settle (missing : Z) (index : nat) (g : Gem) : Gem :=
  mkGem (id g) (x g) (Z.of_nat index + missing) (type g) (Some false) (isNew g).

(** The body of the loop [for (let x = 0; x < COLS; x++)] that rebuilds
    column [x] into [newGems]. *)
Definition rebuildColumn (rng : nat → Kind) (columns : list (list Gem))
    (acc : list Gem * Env) (gx : Z) : outcome (list Gem * Env) :=
  let '(newGems, env) := acc in
  match columns !! Z.to_nat gx with
  | Some col =>
      let sorted := sortByY col in
      let count := Z.of_nat (length sorted) in
      let missing := ROWS - count in
      let '(fresh, env') := refill rng gx missing (seqZ 0 missing) env in
      Returned (newGems ++ fresh ++ imap (settle missing) sorted, env')
  | None => Threw
  end.

Fixpoint foldM {A B : Type} (f : A → B → outcome A) (a : A) (l : list B) : outcome A :=
  match l with
  | [] => Returned a
  | b :: rest => a' ← f a b; foldM f a' rest
  end.

(** Steps 3 and 4 of [processBoard] after the removal: gravity and refill. *)
Definition applyGravity (rng : nat → Kind) (remainingGems : list Gem) (env : Env)
    : outcome (list Gem * Env) :=
  columns ← pushAll (replicate (Z.to_nat COLS) []) remainingGems;
  foldM (rebuildColumn rng columns) ([], env) (seqZ 0 COLS).

(** [gems.map(g => matchedIds.has(g.id) ? { ...g, isMatch: true } : g)] *)
Definition markMatched (matchedIds : gset nat) (l : list Gem) : list Gem :=
  (λ g, if decide (id g ∈ matchedIds)
        then mkGem (id g) (x g) (y g) (type g) (Some true) (isNew g) else g) <$> l.

(** [currentGems.filter(g => !matchedIds.has(g.id))] *)
Definition removeMatched (matchedIds : gset nat) (currentGems : list Gem) : list Gem :=
  filter (λ g, id g ∉ matchedIds) currentGems.

(** The layout that one round of [processBoard] computes from
    [currentGems]: [newGems]. *)
Definition nextLayout (rng : nat → Kind) (currentGems : list Gem) (env : Env)
    : outcome (list Gem * Env) :=
  applyGravity rng (removeMatched (findMatches currentGems) currentGems) env.

(** [processBoard(currentGems, multiplier)]; [fuel] bounds the number of
    calls, the source has no such bound.  When the rebuilding of the
    columns throws, the outcome is [Threw] and the state is not reported. *)
Fixpoint processBoard (fuel : nat) (rng : nat → Kind) (currentGems : list Gem)
    (multiplier : nat) (st : State) (env : Env) : outcome (State * Env) :=
  match fuel with
  | O => OutOfFuel
  | S fuel' =>
      let st := setIsProcessing true st in
      let matchedIds := findMatches currentGems in
      if decide (size matchedIds = 0%nat) then
        Returned (setIsProcessing false st, env)
      else
        let st := setScore (λ s, s + size matchedIds * 10 * multiplier)%nat st in
        let st := setGems (markMatched matchedIds (gems st)) st in
        '(newGems, env') ← nextLayout rng currentGems env;
        let st := setGems newGems st in
        processBoard fuel' rng newGems (multiplier + 1)%nat st env'
  end.

(** ** [handleSwap] and [handleClick] *)

(** The callback of [gems.map] in [handleSwap]. *)
Definition swapCoords (id1 id2 : nat) (g1 g2 : Gem) (g : Gem) : Gem :=
  if decide (id g = id1) then mkGem (id g) (x g2) (y g2) (type g) (isMatch g) (isNew g)
  else if decide (id g = id2) then mkGem (id g) (x g1) (y g1) (type g) (isMatch g) (isNew g)
  else g.

(** [nextGems] of [handleSwap].  When only one of the two ids is on the
    board the callback reads a coordinate of [undefined] and throws; when
    neither is, no gem is touched. *)
Definition swapLayout (id1 id2 : nat) (l : list Gem) : outcome (list Gem) :=
  match findById id1 l, findById id2 l with
  | Some g1, Some g2 => Returned (swapCoords id1 id2 g1 g2 <$> l)
  | None, None => Returned l
  | _, _ => Threw
  end.

Definition handleSwap (fuel : nat) (rng : nat → Kind) (id1 id2 : nat)
    (st : State) (env : Env) : outcome (State * Env) :=
  let st1 := setSelectedId None (setIsProcessing true st) in
  nextGems ← swapLayout id1 id2 (gems st);
  let st2 := setGems nextGems st1 in
  let matches := findMatches nextGems in
  if decide (0 < size matches)%nat then
    processBoard fuel rng nextGems 1 st2 env
  else
    Returned (setIsProcessing false (setGems (gems st) st2), env).

Definition handleClick (fuel : nat) (rng : nat → Kind) (i : nat)
    (st : State) (env : Env) : outcome (State * Env) :=
  if isProcessing st || isPaused st then Returned (st, env)
  else
    match selectedId st with
    | None => Returned (setSelectedId (Some i) st, env)
    | Some sel =>
        if decide (sel = i) then Returned (setSelectedId None st, env)
        else
          match findById sel (gems st), findById i (gems st) with
          | Some g1, Some g2 =>
              let dx := Z.abs (x g1 - x g2) in
              let dy := Z.abs (y g1 - y g2) in
              if decide (dx + dy = 1) then handleSwap fuel rng sel i st env
              else Returned (setSelectedId (Some i) st, env)
          | _, _ => Returned (st, env)
          end
    end.

(** ** [initGame] *)

(** [newGems[i].type]: outside the array the element is [undefined] and
    the access throws. *)
Definition typeAt (l : list Gem) (i : Z) : outcome Kind :=
  if decide (0 ≤ i) then
    match l !! Z.to_nat i with
    | Some g => Returned (type g)
    | None => Threw
    end
  else Threw.

(** [x >= 2 && newGems[len - d].type === type && newGems[len - 2 * d].type === type] *)
Definition twoBefore (l : list Gem) (c d : Z) (t : Kind) : outcome bool :=
  if decide (2 ≤ c) then
    a ← typeAt l (Z.of_nat (length l) - d);
    if decide (a = t) then
      b ← typeAt l (Z.of_nat (length l) - d * 2);
      Returned (bool_decide (b = t))
    else Returned false
  else Returned false.

(** The condition of the [while] loop of [initGame]. *)
Definition wouldMatch (l : list Gem) (gx gy : Z) (t : Kind) : outcome bool :=
  left ← twoBefore l gx 1 t;
  if left : bool then Returned true else twoBefore l gy COLS t.

(** The [while] loop of [initGame]: redraw while the candidate would match;
    [fuel] bounds the number of tests. *)
Fixpoint redraw (fuel : nat) (rng : nat → Kind) (l : list Gem) (gx gy : Z)
    (t : Kind) (env : Env) : outcome (Kind * Env) :=
  match fuel with
  | O => OutOfFuel
  | S fuel' =>
      c ← wouldMatch l gx gy t;
      if c : bool then
        let '(t', env') := getRandomType rng env in
        redraw fuel' rng l gx gy t' env'
      else Returned (t, env)
  end.

(** The body of the inner loop of [initGame] at cell (x, y). *)
Definition placeGem (fuel : nat) (rng : nat → Kind) (gy : Z)
    (acc : list Gem * Env) (gx : Z) : outcome (list Gem * Env) :=
  let '(newGems, env) := acc in
  let '(t, env1) := getRandomType rng env in
  '(t', env2) ← redraw fuel rng newGems gx gy t env1;
  let '(g, env3) := createGemOf gx gy t' env2 in
  Returned (newGems ++ [g], env3).

Definition initGame (fuel : nat) (rng : nat → Kind) (st : State) (env : Env)
    : outcome (State * Env) :=
  '(newGems, env') ←
    foldM (λ acc gy, foldM (placeGem fuel rng gy) acc (seqZ 0 COLS))
      ([], env) (seqZ 0 ROWS);
  Returned (setIsProcessing false (setScore (λ _, 0%nat) (setGems newGems st)), env').

End Board.

(** ** Observations used in the statements *)

Section Observations.
Local Open Scope Z_scope.
Variables COLS ROWS : Z.

(** A call of [findMatches]: the function has no [throw], and it reads
    [type] and [id] only of gems that it has tested to be present, so the
    call returns whatever the layout is. *)
Definition callFindMatches (currentGems : list Gem) : outcome (gset nat) :=
  Returned (findMatches COLS ROWS currentGems).

(** The ids of the gems found at the cells [s], ..., [s + k - 1] of row [r]. *)
Definition rowIds (r s k : Z) (l : list Gem) : gset nat :=
  list_to_set (omap (λ c, id <$> getGemAt c r l) (seqZ s k)).

(** Three gems of one kind at the cells [c1], [c2], [c3]. *)
Definition sameKind3 (c1 c2 c3 : Z * Z) (l : list Gem) : Prop :=
  ∃ g1 g2 g3,
    getGemAt c1.1 c1.2 l = Some g1 ∧ getGemAt c2.1 c2.2 l = Some g2 ∧
    getGemAt c3.1 c3.2 l = Some g3 ∧ type g1 = type g2 ∧ type g1 = type g3.

(** The number of gems of a layout at a cell. *)
Definition cellCount (gx gy : Z) (l : list Gem) : nat :=
  length (filter (λ g, x g = gx ∧ y g = gy) l).

(** A full layout: one gem at every cell of the board and no gem outside. *)
Definition fullBoard (l : list Gem) : Prop :=
  Forall (λ gy, Forall (λ gx, cellCount gx gy l = 1%nat) (seqZ 0 COLS)) (seqZ 0 ROWS) ∧
  Forall (λ g, 0 ≤ x g < COLS ∧ 0 ≤ y g < ROWS) l.

(** The sizes of the match sets of the successive calls of [processBoard]
    on [currentGems]: [matchedIds.size] of round 1, round 2, ... *)
Fixpoint cascadeSizes (fuel : nat) (rng : nat → Kind) (currentGems : list Gem)
    (env : Env) : list nat :=
  match fuel with
  | O => []
  | S fuel' =>
      let matchedIds := findMatches COLS ROWS currentGems in
      if decide (size matchedIds = 0%nat) then []
      else
        match nextLayout COLS ROWS rng currentGems env with
        | Returned (newGems, env') =>
            size matchedIds :: cascadeSizes fuel' rng newGems env'
        | _ => [size matchedIds]
        end
  end.

(** [stableAfter k]: the first [k] rounds on [currentGems] find matches and
    complete, and the detection of round [k + 1] is empty. *)
Fixpoint stableAfter (k : nat) (rng : nat → Kind) (currentGems : list Gem)
    (env : Env) : Prop :=
  match k with
  | O => findMatches COLS ROWS currentGems = ∅
  | S k' =>
      findMatches COLS ROWS currentGems ≠ ∅ ∧
      ∃ newGems env', nextLayout COLS ROWS rng currentGems env = Returned (newGems, env') ∧
                       stableAfter k' rng newGems env'
  end.

End Observations.

(** A layout with the ids of its gems renamed. *)
Definition renameGem (f : nat → nat) (g : Gem) : Gem :=
  mkGem (f (id g)) (x g) (y g) (type g) (isMatch g) (isNew g).

(** Two environments in which the same kinds are drawn and whose fresh ids
    correspond under the renaming [f]. *)
Definition envMatch (rng : nat → Kind) (f : nat → nat) (env env' : Env) : Prop :=
  (∀ k, f (gemIdCounter env + k) = gemIdCounter env' + k) ∧
  (∀ k, rng (rngPos env + k) = rng (rngPos env' + k)).

(** Two outcomes of a step that agree up to the renaming [f]. *)
Definition simOut (rng : nat → Kind) (f : nat → nat)
    (o o' : outcome (list Gem * Env)) : Prop :=
  match o, o' with
  | Returned (l, e), Returned (l', e') => l' = renameGem f <$> l ∧ envMatch rng f e e'
  | Threw, Threw => True
  | OutOfFuel, OutOfFuel => True
  | _, _ => False
  end.

(** What every layout of a session satisfies: the ids of its gems are
    distinct and below [gemIdCounter], and its gems are in columns of the
    board. *)
Definition wellFormed (COLS : Z) (l : list Gem) (env : Env) : Prop :=
  NoDup (id <$> l) ∧
  Forall (λ g, id g < gemIdCounter env) l ∧
  Forall (λ g, 0 ≤ x g < COLS)%Z l.

(** A random sequence in which, among any [n] draws in a row, one differs
    from any two given kinds. *)
Definition spread (n : nat) (rng : nat → Kind) : Prop :=
  ∀ p a b, ∃ k, k < n ∧ rng (p + k) ≠ a ∧ rng (p + k) ≠ b.

(** What [initGame] keeps true of [newGems]: the gem at index [j] is at
    column [j mod COLS] of row [j / COLS], and it passed the test of the
    [while] loop against the gems before it. *)
Definition placed (COLS : Z) (l : list Gem) : Prop :=
  ∀ j g, l !! j = Some g →
    x g = (Z.of_nat j `mod` COLS)%Z ∧ y g = (Z.of_nat j / COLS)%Z ∧
    wouldMatch COLS (take j l) (x g) (y g) (type g) = Returned false.

#[global] Instance fullBoard_dec COLS ROWS l : Decision (fullBoard COLS ROWS l).
Proof. unfold fullBoard. apply _. Defined.

#[global] Instance sameKind3_dec c1 c2 c3 l : Decision (sameKind3 c1 c2 c3 l).
Proof.
  unfold sameKind3.
  destruct (getGemAt c1.1 c1.2 l) as [g1|];
    [|right; intros (?&?&?&?&_); discriminate].
  destruct (getGemAt c2.1 c2.2 l) as [g2|];
    [|right; intros (?&?&?&_&?&_); discriminate].
  destruct (getGemAt c3.1 c3.2 l) as [g3|];
    [|right; intros (?&?&?&_&_&?&_); discriminate].
  destruct (decide (type g1 = type g2 ∧ type g1 = type g3)) as [Ht|Ht].
  - left. exists g1, g2, g3. by destruct Ht.
  - right. intros (?&?&?&?&?&?&?&?). apply Ht. by simplify_eq.
Defined.

(** ** A session on the 8 x 8 board of the source *)

(** The values of the [useState] cells and of the module state when [App]
    is mounted. *)
Definition mountState : State := mkState [] 0 None false false.
Definition mountEnv : Env := mkEnv 0 0.

(** A random sequence: its first 64 draws fill the board row by row, with
    column 0 and the cell (1, 4) as given here and the four other kinds in
    the other cells; the later draws are those of [later]. *)
Definition firstColumn : list Kind :=
  [Orange; Orange; Apple; Apple; Coconut; Orange; Grape; Coconut].

Definition elsewhere (gx gy : nat) : Kind :=
  default Grape ([Grape; Coconut; Kiwi; Lemon] !! ((gx + 2 * gy) mod 4)).

Definition boardRng (later : nat → Kind) (i : nat) : Kind :=
  if decide (64 ≤ i) then later (i - 64)
  else if decide (i mod 8 = 0) then default Apple (firstColumn !! (i / 8))
  else if decide (i mod 8 = 1 ∧ i / 8 = 4) then Apple
  else elsewhere (i mod 8) (i / 8).

(** Every later draw is an apple. *)
Definition appleRng : nat → Kind := boardRng (λ _, Apple).

(** The six kinds in turn. *)
Definition cycleRng (i : nat) : Kind := default Apple (TYPES !! (i mod 6)).

(** The later draws go through the six kinds in turn. *)
Definition turnRng : nat → Kind := boardRng cycleRng.

(** The state after [initGame]: the gem with id [8 * y + x] is at (x, y). *)
Definition startState : State :=
  Eval vm_compute in
    match initGame 8 8 3 appleRng mountState mountEnv with
    | Returned (st, _) => st
    | _ => mountState
    end.
Definition startEnv : Env := mkEnv 64 64.

(** The layout and the state that [handleSwap] passes to [processBoard]
    when the gems 32, at (0, 4), and 33, at (1, 4), are swapped.  Column 0
    now holds, from the top, Orange, Orange, Apple, Apple, Apple, Orange,
    Grape, Coconut; no other cell holds an apple or an orange, and no two
    neighbours among the other cells are of one kind. *)
Definition swappedBoard : list Gem :=
  Eval vm_compute in
    match swapLayout 32 33 (gems startState) with
    | Returned l => l
    | _ => []
    end.
Definition swappedState : State := mkState swappedBoard 0 None true false.

(** The layouts of the cascade on [swappedBoard] when every later draw is
    an apple: after round 1 and after round 2.  Round 1 removes the three
    apples of column 0; its five other gems fall to the rows 3 to 7 and
    three new apples, 64 to 66, are created at the rows -3 to -1.  Round 2
    removes the three oranges now at the rows 3 to 5; the apples 64 to 66
    take these rows, above Grape and Coconut, and the apples 67 to 69 are
    created at the rows -3 to -1. *)
Definition appleLayout1 : list Gem :=
  Eval vm_compute in
    match nextLayout 8 8 appleRng swappedBoard startEnv with
    | Returned (l, _) => l
    | _ => []
    end.
Definition appleLayout2 : list Gem :=
  Eval vm_compute in
    match nextLayout 8 8 appleRng appleLayout1 (mkEnv 67 67) with
    | Returned (l, _) => l
    | _ => []
    end.

(** The layout after round 1 of the cascade on [swappedBoard] when the
    later draws go through the kinds in turn: the three apples of column 0
    are removed, its five other gems are at the rows 3 to 7, and the gems
    64, 65, 66, an apple, an orange and a grape, are at the rows -3 to -1. *)
Definition turnLayout1 : list Gem :=
  Eval vm_compute in
    match nextLayout 8 8 turnRng swappedBoard startEnv with
    | Returned (l, _) => l
    | _ => []
    end.

(** The ids of the gems created after the fill, moved up by three. *)
Definition later3 (i : nat) : nat := if decide (i < 64) then i else i + 3.

(** The state in which the cascade on [swappedBoard] ends when the later
    draws go through the kinds in turn. *)
Definition turnFinalState : State :=
  Eval vm_compute in
    match processBoard 8 8 5 turnRng swappedBoard 1 swappedState startEnv with
    | Returned (st, _) => st
    | _ => mountState
    end.

(** Three apples in row 0, at the columns 0, 1 and 3: the cell (2, 0)
    between them is empty, and so is the rest of the board. *)
Definition gapRow : list Gem :=
  [mkGem 0 0 0 Apple None (Some true); mkGem 1 1 0 Apple None (Some true);
   mkGem 2 3 0 Apple None (Some true)].

(** A full layout with the four apples 26, 27, 28, 29 at the columns 2 to 5
    of row 3 and the four other kinds in the other cells. *)
Definition runBoard : list Gem :=
  (λ i, mkGem i (Z.of_nat (i mod 8)) (Z.of_nat (i / 8))
          (if decide (i / 8 = 3 ∧ 2 ≤ i mod 8 ≤ 5) then Apple
           else elsewhere (i mod 8) (i / 8))
          None (Some true)) <$> seq 0 64.

(** ** Observations used in the further properties *)

Section MoreObservations.
Local Open Scope Z_scope.
Variables COLS ROWS : Z.

(** Three gems of one kind side by side in a row of the board, one of them
    with id [i]. *)
Definition inRowTriple (l : list Gem) (i : nat) : Prop :=
  ∃ gx gy g1 g2 g3,
    0 ≤ gx ∧ gx + 2 < COLS ∧ 0 ≤ gy < ROWS ∧
    getGemAt gx gy l = Some g1 ∧ getGemAt (gx + 1) gy l = Some g2 ∧
    getGemAt (gx + 2) gy l = Some g3 ∧ type g1 = type g2 ∧ type g1 = type g3 ∧
    (i = id g1 ∨ i = id g2 ∨ i = id g3).

(** The same one above the other in a column of the board. *)
Definition inColumnTriple (l : list Gem) (i : nat) : Prop :=
  ∃ gx gy g1 g2 g3,
    0 ≤ gx < COLS ∧ 0 ≤ gy ∧ gy + 2 < ROWS ∧
    getGemAt gx gy l = Some g1 ∧ getGemAt gx (gy + 1) l = Some g2 ∧
    getGemAt gx (gy + 2) l = Some g3 ∧ type g1 = type g2 ∧ type g1 = type g3 ∧
    (i = id g1 ∨ i = id g2 ∨ i = id g3).

End MoreObservations.


(** A layout whose gems are in the columns of the board, no column with
    more than [ROWS] of them; the gems may be above the board. *)
Definition columnsWithin (COLS ROWS : Z) (l : list Gem) : Prop :=
  Forall (λ g, 0 ≤ x g < COLS)%Z l ∧
  Forall (λ c, length (filter (λ g, x g = c) l) ≤ Z.to_nat ROWS) (seqZ 0 COLS).
(** * Properties *)

(** ** Lookups *)

Lemma getGemAt_Some gx gy l g :
  getGemAt gx gy l = Some g → g ∈ l ∧ x g = gx ∧ y g = gy.
Proof.
  unfold getGemAt. intros H.
  destruct (list_find _ l) as [[k g']|] eqn:E; simplify_eq/=.
  apply list_find_Some in E as (Hk & Hg & _).
  split; [by eapply list_elem_of_lookup_2|done].
Qed.

Lemma getGemAt_None gx gy l :
  getGemAt gx gy l = None ↔ ∀ g, g ∈ l → ¬ (x g = gx ∧ y g = gy).
Proof.
  unfold getGemAt. rewrite fmap_None, list_find_None, Forall_forall. done.
Qed.

Lemma getGemAt_is_Some gx gy l g :
  g ∈ l → x g = gx → y g = gy → is_Some (getGemAt gx gy l).
Proof.
  intros Hin Hx Hy. destruct (getGemAt gx gy l) eqn:E; [by eexists|].
  rewrite getGemAt_None in E. by destruct (E g Hin).
Qed.

Lemma findById_Some i l g : findById i l = Some g → g ∈ l ∧ id g = i.
Proof.
  unfold findById. intros H.
  destruct (list_find _ l) as [[k g']|] eqn:E; simplify_eq/=.
  apply list_find_Some in E as (Hk & Hg & _).
  split; [by eapply list_elem_of_lookup_2|done].
Qed.

(** Gems of a layout with distinct ids are equal when their ids are. *)
Lemma NoDup_id_inj (l : list Gem) g1 g2 :
  NoDup (id <$> l) → g1 ∈ l → g2 ∈ l → id g1 = id g2 → g1 = g2.
Proof.
  intros Hnd [i Hi]%list_elem_of_lookup [j Hj]%list_elem_of_lookup Heq.
  assert (i = j) as ->; [|congruence].
  eapply NoDup_lookup; [exact Hnd| |].
  - rewrite list_lookup_fmap, Hi. done.
  - rewrite list_lookup_fmap, Hj. simpl. by rewrite Heq.
Qed.

(** ** The match detector as a union of windows *)

Section Detector.
Local Open Scope Z_scope.
Variables COLS ROWS : Z.
Implicit Types (l : list Gem) (m : gset nat).

Lemma extendRun_union cells t l m :
  extendRun cells t l m = m ∪ extendRun cells t l ∅.
Proof.
  revert m. induction cells as [|[cx cy] rest IH]; intros m; simpl.
  - set_solver.
  - destruct (getGemAt cx cy l) as [next|]; [|set_solver].
    case_decide; [|set_solver].
    rewrite (IH ({[id next]} ∪ m)), (IH ({[id next]} ∪ ∅)). set_solver.
Qed.

Lemma scanH_union l gy m gx : scanH COLS l gy m gx = m ∪ scanH COLS l gy ∅ gx.
Proof.
  unfold scanH.
  destruct (getGemAt gx gy l), (getGemAt (gx + 1) gy l), (getGemAt (gx + 2) gy l);
    try set_solver.
  case_decide; [|set_solver].
  rewrite extendRun_union. symmetry. rewrite extendRun_union. set_solver.
Qed.

Lemma scanV_union l gx m gy : scanV ROWS l gx m gy = m ∪ scanV ROWS l gx ∅ gy.
Proof.
  unfold scanV.
  destruct (getGemAt gx gy l), (getGemAt gx (gy + 1) l), (getGemAt gx (gy + 2) l);
    try set_solver.
  case_decide; [|set_solver].
  rewrite extendRun_union. symmetry. rewrite extendRun_union. set_solver.
Qed.

Lemma foldl_union_elem {B} (f : gset nat → B → gset nat) m (bs : list B) i :
  (∀ m b, f m b = m ∪ f ∅ b) →
  i ∈ foldl f m bs ↔ i ∈ m ∨ ∃ b, b ∈ bs ∧ i ∈ f ∅ b.
Proof.
  intros Hf. revert m. induction bs as [|b bs IH]; intros m; simpl.
  - split; [by left|]. intros [?|(b & Hb & _)]; [done|]. by apply elem_of_nil in Hb.
  - rewrite IH, Hf. setoid_rewrite elem_of_cons. set_solver.
Qed.

Lemma foldl_union {B} (f : gset nat → B → gset nat) m (bs : list B) :
  (∀ m b, f m b = m ∪ f ∅ b) → foldl f m bs = m ∪ foldl f ∅ bs.
Proof.
  intros Hf. apply set_eq. intros i.
  rewrite elem_of_union, !(foldl_union_elem f) by done. set_solver.
Qed.

(** An id is reported exactly when some window of three reports it. *)
Lemma elem_of_findMatches l i :
  i ∈ findMatches COLS ROWS l ↔
    (∃ gx gy, 0 ≤ gx < COLS - 2 ∧ 0 ≤ gy < ROWS ∧ i ∈ scanH COLS l gy ∅ gx) ∨
    (∃ gx gy, 0 ≤ gx < COLS ∧ 0 ≤ gy < ROWS - 2 ∧ i ∈ scanV ROWS l gx ∅ gy).
Proof.
  unfold findMatches.
  rewrite (foldl_union_elem (λ m gx, foldl (scanV ROWS l gx) m (seqZ 0 (ROWS - 2))))
    by (intros; apply foldl_union, scanV_union).
  rewrite (foldl_union_elem (λ m gy, foldl (scanH COLS l gy) m (seqZ 0 (COLS - 2))))
    by (intros; apply foldl_union, scanH_union).
  setoid_rewrite (foldl_union_elem (scanH COLS l _)); [|apply scanH_union].
  setoid_rewrite (foldl_union_elem (scanV ROWS l _)); [|apply scanV_union].
  setoid_rewrite elem_of_seqZ.
  split.
  - intros [[Hi|(gy & Hy & [Hi|(gx & Hx & Hi)])]|(gx & Hx & [Hi|(gy & Hy & Hi)])];
      try (by apply not_elem_of_empty in Hi).
    + left. exists gx, gy. split_and!; [lia..|done].
    + right. exists gx, gy. split_and!; [lia..|done].
  - intros [(gx & gy & Hx & Hy & Hi)|(gx & gy & Hx & Hy & Hi)].
    + left. right. exists gy. split; [lia|]. right. exists gx. split; [lia|done].
    + right. exists gx. split; [lia|]. right. exists gy. split; [lia|done].
Qed.

Lemma extendRun_subseteq cells t l m : m ⊆ extendRun cells t l m.
Proof. rewrite extendRun_union. set_solver. Qed.

(** A window that reports anything holds three gems of one kind and
    reports all three. *)
Lemma scanH_fires l gy gx i :
  i ∈ scanH COLS l gy ∅ gx →
  ∃ g1 g2 g3,
    getGemAt gx gy l = Some g1 ∧ getGemAt (gx + 1) gy l = Some g2 ∧
    getGemAt (gx + 2) gy l = Some g3 ∧ type g1 = type g2 ∧ type g1 = type g3 ∧
    {[id g1; id g2; id g3]} ⊆ scanH COLS l gy ∅ gx.
Proof.
  unfold scanH.
  destruct (getGemAt gx gy l) as [g1|]; [|set_solver].
  destruct (getGemAt (gx + 1) gy l) as [g2|]; [|set_solver].
  destruct (getGemAt (gx + 2) gy l) as [g3|]; [|set_solver].
  case_decide as Ht; [|set_solver]. destruct Ht as [Ht2 Ht3]. intros _.
  exists g1, g2, g3. split_and!; try done.
  etrans; [|apply extendRun_subseteq]. set_solver.
Qed.

Lemma scanV_fires l gx gy i :
  i ∈ scanV ROWS l gx ∅ gy →
  ∃ g1 g2 g3,
    getGemAt gx gy l = Some g1 ∧ getGemAt gx (gy + 1) l = Some g2 ∧
    getGemAt gx (gy + 2) l = Some g3 ∧ type g1 = type g2 ∧ type g1 = type g3 ∧
    {[id g1; id g2; id g3]} ⊆ scanV ROWS l gx ∅ gy.
Proof.
  unfold scanV.
  destruct (getGemAt gx gy l) as [g1|]; [|set_solver].
  destruct (getGemAt gx (gy + 1) l) as [g2|]; [|set_solver].
  destruct (getGemAt gx (gy + 2) l) as [g3|]; [|set_solver].
  case_decide as Ht; [|set_solver]. destruct Ht as [Ht2 Ht3]. intros _.
  exists g1, g2, g3. split_and!; try done.
  etrans; [|apply extendRun_subseteq]. set_solver.
Qed.

Lemma size_three (a b c : nat) (s : gset nat) :
  a ≠ b → a ≠ c → b ≠ c → {[a; b; c]} ⊆ s → (3 ≤ size s)%nat.
Proof.
  intros Hab Hac Hbc Hsub. etrans; [|apply (subseteq_size _ _ Hsub)].
  rewrite !size_union, !size_singleton by set_solver. lia.
Qed.

(** Gems found at two different cells of a layout with distinct ids have
    different ids. *)
Lemma getGemAt_id_ne l ax ay bx by' g1 g2 :
  NoDup (id <$> l) → getGemAt ax ay l = Some g1 → getGemAt bx by' l = Some g2 →
  (ax, ay) ≠ (bx, by') → id g1 ≠ id g2.
Proof.
  intros Hnd (H1 & <- & <-)%getGemAt_Some (H2 & <- & <-)%getGemAt_Some Hne Hid.
  apply Hne. by rewrite (NoDup_id_inj l g1 g2 Hnd H1 H2 Hid).
Qed.

Lemma findMatches_three l :
  NoDup (id <$> l) →
  findMatches COLS ROWS l = ∅ ∨ (3 ≤ size (findMatches COLS ROWS l))%nat.
Proof.
  intros Hnd.
  destruct (decide (findMatches COLS ROWS l = ∅)) as [|Hne]; [by left|right].
  apply set_choose_L in Hne as [i Hi].
  pose proof Hi as Hi'. apply elem_of_findMatches in Hi'.
  destruct Hi' as [(gx & gy & Hx & Hy & Hw)|(gx & gy & Hx & Hy & Hw)].
  - destruct (scanH_fires _ _ _ _ Hw) as (g1 & g2 & g3 & E1 & E2 & E3 & _ & _ & Hsub).
    apply (size_three (id g1) (id g2) (id g3)).
    + eapply getGemAt_id_ne; [done..|]. intros [=]; lia.
    + eapply getGemAt_id_ne; [done..|]. intros [=]; lia.
    + eapply getGemAt_id_ne; [done..|]. intros [=]; lia.
    + intros j Hj. apply elem_of_findMatches. left. exists gx, gy. set_solver.
  - destruct (scanV_fires _ _ _ _ Hw) as (g1 & g2 & g3 & E1 & E2 & E3 & _ & _ & Hsub).
    apply (size_three (id g1) (id g2) (id g3)).
    + eapply getGemAt_id_ne; [done..|]. intros [=]; lia.
    + eapply getGemAt_id_ne; [done..|]. intros [=]; lia.
    + eapply getGemAt_id_ne; [done..|]. intros [=]; lia.
    + intros j Hj. apply elem_of_findMatches. right. exists gx, gy. set_solver.
Qed.

(** The extension loop reports the gems of the cells up to the first cell
    that is empty or of another kind. *)
Lemma elem_of_extendRun (cells : list (Z * Z)) t l i :
  i ∈ extendRun cells t l ∅ ↔
  ∃ j g,
    (∀ j', (j' ≤ j)%nat →
       ∃ c g', cells !! j' = Some c ∧ getGemAt c.1 c.2 l = Some g' ∧ type g' = t) ∧
    (∃ c, cells !! j = Some c ∧ getGemAt c.1 c.2 l = Some g) ∧ id g = i.
Proof.
  revert i. induction cells as [|[cx cy] rest IH]; intros i; simpl.
  - split; [set_solver|]. intros (j & g & _ & (c & Hc & _) & _).
    by rewrite lookup_nil in Hc.
  - destruct (getGemAt cx cy l) as [next|] eqn:Hnext.
    + case_decide as Ht.
      * rewrite extendRun_union, elem_of_union, IH. split.
        -- intros [Hi|(j & g & Hall & (c & Hc & Hg) & Hid)].
           ++ exists 0%nat, next. split_and!; [|by exists (cx, cy)|set_solver].
              intros j' Hj'. assert (j' = 0%nat) as -> by lia.
              by exists (cx, cy), next.
           ++ exists (S j), g. split_and!; [|by exists c|done].
              intros [|j'] Hj'; [by exists (cx, cy), next|].
              apply Hall. lia.
        -- intros (j & g & Hall & (c & Hc & Hg) & Hid). destruct j as [|j].
           ++ left. simpl in Hc. simplify_eq/=. set_solver.
           ++ right. exists j, g. split_and!; [|by exists c|done].
              intros j' Hj'. apply (Hall (S j')). lia.
      * split; [set_solver|]. intros (j & g & Hall & _).
        destruct (Hall 0%nat) as (c & g' & Hc & Hg' & Hty); [lia|].
        simpl in Hc. by simplify_eq/=.
    + split; [set_solver|]. intros (j & g & Hall & _).
      destruct (Hall 0%nat) as (c & g' & Hc & Hg' & Hty); [lia|].
      simpl in Hc. by simplify_eq/=.
Qed.

(** The same for the cells of a row from column [a] on. *)
Lemma elem_of_extendRun_row a n gy t l i :
  i ∈ extendRun ((λ k, (k, gy)) <$> seqZ a n) t l ∅ ↔
  ∃ c g, a ≤ c < a + n ∧ getGemAt c gy l = Some g ∧ id g = i ∧
    ∀ c', a ≤ c' ≤ c → ∃ g', getGemAt c' gy l = Some g' ∧ type g' = t.
Proof.
  rewrite elem_of_extendRun. split.
  - intros (j & g & Hall & (c & Hc & Hg) & Hid).
    rewrite list_lookup_fmap in Hc.
    destruct (seqZ a n !! j) as [c0|] eqn:Hj; simplify_eq/=.
    apply lookup_seqZ in Hj as [-> Hlt].
    exists (a + Z.of_nat j), g. split_and!; [lia..|done|done|].
    intros c' Hc'. destruct (Hall (Z.to_nat (c' - a))) as (c & g' & Hc & Hg' & Hty); [lia|].
    rewrite list_lookup_fmap in Hc.
    destruct (seqZ a n !! Z.to_nat (c' - a)) as [c0|] eqn:Hj'; simplify_eq/=.
    apply lookup_seqZ in Hj' as [-> _].
    exists g'. split; [|done]. rewrite <- Hg'. f_equal. lia.
  - intros (c & g & Hc & Hg & Hid & Hall).
    exists (Z.to_nat (c - a)), g. split_and!; [| |done].
    + intros j' Hj'. destruct (Hall (a + Z.of_nat j')) as (g' & Hg' & Hty); [lia|].
      exists (a + Z.of_nat j', gy), g'. split_and!; [|done..].
      rewrite list_lookup_fmap.
      rewrite (proj2 (lookup_seqZ a n j' (a + Z.of_nat j'))) by lia. done.
    + exists (c, gy). split; [|done]. rewrite list_lookup_fmap.
      rewrite (proj2 (lookup_seqZ a n (Z.to_nat (c - a)) c)) by lia. done.
Qed.

(** One call of [processBoard] on a layout with matches: the score grows by
    ten times the multiplier for each matched id, and the function calls
    itself on the next layout with the multiplier plus one. *)
Lemma processBoard_step fuel rng l mult st env newGems env' :
  findMatches COLS ROWS l ≠ ∅ →
  nextLayout COLS ROWS rng l env = Returned (newGems, env') →
  processBoard COLS ROWS (S fuel) rng l mult st env =
    processBoard COLS ROWS fuel rng newGems (mult + 1)%nat
      (mkState newGems (score st + size (findMatches COLS ROWS l) * 10 * mult)%nat
         (selectedId st) true (isPaused st)) env'.
Proof.
  intros Hne Hnext. simpl.
  case_decide as Hsz; [by apply size_empty_inv, leibniz_equiv in Hsz|].
  rewrite Hnext. simpl. done.
Qed.

Lemma processBoard_stop fuel rng l mult st env :
  findMatches COLS ROWS l = ∅ →
  processBoard COLS ROWS (S fuel) rng l mult st env =
    Returned (mkState (gems st) (score st) (selectedId st) false (isPaused st), env).
Proof. intros He. simpl. rewrite He, size_empty. by case_decide. Qed.

End Detector.

(** ** A single horizontal run *)

Lemma omap_total {A B} (f : A → option B) (d : B) (L : list A) :
  Forall (λ a, is_Some (f a)) L → omap f L = (λ a, default d (f a)) <$> L.
Proof.
  induction 1 as [|a L [b Hb] _ IH]; [done|].
  csimpl. rewrite Hb. simpl. by rewrite IH.
Qed.

Section SingleRun.
Local Open Scope Z_scope.
Variables COLS ROWS : Z.
Variables (l : list Gem) (r s k : Z) (t : Kind).
Hypothesis Hk : 3 ≤ k.
Hypothesis Hs : 0 ≤ s ∧ s + k ≤ COLS.
Hypothesis Hr : 0 ≤ r < ROWS.
Hypothesis Hrun : ∀ c, s ≤ c < s + k → ∃ g, getGemAt c r l = Some g ∧ type g = t.
Hypothesis Hhoriz : ∀ gx gy,
  0 ≤ gx → gx + 2 < COLS → 0 ≤ gy < ROWS →
  sameKind3 (gx, gy) (gx + 1, gy) (gx + 2, gy) l → gy = r ∧ s ≤ gx ∧ gx + 3 ≤ s + k.
Hypothesis Hvert : ∀ gx gy,
  0 ≤ gx < COLS → 0 ≤ gy → gy + 2 < ROWS →
  ¬ sameKind3 (gx, gy) (gx, gy + 1) (gx, gy + 2) l.

Lemma elem_of_rowIds i :
  i ∈ rowIds r s k l ↔ ∃ c g, s ≤ c < s + k ∧ getGemAt c r l = Some g ∧ id g = i.
Proof.
  unfold rowIds. rewrite elem_of_list_to_set, list_elem_of_omap. split.
  - intros (c & Hc%elem_of_seqZ & Hi).
    destruct (getGemAt c r l) as [g|] eqn:Hg; simplify_eq/=. by exists c, g.
  - intros (c & g & Hc & Hg & <-). exists c. split; [by apply elem_of_seqZ|].
    by rewrite Hg.
Qed.

(** The run does not go on past column [s + k - 1]. *)
Lemma run_stops c :
  s ≤ c < COLS → (∀ c', s ≤ c' ≤ c → ∃ g', getGemAt c' r l = Some g' ∧ type g' = t) →
  c < s + k.
Proof.
  intros Hc Hall. destruct (decide (c < s + k)) as [|Hge]; [done|exfalso].
  destruct (Hall (s + k - 2)) as (g1 & E1 & T1); [lia|].
  destruct (Hall (s + k - 1)) as (g2 & E2 & T2); [lia|].
  destruct (Hall (s + k)) as (g3 & E3 & T3); [lia|].
  destruct (Hhoriz (s + k - 2) r) as (_ & _ & ?); [lia..|done| |lia].
  exists g1, g2, g3. simpl.
  replace (s + k - 2 + 1) with (s + k - 1) by lia.
  replace (s + k - 2 + 2) with (s + k) by lia.
  split_and!; [done..|congruence|congruence].
Qed.

Lemma single_run_findMatches : findMatches COLS ROWS l = rowIds r s k l.
Proof.
  apply set_eq. intros i. rewrite elem_of_findMatches, elem_of_rowIds. split.
  - intros [(gx & gy & Hx & Hy & Hw)|(gx & gy & Hx & Hy & Hw)].
    + pose proof Hw as Hfire. apply scanH_fires in Hfire
        as (g1 & g2 & g3 & E1 & E2 & E3 & T2 & T3 & _).
      destruct (Hhoriz gx gy) as (-> & Hlo & Hhi); [lia..|by exists g1, g2, g3|].
      assert (type g1 = t) as T1.
      { destruct (Hrun gx) as (g & Hg & <-); [lia|]. congruence. }
      unfold scanH in Hw. rewrite E1, E2, E3 in Hw.
      case_decide as Hd; [|by destruct Hd].
      rewrite extendRun_union, elem_of_union, elem_of_extendRun_row in Hw.
      destruct Hw as [Hbase|(c & g & Hc & Hg & Hid & Hall)].
      * apply elem_of_union in Hbase as [->%elem_of_singleton|Hbase];
          [exists (gx + 2), g3; split_and!; [lia..|done|done]|].
        apply elem_of_union in Hbase as [->%elem_of_singleton|Hbase];
          [exists (gx + 1), g2; split_and!; [lia..|done|done]|].
        apply elem_of_union in Hbase as [->%elem_of_singleton|Hbase];
          [exists gx, g1; split_and!; [lia..|done|done]|].
        by apply not_elem_of_empty in Hbase.
      * exists c, g. split_and!; [lia| |done..].
        apply run_stops; [lia|]. intros c' Hc'.
        destruct (decide (c' < gx + 3)) as [|Hge].
        -- apply Hrun. lia.
        -- rewrite <- T1. apply Hall. lia.
    + apply scanV_fires in Hw as (g1 & g2 & g3 & E1 & E2 & E3 & T2 & T3 & _).
      destruct (Hvert gx gy); [lia..|]. by exists g1, g2, g3.
  - intros (c & g & Hc & Hg & Hid). left. exists s, r. split_and!; [lia..|].
    destruct (Hrun s) as (g1 & E1 & T1); [lia|].
    destruct (Hrun (s + 1)) as (g2 & E2 & T2); [lia|].
    destruct (Hrun (s + 2)) as (g3 & E3 & T3); [lia|].
    unfold scanH. rewrite E1, E2, E3.
    case_decide as Hd; [|destruct Hd; split; congruence].
    rewrite extendRun_union, elem_of_union.
    destruct (decide (c < s + 3)) as [Hlt|Hge].
    + left. assert (c = s ∨ c = s + 1 ∨ c = s + 2) as [-> | [-> | ->]] by lia;
        simplify_eq; set_solver.
    + right. apply elem_of_extendRun_row. exists c, g.
      split_and!; [lia..|done|done|].
      intros c' Hc'. rewrite T1. apply Hrun. lia.
Qed.

Lemma single_run_size :
  NoDup (id <$> l) → size (findMatches COLS ROWS l) = Z.to_nat k.
Proof.
  intros Hnd. rewrite single_run_findMatches. unfold rowIds.
  assert (omap (λ c, id <$> getGemAt c r l) (seqZ s k) =
          (λ c, default 0%nat (id <$> getGemAt c r l)) <$> seqZ s k) as ->.
  { apply omap_total, Forall_forall. intros c Hc%elem_of_seqZ.
    destruct (Hrun c) as (g & -> & _); [lia|]. by eexists. }
  rewrite size_list_to_set, length_fmap, length_seqZ; [done|].
  apply NoDup_fmap_2_strong; [|apply NoDup_seqZ].
  intros c1 c2 Hc1%elem_of_seqZ Hc2%elem_of_seqZ Heq.
  destruct (Hrun c1) as (g1 & E1 & _); [lia|].
  destruct (Hrun c2) as (g2 & E2 & _); [lia|].
  rewrite E1, E2 in Heq. simpl in Heq.
  destruct (decide (c1 = c2)) as [|Hne]; [done|exfalso].
  eapply (getGemAt_id_ne l c1 r c2 r g1 g2); [done..| |done]. congruence.
Qed.

End SingleRun.

(** C4: a layout with one run of [k >= 3] gems of kind [t] in row [r], at
    the columns [s], ..., [s + k - 1], in which every three gems of one kind
    in a row lie inside that run and no three gems of one kind stand in a
    column.  [findMatches] returns the ids of the gems of the run and
    nothing else; these are [k] ids when the ids of the layout are
    distinct. *)
Theorem single_horizontal_run_detected COLS ROWS (l : list Gem) (r s k : Z) (t : Kind) :
  (3 ≤ k)%Z → (0 ≤ s ∧ s + k ≤ COLS)%Z → (0 ≤ r < ROWS)%Z →
  (∀ c, (s ≤ c < s + k)%Z → ∃ g, getGemAt c r l = Some g ∧ type g = t) →
  (∀ gx gy, (0 ≤ gx)%Z → (gx + 2 < COLS)%Z → (0 ≤ gy < ROWS)%Z →
     sameKind3 (gx, gy) (gx + 1, gy)%Z (gx + 2, gy)%Z l →
     gy = r ∧ (s ≤ gx)%Z ∧ (gx + 3 ≤ s + k)%Z) →
  (∀ gx gy, (0 ≤ gx < COLS)%Z → (0 ≤ gy)%Z → (gy + 2 < ROWS)%Z →
     ¬ sameKind3 (gx, gy) (gx, gy + 1)%Z (gx, gy + 2)%Z l) →
  findMatches COLS ROWS l = rowIds r s k l ∧
  (∀ i, i ∈ findMatches COLS ROWS l ↔
     ∃ c g, (s ≤ c < s + k)%Z ∧ getGemAt c r l = Some g ∧ id g = i) ∧
  (NoDup (id <$> l) → size (findMatches COLS ROWS l) = Z.to_nat k).
Proof.
  intros Hk Hs Hr Hrun Hh Hv. split_and!.
  - by eapply single_run_findMatches.
  - intros i. erewrite single_run_findMatches by done. apply elem_of_rowIds.
  - by eapply single_run_size.
Qed.

(** ** The initial fill *)

(** A loop that returns keeps an invariant that every step keeps. *)
Lemma foldM_ind {A B} (f : A → B → outcome A) (P : nat → A → Prop) (bs : list B) a r :
  P 0 a →
  (∀ i a b a', bs !! i = Some b → P i a → f a b = Returned a' → P (S i) a') →
  foldM f a bs = Returned r → P (length bs) r.
Proof.
  revert P a. induction bs as [|b bs IH]; intros P a H0 Hstep; simpl.
  - by intros [= <-].
  - destruct (f a b) as [a'| |] eqn:Hf; simpl; try done.
    apply (IH (λ i, P (S i))).
    + by apply (Hstep 0 a b a').
    + intros i a1 b1 a1' Hi. by apply (Hstep (S i)).
Qed.

Section InitGame.
Local Open Scope Z_scope.
Variables COLS ROWS : Z.
Variables (fuel : nat) (rng : nat → Kind).

Local Abbreviation placed := (placed COLS).

Lemma redraw_post n l gx gy t env t' env' :
  redraw COLS n rng l gx gy t env = Returned (t', env') →
  wouldMatch COLS l gx gy t' = Returned false.
Proof.
  revert t env. induction n as [|n IH]; intros t env; simpl; [done|].
  destruct (wouldMatch COLS l gx gy t) as [[|]| |] eqn:Hw; simpl; try done.
  - apply IH.
  - by intros [= <- <-].
Qed.

Lemma placeGem_placed l env gx gy l' env' :
  placed l → 0 ≤ gx < COLS → 0 ≤ gy → Z.of_nat (length l) = gy * COLS + gx →
  placeGem COLS fuel rng gy (l, env) gx = Returned (l', env') →
  placed l' ∧ length l' = S (length l).
Proof.
  intros Hpl Hx Hy Hlen. unfold placeGem. simpl.
  destruct (redraw COLS fuel rng l gx gy _ _) as [[t' env2]| |] eqn:Hr; simpl; try done.
  intros [= <- <-]. apply redraw_post in Hr.
  split; [|rewrite length_app; simpl; lia].
  intros j g Hj. destruct (decide (j < length l)%nat) as [Hlt|Hge].
  - rewrite lookup_app_l in Hj by done.
    rewrite take_app_le by lia. by apply Hpl.
  - assert (j = length l) as ->.
    { apply lookup_lt_Some in Hj. rewrite length_app in Hj. simpl in Hj. lia. }
    rewrite list_lookup_middle in Hj by done. simplify_eq/=.
    rewrite take_app_length, Hlen.
    split_and!; [|by rewrite Z.div_add_l, Z.div_small by lia; lia|done].
    by rewrite Z.add_comm, Z_mod_plus_full, Z.mod_small.
Qed.

Lemma row_placed l env (gy : nat) l' env' :
  placed l → length l = (gy * Z.to_nat COLS)%nat →
  foldM (placeGem COLS fuel rng (Z.of_nat gy)) (l, env) (seqZ 0 COLS) = Returned (l', env') →
  placed l' ∧ length l' = (S gy * Z.to_nat COLS)%nat.
Proof.
  intros Hpl Hlen Hf.
  apply (foldM_ind _ (λ i a, placed a.1 ∧ length a.1 = (gy * Z.to_nat COLS + i)%nat))
    in Hf; simpl in *.
  - rewrite length_seqZ in Hf. destruct Hf as [? ->]. split; [done|lia].
  - split; [done|lia].
  - intros i [l1 e1] b [l2 e2] Hb%lookup_seqZ [Hp1 Hl1] Hstep. simpl in *.
    destruct Hb as [-> Hb].
    eapply placeGem_placed in Hstep as [? ->]; [split; [done|lia]|done|lia|lia|].
    rewrite Hl1. lia.
Qed.

Lemma initGame_placed st env st' env' :
  initGame COLS ROWS fuel rng st env = Returned (st', env') →
  placed (gems st') ∧ length (gems st') = (Z.to_nat ROWS * Z.to_nat COLS)%nat.
Proof.
  unfold initGame.
  destruct (foldM _ _ (seqZ 0 ROWS)) as [[newGems env1]| |] eqn:Hf; simpl; try done.
  intros [= <- <-]. simpl.
  apply (foldM_ind _ (λ i a, placed a.1 ∧ length a.1 = (i * Z.to_nat COLS)%nat)) in Hf.
  - by rewrite length_seqZ in Hf.
  - split; [|done]. simpl. intros j g Hj. by rewrite lookup_nil in Hj.
  - intros i [l1 e1] b [l2 e2] Hb%lookup_seqZ [Hp1 Hl1] Hstep. simpl in *.
    destruct Hb as [-> Hb]. rewrite Z.add_0_l in Hstep.
    by eapply row_placed in Hstep.
Qed.

(** The index of a gem of [newGems] is given by its cell. *)
Lemma placed_index l g :
  0 < COLS → placed l → g ∈ l →
  0 ≤ x g < COLS ∧ 0 ≤ y g ∧ l !! Z.to_nat (y g * COLS + x g) = Some g.
Proof.
  intros Hpos Hpl [j Hj]%list_elem_of_lookup.
  destruct (Hpl j g Hj) as (Hx & Hy & _).
  pose proof (Z.mod_pos_bound (Z.of_nat j) COLS Hpos).
  pose proof (Z.div_pos (Z.of_nat j) COLS).
  pose proof (Z.div_mod (Z.of_nat j) COLS).
  split_and!; [lia..|].
  replace (Z.to_nat (y g * COLS + x g)) with j; [done|]. nia.
Qed.

Lemma twoBefore_true (l : list Gem) c d t g1 g2 :
  2 ≤ c → 0 ≤ Z.of_nat (length l) - d * 2 → 0 < d →
  l !! Z.to_nat (Z.of_nat (length l) - d) = Some g2 →
  l !! Z.to_nat (Z.of_nat (length l) - d * 2) = Some g1 →
  type g2 = t → type g1 = t →
  twoBefore l c d t = Returned true.
Proof.
  intros Hc Hlo Hd H2 H1 T2 T1. unfold twoBefore, typeAt.
  rewrite !decide_True by lia. rewrite H2. simpl.
  rewrite decide_True by done. rewrite H1. simpl.
  by rewrite bool_decide_eq_true_2.
Qed.

(** No three gems of one kind in a row or in a column of [newGems]. *)
Lemma placed_no_horizontal l gx gy :
  0 < COLS → placed l → 0 ≤ gx →
  ¬ sameKind3 (gx, gy) (gx + 1, gy) (gx + 2, gy) l.
Proof.
  intros Hpos Hpl Hgx (g1 & g2 & g3 & E1 & E2 & E3 & T2 & T3). simpl in *.
  apply getGemAt_Some in E1 as (I1 & X1 & Y1).
  apply getGemAt_Some in E2 as (I2 & X2 & Y2).
  apply getGemAt_Some in E3 as (I3 & X3 & Y3).
  apply (placed_index _ _ Hpos Hpl) in I1 as (? & ? & J1).
  apply (placed_index _ _ Hpos Hpl) in I2 as (? & ? & J2).
  apply (placed_index _ _ Hpos Hpl) in I3 as (? & ? & J3).
  destruct (Hpl _ _ J3) as (_ & _ & Hw).
  pose proof (lookup_lt_Some _ _ _ J3) as Hlt.
  unfold wouldMatch in Hw.
  rewrite (twoBefore_true _ (x g3) 1 _ g1 g2) in Hw; [done|lia|..].
  - rewrite length_take. nia.
  - lia.
  - rewrite lookup_take_lt, <- J2; [f_equal|]; rewrite length_take; nia.
  - rewrite lookup_take_lt, <- J1; [f_equal|]; rewrite length_take; nia.
  - congruence.
  - congruence.
Qed.

Lemma placed_no_vertical l gx gy :
  0 < COLS → placed l → 0 ≤ gy →
  ¬ sameKind3 (gx, gy) (gx, gy + 1) (gx, gy + 2) l.
Proof.
  intros Hpos Hpl Hgy (g1 & g2 & g3 & E1 & E2 & E3 & T2 & T3). simpl in *.
  apply getGemAt_Some in E1 as (I1 & X1 & Y1).
  apply getGemAt_Some in E2 as (I2 & X2 & Y2).
  apply getGemAt_Some in E3 as (I3 & X3 & Y3).
  apply (placed_index _ _ Hpos Hpl) in I1 as (? & ? & J1).
  apply (placed_index _ _ Hpos Hpl) in I2 as (? & ? & J2).
  apply (placed_index _ _ Hpos Hpl) in I3 as (? & ? & J3).
  destruct (Hpl _ _ J3) as (_ & _ & Hw).
  pose proof (lookup_lt_Some _ _ _ J3) as Hlt.
  unfold wouldMatch in Hw.
  destruct (twoBefore _ (x g3) 1 _) as [[|]| |]; simpl in Hw; try done.
  rewrite (twoBefore_true _ (y g3) COLS _ g1 g2) in Hw; [done|lia|..].
  - rewrite length_take. nia.
  - lia.
  - rewrite lookup_take_lt, <- J2; [f_equal|]; rewrite length_take; nia.
  - rewrite lookup_take_lt, <- J1; [f_equal|]; rewrite length_take; nia.
  - congruence.
  - congruence.
Qed.

Lemma initGame_no_match st env st' env' :
  initGame COLS ROWS fuel rng st env = Returned (st', env') →
  findMatches COLS ROWS (gems st') = ∅.
Proof.
  intros [Hpl Hlen]%initGame_placed.
  apply set_eq. intros i. split; [|set_solver]. intros Hi. exfalso.
  assert (gems st' ≠ [] → 0 < COLS) as Hpos.
  { intros Hne. destruct (gems st'); [done|]. simpl in Hlen. lia. }
  apply elem_of_findMatches in Hi as [(gx & gy & Hx & Hy & Hw)|(gx & gy & Hx & Hy & Hw)].
  - apply scanH_fires in Hw as (g1 & g2 & g3 & E1 & E2 & E3 & T2 & T3 & _).
    apply (placed_no_horizontal (gems st') gx gy); [|done|lia|by exists g1, g2, g3].
    apply Hpos. intros Hnil. by rewrite Hnil in E1.
  - apply scanV_fires in Hw as (g1 & g2 & g3 & E1 & E2 & E3 & T2 & T3 & _).
    apply (placed_no_vertical (gems st') gx gy); [|done|lia|by exists g1, g2, g3].
    apply Hpos. intros Hnil. by rewrite Hnil in E1.
Qed.

Lemma filter_none {A} (P : A → Prop) `{∀ a, Decision (P a)} (l : list A) :
  (∀ a, a ∈ l → ¬ P a) → filter P l = [].
Proof.
  induction l as [|a l IH]; intros Hno; [done|].
  rewrite filter_cons, decide_False by (apply Hno; left).
  apply IH. intros b Hb. apply Hno. by right.
Qed.

Lemma filter_unique {A} (P : A → Prop) `{∀ a, Decision (P a)} (l : list A) j g :
  l !! j = Some g → P g → (∀ i h, l !! i = Some h → P h → i = j) → filter P l = [g].
Proof.
  revert j. induction l as [|a l IH]; intros j Hj Pg Huniq.
  - by rewrite lookup_nil in Hj.
  - rewrite filter_cons. destruct j as [|j]; simpl in Hj.
    + simplify_eq. rewrite decide_True by done. f_equal.
      apply filter_none. intros b [i Hi]%list_elem_of_lookup Pb.
      by specialize (Huniq (S i) b Hi Pb).
    + rewrite decide_False by (intros Pa; by specialize (Huniq 0%nat a eq_refl Pa)).
      apply (IH j); [done..|].
      intros i h Hi Ph. specialize (Huniq (S i) h Hi Ph). lia.
Qed.

(** The layout that [initGame] sets is full. *)
Lemma initGame_full st env st' env' :
  initGame COLS ROWS fuel rng st env = Returned (st', env') →
  fullBoard COLS ROWS (gems st').
Proof.
  intros [Hpl Hlen]%initGame_placed. split.
  - apply Forall_forall. intros gy Hy%elem_of_seqZ.
    apply Forall_forall. intros gx Hx%elem_of_seqZ.
    destruct (lookup_lt_is_Some_2 (gems st') (Z.to_nat (gy * COLS + gx))) as [g Hg]; [nia|].
    destruct (Hpl _ _ Hg) as (Hgx & Hgy & _).
    rewrite Z2Nat.id in Hgx, Hgy by nia.
    rewrite Z.add_comm, Z_mod_plus_full, Z.mod_small in Hgx by lia.
    rewrite Z.div_add_l, Z.div_small in Hgy by lia.
    unfold cellCount. erewrite filter_unique; [done|exact Hg|split; lia|].
    intros i h Hi [Hhx Hhy]. destruct (Hpl _ _ Hi) as (Hix & Hiy & _).
    pose proof (Z.div_mod (Z.of_nat i) COLS). nia.
  - apply Forall_forall. intros g [j Hj]%list_elem_of_lookup.
    destruct (Hpl _ _ Hj) as (Hx & Hy & _).
    apply lookup_lt_Some in Hj.
    assert (0 < COLS) as Hpos by nia.
    pose proof (Z.mod_pos_bound (Z.of_nat j) COLS Hpos).
    pose proof (Z.div_pos (Z.of_nat j) COLS).
    split; [lia|]. split; [lia|]. rewrite Hy.
    apply Z.div_lt_upper_bound; nia.
Qed.

(** *** [initGame] returns

    The [while] loop of [initGame] rejects at most two kinds at a cell, so
    it stops as soon as a draw differs from both. *)

Lemma foldM_total {A B} (f : A → B → outcome A) (P : nat → A → Prop) (bs : list B) a :
  P 0%nat a →
  (∀ i a b, bs !! i = Some b → P i a → ∃ a', f a b = Returned a' ∧ P (S i) a') →
  ∃ r, foldM f a bs = Returned r ∧ P (length bs) r.
Proof.
  revert P a. induction bs as [|b bs IH]; intros P a H0 Hstep; simpl.
  - by exists a.
  - destruct (Hstep 0%nat a b) as (a' & -> & Ha'); [done..|]. simpl.
    apply (IH (λ i, P (S i))); [done|].
    intros i a1 b1 Hi. by apply (Hstep (S i)).
Qed.

Lemma twoBefore_total (l : list Gem) c d :
  (2 ≤ c → 0 < d ∧ d * 2 ≤ Z.of_nat (length l)) →
  ∃ a, ∀ t, ∃ r, twoBefore l c d t = Returned r ∧ (r = true → t = a).
Proof.
  intros Hlen. unfold twoBefore. destruct (decide (2 ≤ c)) as [Hc|Hc].
  - destruct (Hlen Hc) as [Hd Hl].
    destruct (lookup_lt_is_Some_2 l (Z.to_nat (Z.of_nat (length l) - d))) as [g2 H2]; [lia|].
    destruct (lookup_lt_is_Some_2 l (Z.to_nat (Z.of_nat (length l) - d * 2))) as [g1 H1];
      [lia|].
    exists (type g2). intros t. unfold typeAt.
    rewrite !decide_True by lia. rewrite H2. simpl.
    destruct (decide (type g2 = t)) as [<-|Hne]; [|by exists false].
    rewrite H1. simpl. by eexists.
  - exists Apple. intros t. by exists false.
Qed.

Lemma wouldMatch_total (l : list Gem) gx gy :
  (2 ≤ gx → 2 ≤ Z.of_nat (length l)) →
  (2 ≤ gy → 0 < COLS ∧ COLS * 2 ≤ Z.of_nat (length l)) →
  ∃ a b, ∀ t, ∃ r, wouldMatch COLS l gx gy t = Returned r ∧ (r = true → t = a ∨ t = b).
Proof.
  intros Hx Hy.
  destruct (twoBefore_total l gx 1) as [a Ha]; [lia|].
  destruct (twoBefore_total l gy COLS) as [b Hb]; [done|].
  exists a, b. intros t. unfold wouldMatch.
  destruct (Ha t) as (ra & -> & Hra). simpl. destruct ra.
  - exists true. split; [done|]. intros _. left. by apply Hra.
  - destruct (Hb t) as (rb & -> & Hrb). exists rb. split; [done|].
    intros Hr. right. by apply Hrb.
Qed.

Lemma redraw_returns n (l : list Gem) gx gy t env a b :
  (∀ t, ∃ r, wouldMatch COLS l gx gy t = Returned r ∧ (r = true → t = a ∨ t = b)) →
  (∃ k, (k < n)%nat ∧
        match k with O => t | S k' => rng (rngPos env + k')%nat end ≠ a ∧
        match k with O => t | S k' => rng (rngPos env + k')%nat end ≠ b) →
  ∃ t' env', redraw COLS n rng l gx gy t env = Returned (t', env').
Proof.
  intros Hw. revert t env. induction n as [|n IH]; intros t env (k & Hk & Hka & Hkb); [lia|].
  simpl. destruct (Hw t) as (r & -> & Hr). simpl. destruct r; [|by eexists _, _].
  destruct k as [|k]; [destruct Hr; done|].
  apply IH. exists k. split; [lia|]. simpl.
  destruct k as [|k].
  - by rewrite Nat.add_0_r in Hka, Hkb.
  - by rewrite Nat.add_succ_r in Hka, Hkb.
Qed.

Hypothesis rng_spread : spread fuel rng.

Lemma placeGem_returns (l : list Gem) env gx gy :
  (2 ≤ gx → 2 ≤ Z.of_nat (length l)) →
  (2 ≤ gy → 0 < COLS ∧ COLS * 2 ≤ Z.of_nat (length l)) →
  ∃ g env', placeGem COLS fuel rng gy (l, env) gx = Returned (l ++ [g], env').
Proof.
  intros Hx Hy. unfold placeGem. simpl.
  destruct (wouldMatch_total l gx gy Hx Hy) as (a & b & Hw).
  destruct (redraw_returns fuel l gx gy (rng (rngPos env))
              (mkEnv (gemIdCounter env) (S (rngPos env))) a b Hw) as (t' & env2 & ->).
  - destruct (rng_spread (rngPos env) a b) as (k & Hk & Hka & Hkb).
    exists k. split; [done|]. destruct k as [|k]; simpl.
    + by rewrite Nat.add_0_r in Hka, Hkb.
    + by rewrite Nat.add_succ_r in Hka, Hkb.
  - simpl. by eexists _, _.
Qed.

Lemma initGame_returns st env :
  ∃ st' env', initGame COLS ROWS fuel rng st env = Returned (st', env').
Proof.
  unfold initGame.
  destruct (foldM_total
              (λ acc gy, foldM (placeGem COLS fuel rng gy) acc (seqZ 0 COLS))
              (λ i a, length a.1 = (i * Z.to_nat COLS)%nat) (seqZ 0 ROWS) ([], env))
    as ([l env1] & -> & _); [done| |by eexists _, _].
  intros i [l1 e1] gy [-> Hgy]%lookup_seqZ Hl1. simpl in Hl1.
  destruct (foldM_total (placeGem COLS fuel rng (0 + Z.of_nat i))
              (λ j a, length a.1 = (i * Z.to_nat COLS + j)%nat) (seqZ 0 COLS) (l1, e1))
    as ([l2 e2] & -> & Hl2); [simpl; lia| |].
  - intros j [l3 e3] gx [-> Hgx]%lookup_seqZ Hl3. simpl in Hl3.
    destruct (placeGem_returns l3 e3 (0 + Z.of_nat j) (0 + Z.of_nat i))
      as (g & e4 & ->); [nia|nia|].
    eexists. split; [done|]. simpl. rewrite length_app. simpl. lia.
  - eexists. split; [done|]. simpl in *. rewrite length_seqZ in Hl2. lia.
Qed.

End InitGame.

(** ** Gravity *)

Lemma insertByY_Permutation g l : insertByY g l ≡ₚ g :: l.
Proof.
  induction l as [|h t IH]; simpl; [done|].
  case_decide; [done|]. rewrite IH. apply Permutation_swap.
Qed.

Lemma sortByY_Permutation l : sortByY l ≡ₚ l.
Proof.
  induction l as [|g l IH]; simpl; [done|].
  rewrite insertByY_Permutation. by f_equiv.
Qed.

Lemma sortByY_length l : length (sortByY l) = length l.
Proof. by rewrite sortByY_Permutation. Qed.

Lemma insertByY_sorted g l :
  StronglySorted (λ a b, y a ≤ y b)%Z l →
  StronglySorted (λ a b, y a ≤ y b)%Z (insertByY g l).
Proof.
  induction 1 as [|h t Hs IH Hall]; simpl.
  - repeat constructor.
  - case_decide as Hle.
    + constructor; [by constructor|]. constructor; [done|].
      eapply Forall_impl; [exact Hall|]. simpl. intros; lia.
    + constructor; [done|]. rewrite insertByY_Permutation.
      constructor; [lia|done].
Qed.

Lemma sortByY_sorted l : StronglySorted (λ a b, y a ≤ y b)%Z (sortByY l).
Proof.
  induction l as [|g l IH]; simpl; [constructor|by apply insertByY_sorted].
Qed.

Lemma StronglySorted_lookup_lt {A} (R : relation A) (l : list A) i j a b :
  StronglySorted R l → l !! i = Some a → l !! j = Some b → i < j → R a b.
Proof.
  intros Hs. revert i j. induction Hs as [|h t Hs IH Hall]; intros i j Hi Hj Hlt.
  - by rewrite lookup_nil in Hi.
  - destruct j as [|j]; [lia|]. destruct i as [|i]; simpl in *.
    + simplify_eq. rewrite Forall_forall in Hall. apply Hall.
      by eapply list_elem_of_lookup_2.
    + eapply IH; [done..|lia].
Qed.

(** In the sorted column a gem that was strictly above another comes
    first. *)
Lemma sortByY_order l i j gi gj :
  sortByY l !! i = Some gi → sortByY l !! j = Some gj → (y gi < y gj)%Z → i < j.
Proof.
  intros Hi Hj Hlt. destruct (decide (i < j)) as [|Hge]; [done|exfalso].
  destruct (decide (i = j)) as [->|Hne]; [simplify_eq; lia|].
  assert (y gj ≤ y gi)%Z; [|lia].
  eapply (StronglySorted_lookup_lt (λ a b, y a ≤ y b)%Z);
    [apply sortByY_sorted|exact Hj|exact Hi|lia].
Qed.

Section Gravity.
Local Open Scope Z_scope.
Variables COLS ROWS : Z.
Variable rng : nat → Kind.

Lemma pushAll_spec (cols : list (list Gem)) (l : list Gem) :
  Forall (λ g, 0 ≤ x g < Z.of_nat (length cols)) l →
  ∃ cols', pushAll cols l = Returned cols' ∧ length cols' = length cols ∧
    ∀ c col, cols !! c = Some col →
      cols' !! c = Some (col ++ filter (λ g, x g = Z.of_nat c) l).
Proof.
  revert cols. induction l as [|g l IH]; intros cols Hall.
  - exists cols. split_and!; [done..|]. intros c col ->. by rewrite app_nil_r.
  - apply Forall_cons in Hall as [Hg Hall]. simpl. unfold pushColumn.
    case_decide; [|lia].
    destruct (lookup_lt_is_Some_2 cols (Z.to_nat (x g))) as [cg Hcg]; [lia|].
    rewrite Hcg. simpl.
    destruct (IH (<[Z.to_nat (x g):=cg ++ [g]]> cols)) as (cols' & Hp & Hlen & Hcols).
    { by rewrite length_insert. }
    exists cols'. rewrite length_insert in Hlen. split_and!; [done..|].
    intros c col Hc. rewrite filter_cons.
    destruct (decide (c = Z.to_nat (x g))) as [->|Hne].
    + rewrite (Hcols (Z.to_nat (x g)) (cg ++ [g])).
      * case_decide; [|lia]. simplify_eq. by rewrite <- app_assoc.
      * apply list_lookup_insert_eq. by eapply lookup_lt_Some.
    + rewrite (Hcols c col) by (by rewrite list_lookup_insert_ne).
      case_decide; [lia|done].
Qed.

Lemma refill_spec gx missing ks env fresh env' :
  refill rng gx missing ks env = (fresh, env') →
  gemIdCounter env' = (gemIdCounter env + length ks)%nat ∧
  rngPos env' = (rngPos env + length ks)%nat ∧
  length fresh = length ks ∧
  ∀ g, g ∈ fresh →
    x g = gx ∧ (∃ k, k ∈ ks ∧ y g = k - missing) ∧
    (gemIdCounter env ≤ id g < gemIdCounter env')%nat.
Proof.
  revert env fresh env'. induction ks as [|k ks IH]; intros env fresh env'; simpl.
  - intros [= <- <-]. split_and!; [lia..|done|]. by intros g ?%elem_of_nil.
  - destruct (refill rng gx missing ks _) as [gs env2] eqn:Hr.
    intros [= <- <-]. apply IH in Hr as (Hc & Hp & Hl & Hg). simpl in *.
    split_and!; [lia..|].
    intros g [->|Hin]%elem_of_cons; simpl.
    + split_and!; [done| |lia..]. exists k. split; [left|done].
    + destruct (Hg g Hin) as (? & (k' & ? & ?) & ?).
      split_and!; [done| |lia..]. exists k'. split; [by right|done].
Qed.

(** The gems added to [newGems] for a column: those created for the
    refill, and the gems of the column moved down. *)
Lemma rebuild_spec (cols : list (list Gem)) (cs : list Z) (acc : list Gem) env :
  (∀ c, c ∈ cs → is_Some (cols !! Z.to_nat c)) →
  ∃ (res : list Gem) env' (fresh : list Gem),
    foldM (rebuildColumn ROWS rng cols) (acc, env) cs = Returned (res, env') ∧
    (gemIdCounter env ≤ gemIdCounter env')%nat ∧
    (∀ g, g ∈ fresh →
       x g ∈ cs ∧ y g < 0 ∧ (gemIdCounter env ≤ id g < gemIdCounter env')%nat) ∧
    ∀ g, g ∈ res ↔
      g ∈ acc ∨ g ∈ fresh ∨
      ∃ c col i g0, c ∈ cs ∧ cols !! Z.to_nat c = Some col ∧
        sortByY col !! i = Some g0 ∧
        g = settle (ROWS - Z.of_nat (length col)) i g0.
Proof.
  revert acc env. induction cs as [|c cs IH]; intros acc env Hcs.
  - exists acc, env, []. split_and!; [done|lia| |].
    + by intros g ?%elem_of_nil.
    + intros g. split; [by left|]. intros [?|[?%elem_of_nil|(c & ? & ? & ? & ?%elem_of_nil & _)]]; done.
  - destruct (Hcs c) as [col Hcol]; [left|].
    simpl. rewrite Hcol.
    destruct (refill rng c _ _ env) as [fr env1] eqn:Hr. simpl.
    apply refill_spec in Hr as (Hc1 & _ & _ & Hfr).
    destruct (IH (acc ++ fr ++ imap (settle (ROWS - Z.of_nat (length (sortByY col))))
                                  (sortByY col)) env1)
      as (res & env' & fresh & Hf & Hc2 & Hfresh & Hres).
    { intros c' Hc'. apply Hcs. by right. }
    exists res, env', (fr ++ fresh). split_and!; [done|lia| |].
    + intros g [Hg|Hg]%elem_of_app.
      * destruct (Hfr g Hg) as (-> & (k & Hk%elem_of_seqZ & ->) & ?).
        split_and!; [left|lia..].
      * destruct (Hfresh g Hg) as (? & ? & ?). split_and!; [by right|lia..].
    + intros g. rewrite Hres, !elem_of_app, elem_of_lookup_imap, sortByY_length.
      split.
      * intros [[?|[?|(i & g0 & -> & Hi)]]|[?|(c' & col' & i & g0 & ? & ? & ? & ->)]];
          [by left|right; left; by left| |right; left; by right|].
        -- right. right. exists c, col, i, g0. split_and!; [left|done..].
        -- right. right. exists c', col', i, g0. split_and!; [by right|done..].
      * intros [?|[[?|?]|(c' & col' & i & g0 & [->|?]%elem_of_cons & Hl & Hi & ->)]];
          [left; by left|left; right; by left|right; by left| |].
        -- left. right. right. exists i, g0. by simplify_eq.
        -- right. right. exists c', col', i, g0. done.
Qed.

(** The layout after gravity and refill: the created gems, all at negative
    rows, and the remaining gems of each column, in the order of their rows,
    at the bottom of the column. *)
Lemma applyGravity_spec (remaining : list Gem) env :
  Forall (λ g, 0 ≤ x g < COLS) remaining →
  ∃ (newGems : list Gem) env' (fresh : list Gem),
    applyGravity COLS ROWS rng remaining env = Returned (newGems, env') ∧
    (∀ g, g ∈ fresh →
       0 ≤ x g < COLS ∧ y g < 0 ∧ (gemIdCounter env ≤ id g < gemIdCounter env')%nat) ∧
    ∀ g, g ∈ newGems ↔
      g ∈ fresh ∨
      ∃ c i g0, 0 ≤ c < COLS ∧
        sortByY (filter (λ g, x g = c) remaining) !! i = Some g0 ∧
        g = settle (ROWS - Z.of_nat (length (filter (λ g, x g = c) remaining))) i g0.
Proof.
  intros Hall. unfold applyGravity.
  destruct (pushAll_spec (replicate (Z.to_nat COLS) []) remaining)
    as (cols & -> & Hlen & Hcols).
  { rewrite length_replicate. eapply Forall_impl; [exact Hall|]. simpl. intros; lia. }
  rewrite length_replicate in Hlen.
  assert (∀ c, 0 ≤ c < COLS →
            cols !! Z.to_nat c = Some (filter (λ g, x g = c) remaining)) as Hcol.
  { intros c Hc. rewrite (Hcols (Z.to_nat c) []).
    - simpl. do 2 f_equal. apply list_filter_iff. intros g. lia.
    - apply lookup_replicate_2. lia. }
  simpl.
  destruct (rebuild_spec cols (seqZ 0 COLS) [] env)
    as (res & env' & fresh & Hf & _ & Hfresh & Hres).
  { intros c Hc%elem_of_seqZ. rewrite Hcol by lia. by eexists. }
  exists res, env', fresh. split_and!; [done| |].
  - intros g Hg. destruct (Hfresh g Hg) as (Hx%elem_of_seqZ & ? & ?).
    split_and!; lia.
  - intros g. rewrite Hres. split.
    + intros [?%elem_of_nil|[?|(c & col & i & g0 & Hc%elem_of_seqZ & Hl & Hi & ->)]];
        [done|by left|].
      right. rewrite Hcol in Hl by lia. simplify_eq. exists c, i, g0.
      split_and!; [lia..|done|done].
    + intros [?|(c & i & g0 & Hc & Hi & ->)]; [right; by left|].
      right. right. exists c, (filter (λ g, x g = c) remaining), i, g0.
      split_and!; [|by apply Hcol|done..].
      apply elem_of_seqZ. lia.
Qed.

End Gravity.

(** C5: one removal-plus-gravity step on a layout whose gems are in
    columns of the board.  In every column the [k] gems that survive the
    removal, taken in the order of their rows before the removal, are put
    at the rows [ROWS - k], ..., [ROWS - 1] of the same column; so a
    survivor that was above another one stays above it. *)
Theorem gravity_keeps_column_order COLS ROWS rng (l : list Gem) env :
  Forall (λ g, 0 ≤ x g < COLS)%Z l →
  ∃ (newGems : list Gem) env',
    nextLayout COLS ROWS rng l env = Returned (newGems, env') ∧
    ∀ c, (0 ≤ c < COLS)%Z →
      let survivors := filter (λ g, x g = c) (removeMatched (findMatches COLS ROWS l) l) in
      let k := length survivors in
      ∃ sorted,
        sorted ≡ₚ survivors ∧ StronglySorted (λ a b, y a ≤ y b)%Z sorted ∧
        (∀ i a, sorted !! i = Some a →
           mkGem (id a) c (ROWS - Z.of_nat k + Z.of_nat i) (type a) (Some false) (isNew a)
             ∈ newGems) ∧
        (∀ a b, a ∈ survivors → b ∈ survivors → (y a < y b)%Z →
           ∃ i j, i < j < k ∧
             mkGem (id a) c (ROWS - Z.of_nat k + Z.of_nat i) (type a) (Some false) (isNew a)
               ∈ newGems ∧
             mkGem (id b) c (ROWS - Z.of_nat k + Z.of_nat j) (type b) (Some false) (isNew b)
               ∈ newGems).
Proof.
  intros Hall. unfold nextLayout.
  set (remaining := removeMatched (findMatches COLS ROWS l) l).
  destruct (applyGravity_spec COLS ROWS rng remaining env)
    as (newGems & env' & fresh & Hg & _ & Hnew).
  { apply Forall_forall. intros g Hg.
    unfold remaining, removeMatched in Hg. apply list_elem_of_filter in Hg as [_ Hg].
    rewrite Forall_forall in Hall. by apply Hall. }
  exists newGems, env'. split; [done|]. intros c Hc.
  set (survivors := filter (λ g, x g = c) remaining).
  set (k := length survivors).
  assert (∀ i a, sortByY survivors !! i = Some a →
            mkGem (id a) c (ROWS - Z.of_nat k + Z.of_nat i) (type a) (Some false) (isNew a)
              ∈ newGems) as Hput.
  { intros i a Hi. apply Hnew. right. exists c, i, a. split_and!; [lia..|done|].
    assert (x a = c) as Hx.
    { assert (a ∈ survivors) as Ha.
      { rewrite <- (sortByY_Permutation survivors). by eapply list_elem_of_lookup_2. }
      by apply list_elem_of_filter in Ha as [? _]. }
    unfold settle. rewrite Hx. f_equal. unfold k, survivors. lia. }
  exists (sortByY survivors). split_and!.
  - apply sortByY_Permutation.
  - apply sortByY_sorted.
  - exact Hput.
  - intros a b Ha Hb Hlt.
    rewrite <- (sortByY_Permutation survivors) in Ha, Hb.
    apply list_elem_of_lookup in Ha as [i Hi]. apply list_elem_of_lookup in Hb as [j Hj].
    exists i, j. split_and!; [by eapply sortByY_order| |by apply Hput..].
    apply lookup_lt_Some in Hj. by rewrite sortByY_length in Hj.
Qed.

(** ** A round that finds matches leaves a gap *)

Lemma sum_list_with_ext_in {A} (f g : A → nat) (l : list A) :
  (∀ a, a ∈ l → f a = g a) → sum_list_with f l = sum_list_with g l.
Proof.
  induction l as [|a l IH]; intros Hfg; simpl; [done|].
  rewrite (Hfg a) by left. rewrite IH; [done|]. intros b Hb. apply Hfg. by right.
Qed.

Lemma sum_list_with_one {A} (l : list A) : sum_list_with (λ _, 1) l = length l.
Proof. induction l as [|a l IH]; simpl; [done|]. by rewrite IH. Qed.

Lemma filter_split_length {A} (P : A → Prop) `{∀ a, Decision (P a)} (l : list A) :
  length l = length (filter P l) + length (filter (λ a, ¬ P a) l).
Proof. by rewrite <- length_app, filter_app_complement. Qed.

(** The gems of a list are counted row by row. *)
Lemma length_by_rows (L : list Gem) (n : nat) :
  Forall (λ g, 0 ≤ y g < Z.of_nat n)%Z L →
  length L = sum_list_with (λ r, length (filter (λ g, y g = r) L)) (seqZ 0 (Z.of_nat n)).
Proof.
  revert L. induction n as [|n IH]; intros L Hall.
  - destruct L as [|g L]; [done|]. apply Forall_cons in Hall as [? _]. lia.
  - rewrite seqZ_S, sum_list_with_app. simpl.
    rewrite (filter_split_length (λ g, y g = Z.of_nat n) L), Nat.add_0_r, Nat.add_comm.
    f_equal. rewrite (IH (filter (λ g, ¬ y g = Z.of_nat n) L)).
    + apply sum_list_with_ext_in. intros r Hr%elem_of_seqZ.
      rewrite list_filter_filter. f_equal. apply list_filter_iff. intros g. lia.
    + apply Forall_forall. intros g [Hne Hg]%list_elem_of_filter.
      rewrite Forall_forall in Hall. specialize (Hall g Hg). lia.
Qed.

Section Gap.
Local Open Scope Z_scope.
Variables COLS ROWS : Z.

(** A column of a full layout holds [ROWS] gems. *)
Lemma full_column_count (l : list Gem) c :
  fullBoard COLS ROWS l → 0 ≤ c < COLS →
  length (filter (λ g, x g = c) l) = Z.to_nat ROWS.
Proof.
  intros [Hcells Hin] Hc.
  rewrite (length_by_rows _ (Z.to_nat ROWS)).
  - transitivity (length (seqZ 0 (Z.of_nat (Z.to_nat ROWS))));
      [|by rewrite length_seqZ, Nat2Z.id].
    rewrite <- sum_list_with_one. apply sum_list_with_ext_in.
    intros r Hr%elem_of_seqZ. rewrite list_filter_filter.
    rewrite Forall_forall in Hcells. specialize (Hcells r).
    rewrite elem_of_seqZ, Forall_forall in Hcells.
    specialize (Hcells ltac:(lia) c). rewrite elem_of_seqZ in Hcells.
    rewrite <- (Hcells ltac:(lia)). unfold cellCount. f_equal.
    apply list_filter_iff. intros g. tauto.
  - apply Forall_forall. intros g [_ Hg]%list_elem_of_filter.
    rewrite Forall_forall in Hin. specialize (Hin g Hg). lia.
Qed.

(** Every id that [findMatches] reports is the id of a gem of the layout. *)
Lemma findMatches_ids (l : list Gem) i :
  i ∈ findMatches COLS ROWS l → ∃ g, g ∈ l ∧ id g = i.
Proof.
  assert (∀ cells t m, i ∈ extendRun cells t l m → i ∈ m ∨ ∃ g, g ∈ l ∧ id g = i) as Hext.
  { intros cells t m. rewrite extendRun_union, elem_of_union, elem_of_extendRun.
    intros [?|(j & g & _ & (c & _ & Hg) & Hid)]; [by left|right].
    exists g. split; [|done]. by apply getGemAt_Some in Hg as [? _]. }
  assert (∀ g1 g2 g3 a1 b1 a2 b2 a3 b3,
            getGemAt a1 b1 l = Some g1 → getGemAt a2 b2 l = Some g2 →
            getGemAt a3 b3 l = Some g3 →
            i ∈ ({[id g3]} ∪ ({[id g2]} ∪ ({[id g1]} ∪ ∅)) : gset nat) →
            ∃ g, g ∈ l ∧ id g = i) as Hbase.
  { intros g1 g2 g3 a1 b1 a2 b2 a3 b3 [? _]%getGemAt_Some [? _]%getGemAt_Some
      [? _]%getGemAt_Some Hi.
    apply elem_of_union in Hi as [->%elem_of_singleton|Hi]; [by exists g3|].
    apply elem_of_union in Hi as [->%elem_of_singleton|Hi]; [by exists g2|].
    apply elem_of_union in Hi as [->%elem_of_singleton|Hi]; [by exists g1|].
    by apply not_elem_of_empty in Hi. }
  intros [(gx & gy & _ & _ & Hw)|(gx & gy & _ & _ & Hw)]%elem_of_findMatches.
  - unfold scanH in Hw.
    destruct (getGemAt gx gy l) as [g1|] eqn:E1; [|by apply not_elem_of_empty in Hw].
    destruct (getGemAt (gx + 1) gy l) as [g2|] eqn:E2; [|by apply not_elem_of_empty in Hw].
    destruct (getGemAt (gx + 2) gy l) as [g3|] eqn:E3; [|by apply not_elem_of_empty in Hw].
    case_decide; [|by apply not_elem_of_empty in Hw].
    apply Hext in Hw as [Hw|?]; [|done].
    exact (Hbase g1 g2 g3 _ _ _ _ _ _ E1 E2 E3 Hw).
  - unfold scanV in Hw.
    destruct (getGemAt gx gy l) as [g1|] eqn:E1; [|by apply not_elem_of_empty in Hw].
    destruct (getGemAt gx (gy + 1) l) as [g2|] eqn:E2; [|by apply not_elem_of_empty in Hw].
    destruct (getGemAt gx (gy + 2) l) as [g3|] eqn:E3; [|by apply not_elem_of_empty in Hw].
    case_decide; [|by apply not_elem_of_empty in Hw].
    apply Hext in Hw as [Hw|?]; [|done].
    exact (Hbase g1 g2 g3 _ _ _ _ _ _ E1 E2 E3 Hw).
Qed.

(** On a full layout with a match, the round of [processBoard] completes,
    and the layout it passes on has an empty cell in the top row: the gems
    of the refill are not on the board. *)
Lemma matching_round_leaves_gap rng (l : list Gem) env :
  fullBoard COLS ROWS l → findMatches COLS ROWS l ≠ ∅ →
  ∃ (newGems : list Gem) env',
    nextLayout COLS ROWS rng l env = Returned (newGems, env') ∧
    (∃ c, 0 ≤ c < COLS ∧ 0 < ROWS ∧ getGemAt c 0 newGems = None) ∧
    ¬ fullBoard COLS ROWS newGems.
Proof.
  intros Hfull Hne. pose proof Hfull as [_ Hin].
  apply set_choose_L in Hne as [i Hi].
  destruct (findMatches_ids l i Hi) as (g & Hg & Hid).
  unfold nextLayout. set (remaining := removeMatched (findMatches COLS ROWS l) l).
  destruct (applyGravity_spec COLS ROWS rng remaining env)
    as (newGems & env' & fresh & Happ & Hfresh & Hnew).
  { apply Forall_forall. intros h Hh.
    unfold remaining, removeMatched in Hh. apply list_elem_of_filter in Hh as [_ Hh].
    rewrite Forall_forall in Hin. specialize (Hin h Hh). lia. }
  exists newGems, env'. split; [done|].
  assert (0 ≤ x g < COLS) as Hc.
  { rewrite Forall_forall in Hin. specialize (Hin g Hg). lia. }
  assert (length (filter (λ h, x h = x g) remaining) < Z.to_nat ROWS)%nat as Hk.
  { rewrite <- (full_column_count l (x g) Hfull Hc).
    unfold remaining, removeMatched. rewrite list_filter_filter.
    rewrite (filter_split_length (λ h, id h ∉ findMatches COLS ROWS l)
               (filter (λ h, x h = x g) l)).
    rewrite list_filter_filter.
    assert (0 < length (filter (λ h, ¬ (id h ∉ findMatches COLS ROWS l))
                          (filter (λ h, x h = x g) l)))%nat.
    { destruct (filter _ (filter _ l)) as [|? ?] eqn:E; [|simpl; lia].
      exfalso. eapply (filter_nil_not_elem_of _ _ g E).
      - intros Hn. apply Hn. by rewrite Hid.
      - by apply list_elem_of_filter. }
    assert (length (filter (λ h, x h = x g ∧ (id h ∉ findMatches COLS ROWS l)) l) =
            length (filter (λ h, (id h ∉ findMatches COLS ROWS l) ∧ x h = x g) l)) as ->.
    { f_equal. apply list_filter_iff. intros h. tauto. }
    lia. }
  assert (getGemAt (x g) 0 newGems = None) as Hgap.
  { apply getGemAt_None. intros h Hh [Hhx Hhy].
    apply Hnew in Hh as [Hf|(c & j & g0 & _ & Hj & ->)].
    - destruct (Hfresh h Hf) as (_ & ? & _). lia.
    - simpl in *.
      assert (x g0 = c) as Hg0.
      { apply list_elem_of_lookup_2 in Hj. rewrite sortByY_Permutation in Hj.
        by apply list_elem_of_filter in Hj as [? _]. }
      subst c. rewrite Hhx in Hhy. lia. }
  split; [exists (x g); split_and!; [lia..|done]|].
  intros [Hcells _]. rewrite Forall_forall in Hcells.
  specialize (Hcells 0). rewrite elem_of_seqZ, Forall_forall in Hcells.
  specialize (Hcells ltac:(lia) (x g)). rewrite elem_of_seqZ in Hcells.
  specialize (Hcells ltac:(lia)). unfold cellCount in Hcells.
  rewrite filter_none in Hcells; [done|].
  intros h Hh Hpos. rewrite getGemAt_None in Hgap. by apply (Hgap h).
Qed.

End Gap.

(** ** The layouts of a session are well formed *)

(** The gems of a list, column by column. *)
Lemma partition_by_column (L : list Gem) (n : nat) :
  Forall (λ g, 0 ≤ x g < Z.of_nat n)%Z L →
  mjoin ((λ c, filter (λ g, x g = c) L) <$> seqZ 0 (Z.of_nat n)) ≡ₚ L.
Proof.
  revert L. induction n as [|n IH]; intros L Hall.
  - destruct L as [|g L]; [done|]. apply Forall_cons in Hall as [? _]. lia.
  - rewrite seqZ_S, fmap_app, join_app. simpl. rewrite app_nil_r, Z.add_0_l.
    etrans; [|apply (filter_app_complement (λ g, x g = Z.of_nat n) L)].
    rewrite (Permutation_app_comm (filter (λ g, x g = Z.of_nat n) L)).
    apply Permutation_app; [|done].
    etrans; [|apply (IH (filter (λ g, ¬ x g = Z.of_nat n) L))].
    + assert (∀ A B : list Gem, A = B → A ≡ₚ B) as Heq by (by intros ?? ->).
      apply Heq. f_equal. apply list_fmap_ext. intros j c [-> Hj]%lookup_seqZ.
      rewrite list_filter_filter. apply list_filter_iff. intros g. lia.
    + apply Forall_forall. intros g [Hne Hg]%list_elem_of_filter.
      rewrite Forall_forall in Hall. specialize (Hall g Hg). lia.
Qed.

Section WellFormed.
Local Open Scope Z_scope.
Variables COLS ROWS : Z.
Variable rng : nat → Kind.

Lemma refill_ids gx missing ks env fresh env' :
  refill rng gx missing ks env = (fresh, env') →
  id <$> fresh = seq (gemIdCounter env) (length ks).
Proof.
  revert env fresh env'. induction ks as [|k ks IH]; intros env fresh env'; simpl.
  - by intros [= <- <-].
  - destruct (refill rng gx missing ks _) as [gs env2] eqn:Hr.
    intros [= <- <-]. apply IH in Hr. csimpl in *. by rewrite Hr.
Qed.

Lemma settle_ids missing (l : list Gem) : id <$> imap (settle missing) l = id <$> l.
Proof. rewrite fmap_imap. rewrite <- (imap_const id l). by apply imap_ext. Qed.

(** The ids of [newGems]: those that were in the columns and the ids taken
    from [gemIdCounter] for the refill. *)
Lemma rebuild_ids (cols : list (list Gem)) (cs : list Z) (acc : list Gem) env res env' :
  foldM (rebuildColumn ROWS rng cols) (acc, env) cs = Returned (res, env') →
  (gemIdCounter env ≤ gemIdCounter env')%nat ∧
  id <$> res ≡ₚ
    (id <$> acc) ++ seq (gemIdCounter env) (gemIdCounter env' - gemIdCounter env) ++
    (id <$> mjoin ((λ c, default [] (cols !! Z.to_nat c)) <$> cs)).
Proof.
  revert acc env. induction cs as [|c cs IH]; intros acc env; simpl.
  - intros [= <- <-]. rewrite Nat.sub_diag. simpl. by rewrite app_nil_r.
  - destruct (cols !! Z.to_nat c) as [col|] eqn:Hcol; simpl; [|done].
    destruct (refill rng c _ _ env) as [fresh env1] eqn:Hr. simpl.
    pose proof (refill_ids _ _ _ _ _ _ Hr) as Hids.
    apply refill_spec in Hr as (Hc1 & _ & _ & _).
    intros [Hle Hres]%IH. split; [lia|].
    assert (id <$> sortByY col ≡ₚ id <$> col) as Hs by (by rewrite sortByY_Permutation).
    rewrite Hres, !fmap_app, settle_ids, Hids, Hs.
    replace (gemIdCounter env' - gemIdCounter env)%nat
      with (length (seqZ 0 (ROWS - Z.of_nat (length (sortByY col)))) +
            (gemIdCounter env' - gemIdCounter env1))%nat by lia.
    rewrite seq_app, <- Hc1, <- !app_assoc. do 2 f_equiv.
    rewrite !app_assoc. f_equiv; [apply Permutation_app_comm|done].
Qed.

Lemma applyGravity_ids (remaining : list Gem) env newGems env' :
  Forall (λ g, 0 ≤ x g < COLS) remaining →
  applyGravity COLS ROWS rng remaining env = Returned (newGems, env') →
  (gemIdCounter env ≤ gemIdCounter env')%nat ∧
  id <$> newGems ≡ₚ
    seq (gemIdCounter env) (gemIdCounter env' - gemIdCounter env) ++ (id <$> remaining).
Proof.
  intros Hall. unfold applyGravity.
  destruct (pushAll_spec (replicate (Z.to_nat COLS) []) remaining)
    as (cols & -> & Hlen & Hcols).
  { rewrite length_replicate. eapply Forall_impl; [exact Hall|]. simpl. intros; lia. }
  simpl. intros [Hle Hres]%rebuild_ids. split; [done|].
  rewrite Hres. simpl. do 2 f_equiv.
  etrans; [|apply (partition_by_column remaining (Z.to_nat COLS))].
  - assert (∀ A B : list Gem, A = B → A ≡ₚ B) as Heq by (by intros ?? ->).
    apply Heq. destruct (decide (0 ≤ COLS)) as [Hpos|Hneg].
    + rewrite Z2Nat.id by done. f_equal.
      apply list_fmap_ext. intros j c [-> Hj]%lookup_seqZ.
      rewrite (Hcols (Z.to_nat (0 + Z.of_nat j)) []).
      * simpl. apply list_filter_iff. intros g. lia.
      * apply lookup_replicate_2. lia.
    + by rewrite !seqZ_nil by lia.
  - eapply Forall_impl; [exact Hall|]. simpl. intros; lia.
Qed.

(** A round of [processBoard] on a well-formed layout gives a well-formed
    layout. *)
Lemma nextLayout_wellFormed l env newGems env' :
  wellFormed COLS l env →
  nextLayout COLS ROWS rng l env = Returned (newGems, env') →
  wellFormed COLS newGems env'.
Proof.
  intros (Hnd & Hlt & Hx) Hnext. unfold nextLayout in Hnext.
  set (remaining := removeMatched (findMatches COLS ROWS l) l) in *.
  assert (∀ g, g ∈ remaining → g ∈ l) as Hsub.
  { intros g Hg. unfold remaining, removeMatched in Hg.
    by apply list_elem_of_filter in Hg as [_ ?]. }
  assert (Forall (λ g, 0 ≤ x g < COLS) remaining) as Hxr.
  { apply Forall_forall. intros g Hg%Hsub. rewrite Forall_forall in Hx. by apply Hx. }
  destruct (applyGravity_ids remaining env newGems env' Hxr Hnext) as [Hle Hids].
  assert (∀ i, i ∈ id <$> remaining → (i < gemIdCounter env)%nat) as Hold.
  { intros i (g & -> & Hg%Hsub)%list_elem_of_fmap.
    rewrite Forall_forall in Hlt. by apply Hlt. }
  split_and!.
  - rewrite Hids. apply NoDup_app. split_and!.
    + apply NoDup_seq.
    + intros i Hi%elem_of_seq Hi'%Hold. lia.
    + apply (sublist_NoDup _ (id <$> l)); [done|].
      apply fmap_sublist, sublist_filter.
  - apply Forall_forall. intros g Hg.
    assert (id g ∈ id <$> newGems) as Hi by (by apply list_elem_of_fmap_2).
    rewrite Hids in Hi. apply elem_of_app in Hi as [Hi%elem_of_seq|Hi%Hold]; lia.
  - destruct (applyGravity_spec COLS ROWS rng remaining env Hxr)
      as (newGems' & env'' & fresh & Happ & Hfresh & Hnew).
    rewrite Hnext in Happ. injection Happ as <- <-.
    apply Forall_forall. intros g [Hf|(c & i & g0 & Hc & Hi & ->)]%Hnew.
    + by destruct (Hfresh g Hf) as (? & _).
    + simpl. apply list_elem_of_lookup_2 in Hi. rewrite sortByY_Permutation in Hi.
      apply list_elem_of_filter in Hi as [-> _]. done.
Qed.

(** The swap of [handleSwap] keeps a layout well formed. *)
Lemma swapLayout_wellFormed id1 id2 l l' env :
  wellFormed COLS l env → swapLayout id1 id2 l = Returned l' → wellFormed COLS l' env.
Proof.
  intros (Hnd & Hlt & Hx). unfold swapLayout.
  destruct (findById id1 l) as [g1|] eqn:E1, (findById id2 l) as [g2|] eqn:E2;
    intros [= <-]; [|done].
  apply findById_Some in E1 as [I1 _]. apply findById_Some in E2 as [I2 _].
  rewrite Forall_forall in Hlt, Hx.
  assert (∀ g, id (swapCoords id1 id2 g1 g2 g) = id g) as Hid.
  { intros g. unfold swapCoords. by repeat case_decide. }
  split_and!.
  - rewrite <- list_fmap_compose. erewrite list_fmap_ext; [exact Hnd|].
    intros j g _. apply Hid.
  - apply Forall_forall. intros h (g & -> & Hg)%list_elem_of_fmap.
    rewrite Hid. by apply Hlt.
  - apply Forall_forall. intros h (g & -> & Hg)%list_elem_of_fmap.
    unfold swapCoords. repeat case_decide; simpl; by apply Hx.
Qed.

Lemma redraw_counter n l gx gy t env t' env' :
  redraw COLS n rng l gx gy t env = Returned (t', env') →
  gemIdCounter env' = gemIdCounter env.
Proof.
  revert t env. induction n as [|n IH]; intros t env; simpl; [done|].
  destruct (wouldMatch COLS l gx gy t) as [[|]| |]; simpl; try done.
  - intros Hr%IH. by rewrite Hr.
  - by intros [= <- <-].
Qed.

(** The layout that [initGame] sets is well formed. *)
Lemma initGame_wellFormed fuel st env st' env' :
  initGame COLS ROWS fuel rng st env = Returned (st', env') →
  wellFormed COLS (gems st') env'.
Proof.
  intros Hinit. pose proof (initGame_full _ _ _ _ _ _ _ _ Hinit) as [_ Hin].
  unfold initGame in Hinit.
  destruct (foldM _ _ (seqZ 0 ROWS)) as [[newGems env1]| |] eqn:Hf; simpl in Hinit;
    try done.
  injection Hinit as <- <-. simpl in *.
  set (inv := λ a : list Gem * Env,
         id <$> a.1 = seq (gemIdCounter env) (length a.1) ∧
         gemIdCounter a.2 = (gemIdCounter env + length a.1)%nat).
  assert (inv (newGems, env1)) as [Hids Hc].
  { apply (foldM_ind _ (λ _, inv)) in Hf; [done|done|].
    intros i a gy a' _ Ha Hrow.
    apply (foldM_ind _ (λ _, inv)) in Hrow; [done|done|].
    clear. intros _ [l e] gx [l' e'] _ [Hids Hc]. unfold placeGem. simpl in *.
    destruct (redraw COLS fuel rng l gx gy _ _) as [[t' e2]| |] eqn:Hr; simpl; try done.
    apply redraw_counter in Hr. simpl in Hr.
    intros [= <- <-]. unfold inv. simpl.
    rewrite fmap_app, length_app, Hids, Hr, Hc. simpl.
    split; [|lia]. by rewrite seq_app. }
  simpl in *. split_and!.
  - rewrite Hids. apply NoDup_seq.
  - apply Forall_forall. intros g Hg.
    assert (id g ∈ id <$> newGems) as Hi by (by apply list_elem_of_fmap_2).
    rewrite Hids in Hi. apply elem_of_seq in Hi. lia.
  - eapply Forall_impl; [exact Hin|]. simpl. tauto.
Qed.

End WellFormed.

(** ** Renaming the ids

    The engine uses the id of a gem only to tell gems apart, so a run on a
    layout with renamed ids is the renamed run.  This is used to follow a
    cascade whose layouts repeat up to the ids of the gems. *)

Section Rename.
Local Open Scope Z_scope.
Variables COLS ROWS : Z.
Variable rng : nat → Kind.
Variable f : nat → nat.
Hypothesis f_inj : Inj (=) (=) f.

Local Abbreviation rn := (renameGem f).
Local Abbreviation rnL := (fmap (M:=list) (renameGem f)).
Local Abbreviation rnC := (fmap (M:=list) (fmap (M:=list) (renameGem f))).
Local Abbreviation envMatch := (envMatch rng f).
Local Abbreviation simOut := (simOut rng f).

Lemma getGemAt_rename gx gy l :
  getGemAt gx gy (rn <$> l) = rn <$> getGemAt gx gy l.
Proof.
  unfold getGemAt. induction l as [|g l IH]; [done|]. csimpl.
  destruct (decide (x g = gx ∧ y g = gy)) as [Hd|Hd].
  - done.
  - destruct (list_find _ (rn <$> l)) as [[? ?]|], (list_find _ l) as [[? ?]|];
      simplify_eq/=; done.
Qed.

Lemma extendRun_rename cells t l m :
  extendRun cells t (rn <$> l) (set_map f m) = set_map f (extendRun cells t l m).
Proof.
  revert m. induction cells as [|[cx cy] rest IH]; intros m; simpl; [done|].
  rewrite getGemAt_rename. destruct (getGemAt cx cy l) as [next|]; simpl; [|done].
  case_decide; [|done].
  rewrite <- IH. f_equal. by rewrite set_map_union_L, set_map_singleton_L.
Qed.

Lemma scanH_rename l gy m gx :
  scanH COLS (rn <$> l) gy (set_map f m) gx = set_map f (scanH COLS l gy m gx).
Proof.
  unfold scanH. rewrite !getGemAt_rename.
  destruct (getGemAt gx gy l) as [g1|]; simpl; [|done].
  destruct (getGemAt (gx + 1) gy l) as [g2|]; simpl; [|done].
  destruct (getGemAt (gx + 2) gy l) as [g3|]; simpl; [|done].
  case_decide; [|done].
  rewrite <- extendRun_rename. f_equal.
  by rewrite !set_map_union_L, !set_map_singleton_L.
Qed.

Lemma scanV_rename l gx m gy :
  scanV ROWS (rn <$> l) gx (set_map f m) gy = set_map f (scanV ROWS l gx m gy).
Proof.
  unfold scanV. rewrite !getGemAt_rename.
  destruct (getGemAt gx gy l) as [g1|]; simpl; [|done].
  destruct (getGemAt gx (gy + 1) l) as [g2|]; simpl; [|done].
  destruct (getGemAt gx (gy + 2) l) as [g3|]; simpl; [|done].
  case_decide; [|done].
  rewrite <- extendRun_rename. f_equal.
  by rewrite !set_map_union_L, !set_map_singleton_L.
Qed.

Lemma foldl_rename {B} (F F' : gset nat → B → gset nat) m (bs : list B) :
  (∀ m b, F' (set_map f m) b = set_map f (F m b)) →
  foldl F' (set_map f m) bs = set_map f (foldl F m bs).
Proof.
  intros HF. revert m. induction bs as [|b bs IH]; intros m; simpl; [done|].
  by rewrite HF, IH.
Qed.

Lemma findMatches_rename l :
  findMatches COLS ROWS (rn <$> l) = set_map f (findMatches COLS ROWS l).
Proof.
  unfold findMatches.
  rewrite <- (foldl_rename (λ m gx, foldl (scanV ROWS l gx) m (seqZ 0 (ROWS - 2)))
               (λ m gx, foldl (scanV ROWS (rn <$> l) gx) m (seqZ 0 (ROWS - 2)))).
  - f_equal.
    rewrite <- (foldl_rename (λ m gy, foldl (scanH COLS l gy) m (seqZ 0 (COLS - 2)))
                 (λ m gy, foldl (scanH COLS (rn <$> l) gy) m (seqZ 0 (COLS - 2)))).
    + by rewrite set_map_empty.
    + intros m gy. apply foldl_rename. intros m' gx. apply scanH_rename.
  - intros m gx. apply foldl_rename. intros m' gy. apply scanV_rename.
Qed.

Lemma removeMatched_rename m l :
  removeMatched (set_map f m) (rn <$> l) = rn <$> removeMatched m l.
Proof.
  unfold removeMatched. induction l as [|g l IH]; [done|].
  rewrite fmap_cons, !filter_cons, IH. simpl.
  destruct (decide (id g ∈ m)) as [Hin|Hout].
  - rewrite decide_False; [|intros Hn; apply Hn, elem_of_map; by exists (id g)].
    by rewrite decide_False by (by intros Hn).
  - rewrite decide_True; [by rewrite decide_True|].
    intros (i & Hi%f_inj & Him)%elem_of_map. by subst.
Qed.

Lemma pushAll_rename (cols : list (list Gem)) l :
  pushAll (rnC cols) (rnL l) =
    match pushAll cols l with
    | Returned cols' => Returned (rnC cols')
    | Threw => Threw
    | OutOfFuel => OutOfFuel
    end.
Proof.
  revert cols. induction l as [|g l IH]; intros cols; simpl; [done|].
  unfold pushColumn. simpl. case_decide; [|done].
  rewrite list_lookup_fmap. destruct (cols !! Z.to_nat (x g)) as [col|]; simpl; [|done].
  rewrite <- IH. f_equal. rewrite list_fmap_insert. f_equal.
  by rewrite fmap_app.
Qed.

Lemma insertByY_rename g l : insertByY (rn g) (rnL l) = rn <$> insertByY g l.
Proof.
  induction l as [|h t IH]; csimpl; [done|].
  case_decide; csimpl; [done|]. by rewrite IH.
Qed.

Lemma sortByY_rename l : sortByY (rnL l) = rn <$> sortByY l.
Proof.
  induction l as [|g l IH]; csimpl; [done|].
  by rewrite IH, insertByY_rename.
Qed.

Lemma envMatch_next env env' :
  envMatch env env' →
  f (gemIdCounter env) = gemIdCounter env' ∧ rng (rngPos env) = rng (rngPos env') ∧
  envMatch (mkEnv (S (gemIdCounter env)) (S (rngPos env)))
           (mkEnv (S (gemIdCounter env')) (S (rngPos env'))).
Proof.
  intros [Hc Hp]. split_and!.
  - specialize (Hc 0%nat). by rewrite !Nat.add_0_r in Hc.
  - specialize (Hp 0%nat). by rewrite !Nat.add_0_r in Hp.
  - split; intros k; simpl.
    + specialize (Hc (S k)). by rewrite !Nat.add_succ_r in Hc.
    + specialize (Hp (S k)). by rewrite !Nat.add_succ_r in Hp.
Qed.

Lemma refill_rename gx missing ks env env' :
  envMatch env env' →
  ∃ env1', refill rng gx missing ks env' =
             (rn <$> (refill rng gx missing ks env).1, env1') ∧
           envMatch (refill rng gx missing ks env).2 env1'.
Proof.
  revert env env'. induction ks as [|k ks IH]; intros env env' Hm; simpl.
  - by exists env'.
  - apply envMatch_next in Hm as (Hc & Hp & Hm).
    destruct (IH _ _ Hm) as (env1' & Hr & Hm1). rewrite Hr.
    destruct (refill rng gx missing ks (mkEnv (S (gemIdCounter env)) (S (rngPos env))))
      as [gs env2]. simpl in *.
    exists env1'. split; [|done]. unfold renameGem. simpl. by rewrite Hc, Hp.
Qed.

Lemma rebuild_rename (cols : list (list Gem)) cs acc env env' :
  envMatch env env' →
  simOut (foldM (rebuildColumn ROWS rng cols) (acc, env) cs)
         (foldM (rebuildColumn ROWS rng (rnC cols)) (rn <$> acc, env') cs).
Proof.
  revert acc env env'. induction cs as [|c cs IH]; intros acc env env' Hm; simpl; [done|].
  rewrite list_lookup_fmap. destruct (cols !! Z.to_nat c) as [col|]; simpl; [|done].
  rewrite sortByY_rename, length_fmap.
  destruct (refill_rename c (ROWS - Z.of_nat (length (sortByY col)))
              (seqZ 0 (ROWS - Z.of_nat (length (sortByY col)))) _ _ Hm)
    as (env1' & -> & Hm1).
  destruct (refill rng c _ _ env) as [fresh env1]. simpl in *.
  replace (rnL acc ++ rnL fresh ++
             imap (settle (ROWS - Z.of_nat (length (sortByY col)))) (rnL (sortByY col)))
    with (rnL (acc ++ fresh ++
                 imap (settle (ROWS - Z.of_nat (length (sortByY col)))) (sortByY col))).
  { by apply IH. }
  rewrite !fmap_app. do 2 f_equal. rewrite imap_fmap, fmap_imap. done.
Qed.

Lemma nextLayout_rename l env env' :
  envMatch env env' →
  simOut (nextLayout COLS ROWS rng l env) (nextLayout COLS ROWS rng (rnL l) env').
Proof.
  intros Hm. unfold nextLayout, applyGravity.
  rewrite findMatches_rename, removeMatched_rename.
  pose proof (pushAll_rename (replicate (Z.to_nat COLS) [])
                (removeMatched (findMatches COLS ROWS l) l)) as Hp.
  rewrite fmap_replicate in Hp. simpl in Hp. rewrite Hp. clear Hp.
  destruct (pushAll (replicate (Z.to_nat COLS) [])
              (removeMatched (findMatches COLS ROWS l) l)) as [cols| |]; cbn; [|done..].
  by apply (rebuild_rename cols (seqZ 0 COLS) []).
Qed.

(** A cascade that does not end within [fuel] calls does not end within
    [fuel] calls on the renamed layout either. *)
Lemma processBoard_rename_OutOfFuel fuel l mult st env mult' st' env' :
  envMatch env env' →
  processBoard COLS ROWS fuel rng l mult st env = OutOfFuel →
  processBoard COLS ROWS fuel rng (rnL l) mult' st' env' = OutOfFuel.
Proof.
  revert l mult st env mult' st' env'.
  induction fuel as [|fuel IH]; intros l mult st env mult' st' env' Hm; [done|].
  destruct (decide (findMatches COLS ROWS l = ∅)) as [He|Hne].
  { by rewrite processBoard_stop. }
  assert (findMatches COLS ROWS (rnL l) ≠ ∅) as Hne'.
  { rewrite findMatches_rename. apply set_choose_L in Hne as [i Hi].
    intros He. apply (not_elem_of_empty (C:=gset nat) (f i)). rewrite <- He.
    apply elem_of_map. by exists i. }
  pose proof (nextLayout_rename l env env' Hm) as Hsim.
  destruct (nextLayout COLS ROWS rng l env) as [[l1 e1]| |] eqn:Hn,
           (nextLayout COLS ROWS rng (rnL l) env') as [[l1' e1']| |] eqn:Hn';
    simpl in Hsim; try done.
  - destruct Hsim as [-> Hm1].
    rewrite (processBoard_step _ _ _ _ _ _ _ _ l1 e1) by done.
    rewrite (processBoard_step _ _ _ _ _ _ _ _ (rnL l1) e1') by done.
    by apply IH.
  - intros Hs. simpl in Hs. case_decide as Hsz.
    + by apply size_empty_inv, leibniz_equiv in Hsz.
    + by rewrite Hn in Hs.
  - intros _. simpl. case_decide as Hsz.
    + by apply size_empty_inv, leibniz_equiv in Hsz.
    + by rewrite Hn'.
Qed.

End Rename.

(** ** The session: reverting a swap, replacing a selection *)

(** C6: when the layout with the two gems exchanged has no match,
    [handleSwap] puts back the array of gems it started from, the very same
    list, and leaves the score as it was. *)
Theorem handleSwap_no_match_reverts COLS ROWS fuel rng id1 id2 g1 g2 st env :
  findById id1 (gems st) = Some g1 →
  findById id2 (gems st) = Some g2 →
  findMatches COLS ROWS (swapCoords id1 id2 g1 g2 <$> gems st) = ∅ →
  ∃ st', handleSwap COLS ROWS fuel rng id1 id2 st env = Returned (st', env) ∧
         gems st' = gems st ∧ score st' = score st ∧
         selectedId st' = None ∧ isProcessing st' = false.
Proof.
  intros H1 H2 Hm. unfold handleSwap, swapLayout. rewrite H1, H2. simpl.
  rewrite Hm, size_empty. case_decide; [lia|]. by eexists.
Qed.

(** C7: with [a] selected, a click on another gem [b] of the board calls
    [handleSwap] when the two gems are at distance one, and otherwise only
    makes [b] the selected gem, with the gems and the score unchanged. *)
Theorem handleClick_second_selection COLS ROWS fuel rng a b ga gb st env :
  isProcessing st = false → isPaused st = false →
  selectedId st = Some a → a ≠ b →
  findById a (gems st) = Some ga → findById b (gems st) = Some gb →
  (Z.abs (x ga - x gb) + Z.abs (y ga - y gb) = 1 →
     handleClick COLS ROWS fuel rng b st env = handleSwap COLS ROWS fuel rng a b st env)%Z ∧
  (Z.abs (x ga - x gb) + Z.abs (y ga - y gb) ≠ 1 →
     handleClick COLS ROWS fuel rng b st env =
       Returned (mkState (gems st) (score st) (Some b) false false, env))%Z.
Proof.
  intros Hp Hq Hs Hne Ha Hb. unfold handleClick.
  rewrite Hp, Hq, Hs, Ha, Hb. simpl.
  case_decide; [done|]. split; intros Hd; case_decide; try done.
  unfold setSelectedId. by rewrite Hp, Hq.
Qed.

(** ** The cascade: score and termination *)

Section Cascade.
Variables COLS ROWS : Z.

Lemma processBoard_score fuel rng l mult st env st' env' :
  processBoard COLS ROWS fuel rng l mult st env = Returned (st', env') →
  score st' =
    score st + sum_list (imap (λ i m, m * 10 * (mult + i)) (cascadeSizes COLS ROWS fuel rng l env)).
Proof.
  revert l mult st env. induction fuel as [|fuel IH]; intros l mult st env; [done|].
  simpl. case_decide as Hsz.
  - intros [= <- <-]. simpl. lia.
  - destruct (nextLayout COLS ROWS rng l env) as [[newGems env1]| |] eqn:Hn; try done.
    simpl. intros Hrec. apply IH in Hrec. rewrite Hrec. simpl.
    rewrite Nat.add_0_r, <- Nat.add_assoc. f_equal. f_equal. f_equal.
    apply imap_ext. intros i m _. simpl. lia.
Qed.

Lemma processBoard_returns_iff fuel rng l mult st env :
  (∃ res, processBoard COLS ROWS fuel rng l mult st env = Returned res) ↔
  ∃ k, k < fuel ∧ stableAfter COLS ROWS k rng l env.
Proof.
  revert l mult st env. induction fuel as [|fuel IH]; intros l mult st env.
  - split; [by intros [? ?]|intros (k & ? & _); lia].
  - destruct (decide (findMatches COLS ROWS l = ∅)) as [He|Hne].
    + rewrite processBoard_stop by done. split; [|by eauto].
      intros _. exists 0. split; [lia|done].
    + destruct (nextLayout COLS ROWS rng l env) as [[newGems env1]| |] eqn:Hn.
      * rewrite (processBoard_step _ _ _ _ _ _ _ _ newGems env1) by done.
        rewrite IH. split.
        -- intros (k & Hk & Hst). exists (S k). split; [lia|]. simpl. eauto.
        -- intros (k & Hk & Hst). destruct k as [|k]; simpl in Hst; [done|].
           destruct Hst as (_ & l2 & e2 & Heq & Hst).
           rewrite Hn in Heq. injection Heq as <- <-.
           exists k. split; [lia|done].
      * split.
        -- intros [res Hres]. simpl in Hres. case_decide as Hsz.
           ++ by apply size_empty_inv, leibniz_equiv in Hsz.
           ++ by rewrite Hn in Hres.
        -- intros (k & Hk & Hst). destruct k as [|k]; simpl in Hst; [done|].
           destruct Hst as (_ & l2 & e2 & Heq & _). by rewrite Hn in Heq.
      * split.
        -- intros [res Hres]. simpl in Hres. case_decide as Hsz.
           ++ by apply size_empty_inv, leibniz_equiv in Hsz.
           ++ by rewrite Hn in Hres.
        -- intros (k & Hk & Hst). destruct k as [|k]; simpl in Hst; [done|].
           destruct Hst as (_ & l2 & e2 & Heq & _). by rewrite Hn in Heq.
Qed.

Lemma cascadeSizes_stable fuel rng l env :
  findMatches COLS ROWS l = ∅ → cascadeSizes COLS ROWS fuel rng l env = [].
Proof.
  intros He. destruct fuel; [done|]. simpl. rewrite He, size_empty. by case_decide.
Qed.

(** The score after [handleSwap]: the score before plus, for each round of
    the cascade on the layout with the two gems exchanged, ten times the
    number of matched ids times the number of the round. *)
Lemma handleSwap_score fuel rng id1 id2 st env nextGems st' env' :
  swapLayout id1 id2 (gems st) = Returned nextGems →
  handleSwap COLS ROWS fuel rng id1 id2 st env = Returned (st', env') →
  score st' =
    score st +
    sum_list (imap (λ i m, m * 10 * (i + 1)) (cascadeSizes COLS ROWS fuel rng nextGems env)).
Proof.
  intros Hswap. unfold handleSwap. rewrite Hswap. simpl. case_decide as Hsz.
  - intros Hp%processBoard_score. rewrite Hp. simpl. do 2 f_equal.
    apply imap_ext. intros i m _. simpl. lia.
  - intros [= <- <-]. simpl. rewrite cascadeSizes_stable; [simpl; lia|].
    apply leibniz_equiv, size_empty_inv. lia.
Qed.

End Cascade.

(** C2: when the cascade that starts with multiplier 1 returns, the score
    has grown by the sum, over the rounds [i = 1, 2, ...], of the number of
    ids matched in round [i] times 10 times [i]. *)
Theorem cascade_score_formula COLS ROWS fuel rng (l : list Gem) st env st' env' :
  processBoard COLS ROWS fuel rng l 1 st env = Returned (st', env') →
  score st' =
    score st + sum_list (imap (λ i m, m * 10 * (i + 1)) (cascadeSizes COLS ROWS fuel rng l env)).
Proof.
  intros H. apply processBoard_score in H. rewrite H. do 2 f_equal.
  apply imap_ext. intros i m _. simpl. lia.
Qed.

(** C9, as the code has it: [processBoard] has no bound on the number of
    rounds; it returns exactly when, after some number of rounds that each
    found matches and rebuilt the layout, a detection is empty. *)
Theorem processBoard_returns_iff_stable COLS ROWS fuel rng (l : list Gem) mult st env :
  (∃ res, processBoard COLS ROWS fuel rng l mult st env = Returned res) ↔
  ∃ k, k < fuel ∧ stableAfter COLS ROWS k rng l env.
Proof. apply processBoard_returns_iff. Qed.

(** ** Layouts with gaps *)

(** C8, as the code has it: on any layout, full or not, a call of
    [findMatches] returns a set, without an error.  An id is in the set
    exactly when a window of three cells of the board, in a row or in a
    column, holds three gems of one kind and reports the id; a window with
    an empty cell adds nothing. *)
Theorem findMatches_tolerates_gaps COLS ROWS (l : list Gem) :
  ∃ m, callFindMatches COLS ROWS l = Returned m ∧
    (∀ i, i ∈ m ↔
       (∃ gx gy, (0 ≤ gx < COLS - 2)%Z ∧ (0 ≤ gy < ROWS)%Z ∧
          sameKind3 (gx, gy) (gx + 1, gy)%Z (gx + 2, gy)%Z l ∧
          i ∈ scanH COLS l gy ∅ gx) ∨
       (∃ gx gy, (0 ≤ gx < COLS)%Z ∧ (0 ≤ gy < ROWS - 2)%Z ∧
          sameKind3 (gx, gy) (gx, gy + 1)%Z (gx, gy + 2)%Z l ∧
          i ∈ scanV ROWS l gx ∅ gy)) ∧
    (∀ gx gy m0,
       getGemAt gx gy l = None ∨ getGemAt (gx + 1) gy l = None ∨
       getGemAt (gx + 2) gy l = None → scanH COLS l gy m0 gx = m0)%Z ∧
    (∀ gx gy m0,
       getGemAt gx gy l = None ∨ getGemAt gx (gy + 1) l = None ∨
       getGemAt gx (gy + 2) l = None → scanV ROWS l gx m0 gy = m0)%Z.
Proof.
  eexists. split; [reflexivity|]. split_and!.
  - intros i. rewrite elem_of_findMatches. split.
    + intros [(gx & gy & Hx & Hy & Hw)|(gx & gy & Hx & Hy & Hw)]; [left|right];
        exists gx, gy; (split; [done|]); (split; [done|]); (split; [|done]).
      * apply scanH_fires in Hw as (g1 & g2 & g3 & E1 & E2 & E3 & T2 & T3 & _).
        by exists g1, g2, g3.
      * apply scanV_fires in Hw as (g1 & g2 & g3 & E1 & E2 & E3 & T2 & T3 & _).
        by exists g1, g2, g3.
    + intros [(gx & gy & Hx & Hy & _ & Hw)|(gx & gy & Hx & Hy & _ & Hw)]; [left|right];
        by exists gx, gy.
  - intros gx gy m0 H. unfold scanH.
    destruct (getGemAt gx gy l), (getGemAt (gx + 1) gy l), (getGemAt (gx + 2) gy l);
      naive_solver.
  - intros gx gy m0 H. unfold scanV.
    destruct (getGemAt gx gy l), (getGemAt gx (gy + 1) l), (getGemAt gx (gy + 2) l);
      naive_solver.
Qed.

(** ** The board after [initGame] *)

(** C3: when [initGame] returns, [findMatches] on the gems it has set
    returns the empty set. *)
Theorem initGame_then_no_match COLS ROWS fuel rng st env st' env' :
  initGame COLS ROWS fuel rng st env = Returned (st', env') →
  findMatches COLS ROWS (gems st') = ∅.
Proof. apply initGame_no_match. Qed.

(** ** Size of a match set *)

(** C10: on a layout whose gems have distinct ids, the match set is empty
    or holds at least three ids.  A round of [processBoard] that finds
    matches therefore adds at least thirty times the multiplier to the
    score: the call goes on with the next layout, the multiplier plus one
    and the state whose score is the score plus the size of the match set
    times ten times the multiplier; when the cascade returns, the score it
    leaves is at least thirty times the multiplier above the score at the
    call; and when the next layout has no match, the call returns with
    exactly that score. *)
Theorem match_set_empty_or_three COLS ROWS (l : list Gem) :
  NoDup (id <$> l) →
  (findMatches COLS ROWS l = ∅ ∨ 3 ≤ size (findMatches COLS ROWS l)) ∧
  (∀ fuel rng mult st env newGems env',
     findMatches COLS ROWS l ≠ ∅ →
     nextLayout COLS ROWS rng l env = Returned (newGems, env') →
     processBoard COLS ROWS (S fuel) rng l mult st env =
       processBoard COLS ROWS fuel rng newGems (mult + 1)
         (mkState newGems (score st + size (findMatches COLS ROWS l) * 10 * mult)
            (selectedId st) true (isPaused st)) env' ∧
     score st + 30 * mult ≤ score st + size (findMatches COLS ROWS l) * 10 * mult) ∧
  (∀ fuel rng mult st env st' env',
     findMatches COLS ROWS l ≠ ∅ →
     processBoard COLS ROWS fuel rng l mult st env = Returned (st', env') →
     score st + 30 * mult ≤ score st') ∧
  (∀ fuel rng mult st env newGems env',
     findMatches COLS ROWS l ≠ ∅ →
     nextLayout COLS ROWS rng l env = Returned (newGems, env') →
     findMatches COLS ROWS newGems = ∅ →
     processBoard COLS ROWS (S (S fuel)) rng l mult st env =
       Returned (mkState newGems (score st + size (findMatches COLS ROWS l) * 10 * mult)
                   (selectedId st) false (isPaused st), env')).
Proof.
  intros Hnd.
  assert (findMatches COLS ROWS l ≠ ∅ → 3 ≤ size (findMatches COLS ROWS l)) as Hthree.
  { intros Hne. by destruct (findMatches_three COLS ROWS l Hnd). }
  split_and!.
  - by apply findMatches_three.
  - intros fuel rng mult st env newGems env' Hne Hnext.
    split; [by apply processBoard_step|]. specialize (Hthree Hne). nia.
  - intros fuel rng mult st env st' env' Hne Hp. specialize (Hthree Hne).
    destruct fuel as [|fuel]; [done|].
    destruct (nextLayout COLS ROWS rng l env) as [[newGems env1]| |] eqn:Hnext.
    + rewrite (processBoard_step COLS ROWS fuel rng l mult st env newGems env1 Hne Hnext)
        in Hp.
      apply processBoard_score in Hp. simpl in Hp. nia.
    + simpl in Hp. case_decide as Hsz; [by apply size_empty_inv, leibniz_equiv in Hsz|].
      by rewrite Hnext in Hp.
    + simpl in Hp. case_decide as Hsz; [by apply size_empty_inv, leibniz_equiv in Hsz|].
      by rewrite Hnext in Hp.
  - intros fuel rng mult st env newGems env' Hne Hnext Hstable.
    rewrite (processBoard_step COLS ROWS (S fuel) rng l mult st env newGems env' Hne Hnext).
    by rewrite processBoard_stop.
Qed.

(** ** The cascade of the source on an 8 x 8 board *)

Lemma range2_by_Forall (P : Z → Z → Prop) (a n b m : Z) :
  Forall (λ u, Forall (λ v, P u v) (seqZ b m)) (seqZ a n) →
  ∀ u v, (a ≤ u < a + n)%Z → (b ≤ v < b + m)%Z → P u v.
Proof.
  intros H u v Hu Hv. rewrite Forall_forall in H.
  specialize (H u). rewrite elem_of_seqZ, Forall_forall in H.
  apply H; [done|]. by apply elem_of_seqZ.
Qed.

Ltac by_compute := apply (bool_decide_unpack _); vm_compute; exact I.

Lemma nonempty_of_size (m : gset nat) : size m ≠ 0 → m ≠ ∅.
Proof. intros Hs ->. by rewrite size_empty in Hs. Qed.

Lemma later3_inj : Inj (=) (=) later3.
Proof. intros i j. unfold later3. repeat case_decide; lia. Qed.

Lemma appleRng_later i : 64 ≤ i → appleRng i = Apple.
Proof. intros Hi. unfold appleRng, boardRng. by rewrite decide_True. Qed.

Lemma envMatch_later3 c p :
  64 ≤ c → 64 ≤ p → envMatch appleRng later3 (mkEnv c p) (mkEnv (c + 3) (p + 3)).
Proof.
  intros Hc Hp. split; intros k; simpl.
  - unfold later3. rewrite decide_False by lia. lia.
  - by rewrite !appleRng_later by lia.
Qed.

Lemma apple_round1 :
  nextLayout 8 8 appleRng swappedBoard startEnv = Returned (appleLayout1, mkEnv 67 67).
Proof. vm_compute. reflexivity. Qed.

Lemma apple_round2 :
  nextLayout 8 8 appleRng appleLayout1 (mkEnv 67 67) = Returned (appleLayout2, mkEnv 70 70).
Proof. vm_compute. reflexivity. Qed.

(** From round 3 on, every round removes the three apples at the rows 3
    to 5 of column 0, moves the three apples above the board to these rows
    and creates three apples above the board: the layout of the round
    before with its later ids moved up by three. *)
Lemma apple_round3 :
  nextLayout 8 8 appleRng appleLayout2 (mkEnv 70 70) =
    Returned (renameGem later3 <$> appleLayout2, mkEnv 73 73).
Proof. vm_compute. reflexivity. Qed.

Lemma apple_matches :
  findMatches 8 8 swappedBoard ≠ ∅ ∧ findMatches 8 8 appleLayout1 ≠ ∅ ∧
  findMatches 8 8 appleLayout2 ≠ ∅.
Proof. split_and!; apply nonempty_of_size; by vm_compute. Qed.

Lemma apple_loop fuel mult st :
  processBoard 8 8 fuel appleRng appleLayout2 mult st (mkEnv 70 70) = OutOfFuel.
Proof.
  revert mult st. induction fuel as [|fuel IH]; intros mult st; [done|].
  rewrite (processBoard_step _ _ _ _ _ _ _ _ _ _ (proj2 (proj2 apple_matches)) apple_round3).
  eapply (processBoard_rename_OutOfFuel 8 8 appleRng later3 later3_inj);
    [apply (envMatch_later3 70 70); lia|apply (IH mult st)].
Qed.

Lemma apple_cascade fuel :
  processBoard 8 8 fuel appleRng swappedBoard 1 swappedState startEnv = OutOfFuel.
Proof.
  destruct fuel as [|[|fuel]]; [done|by vm_compute|].
  rewrite (processBoard_step _ _ _ _ _ _ _ _ _ _ (proj1 apple_matches) apple_round1).
  rewrite (processBoard_step _ _ _ _ _ _ _ _ _ _ (proj1 (proj2 apple_matches)) apple_round2).
  apply apple_loop.
Qed.

(** C9, counterexample: [swappedBoard], the board of the source after the
    swap of the gems 32 and 33, is a full layout of gems with distinct ids;
    with later draws that are all apples every round of the cascade on it
    finds a match, and [processBoard] does not return, however many calls it
    is given. *)
Lemma cascade_never_returns :
  fullBoard 8 8 swappedBoard ∧ NoDup (id <$> swappedBoard) ∧
  ∀ fuel, processBoard 8 8 fuel appleRng swappedBoard 1 swappedState startEnv = OutOfFuel.
Proof. split_and!; [by_compute..|exact apple_cascade]. Qed.

(** The same from the click: [handleSwap] on the gems 32 and 33 of the
    board after [initGame] does not return. *)
Lemma handleSwap_never_returns :
  initGame 8 8 3 appleRng mountState mountEnv = Returned (startState, startEnv) ∧
  findMatches 8 8 (gems startState) = ∅ ∧
  ∀ fuel, handleSwap 8 8 fuel appleRng 32 33 startState startEnv = OutOfFuel.
Proof.
  split_and!; [by vm_compute..|]. intros fuel.
  change (handleSwap 8 8 fuel appleRng 32 33 startState startEnv)
    with (if decide (0 < size (findMatches 8 8 swappedBoard))
          then processBoard 8 8 fuel appleRng swappedBoard 1 swappedState startEnv
          else Returned (mkState (gems startState) 0 None false false, startEnv)).
  case_decide as Hd; [apply apple_cascade|].
  exfalso. apply Hd. by_compute.
Qed.

(** C1, on the code: the cascade on the same board, with later draws that
    go through the kinds in turn, returns after two rounds of matches; the
    gems created by the last refill are left at the rows -3, -2, -1 of
    column 0, and the cells (0, 0), (0, 1), (0, 2) of the final layout are
    empty. *)
Theorem cascade_leaves_gaps :
  fullBoard 8 8 swappedBoard ∧
  processBoard 8 8 5 turnRng swappedBoard 1 swappedState startEnv =
    Returned (turnFinalState, mkEnv 70 70) ∧
  ¬ fullBoard 8 8 (gems turnFinalState) ∧
  getGemAt 0 0 (gems turnFinalState) = None ∧
  getGemAt 0 1 (gems turnFinalState) = None ∧
  getGemAt 0 2 (gems turnFinalState) = None ∧
  mkGem 69 0 (-1) Lemon None (Some true) ∈ gems turnFinalState.
Proof.
  split_and!; [by_compute|by vm_compute|by_compute|by vm_compute..|by_compute].
Qed.

(** Every gem that the refill creates is left at a negative row. *)
Lemma refill_rows_negative COLS ROWS rng (remaining : list Gem) env :
  Forall (λ g, 0 ≤ x g < COLS)%Z remaining →
  ∃ (newGems : list Gem) env',
    applyGravity COLS ROWS rng remaining env = Returned (newGems, env') ∧
    ∀ g, g ∈ newGems → gemIdCounter env ≤ id g → Forall (λ h, id h < gemIdCounter env) remaining →
         (y g < 0)%Z.
Proof.
  intros Hall.
  destruct (applyGravity_spec COLS ROWS rng remaining env Hall)
    as (newGems & env' & fresh & Hg & Hfresh & Hnew).
  exists newGems, env'. split; [done|].
  intros g [Hf|(c & i & g0 & _ & Hi & ->)]%Hnew Hid Hold.
  - by apply Hfresh.
  - exfalso. simpl in Hid.
    assert (g0 ∈ remaining) as Hin.
    { apply list_elem_of_lookup_2 in Hi. rewrite sortByY_Permutation in Hi.
      by apply list_elem_of_filter in Hi as [_ ?]. }
    rewrite Forall_forall in Hold. specialize (Hold g0 Hin). lia.
Qed.

(** ** Instances of the theorems on the 8 x 8 board *)

Lemma cascade_score_formula_witness :
  processBoard 8 8 5 turnRng swappedBoard 1 swappedState startEnv =
    Returned (turnFinalState, mkEnv 70 70) ∧
  score turnFinalState =
    score swappedState +
    sum_list (imap (λ i m, m * 10 * (i + 1)) (cascadeSizes 8 8 5 turnRng swappedBoard startEnv)).
Proof.
  split; [by vm_compute|].
  apply (cascade_score_formula 8 8 5 turnRng swappedBoard swappedState startEnv
           turnFinalState (mkEnv 70 70)).
  by vm_compute.
Defined.

(** Among three draws in a row of [cycleRng] one differs from any two
    given kinds, so [initGame] with these draws returns on a board of any
    size. *)
Lemma cycleRng_spread : spread 3 cycleRng.
Proof.
  intros p a b.
  assert (∀ k, cycleRng (p + k) = cycleRng (p mod 6 + k)) as Hk.
  { intros k. unfold cycleRng. by rewrite <- Nat.Div0.add_mod_idemp_l. }
  pose proof (Nat.mod_upper_bound p 6 ltac:(lia)) as Hlt.
  destruct (p mod 6) as [|[|[|[|[|[|r]]]]]]; [..|lia];
    destruct a, b;
    first [ exists 0; split; [lia|]; rewrite Hk; by vm_compute
          | exists 1; split; [lia|]; rewrite Hk; by vm_compute
          | exists 2; split; [lia|]; rewrite Hk; by vm_compute ].
Qed.

Lemma initGame_cycleRng_returns COLS ROWS st env :
  ∃ st' env', initGame COLS ROWS 3 cycleRng st env = Returned (st', env') ∧
              findMatches COLS ROWS (gems st') = ∅ ∧ fullBoard COLS ROWS (gems st').
Proof.
  destruct (initGame_returns COLS ROWS 3 cycleRng cycleRng_spread st env)
    as (st' & env' & Hinit).
  exists st', env'. split_and!; [done| |].
  - by eapply initGame_no_match.
  - by eapply initGame_full.
Qed.

Lemma initGame_then_no_match_witness :
  initGame 8 8 3 appleRng mountState mountEnv = Returned (startState, startEnv) ∧
  findMatches 8 8 (gems startState) = ∅.
Proof.
  split; [by vm_compute|].
  apply (initGame_then_no_match 8 8 3 appleRng mountState mountEnv startState startEnv).
  by vm_compute.
Defined.

Lemma single_horizontal_run_detected_witness :
  fullBoard 8 8 runBoard ∧
  findMatches 8 8 runBoard = rowIds 3 2 4 runBoard ∧
  rowIds 3 2 4 runBoard = {[26; 27; 28; 29]} ∧
  size (findMatches 8 8 runBoard) = 4.
Proof.
  split; [by_compute|].
  destruct (single_horizontal_run_detected 8 8 runBoard 3 2 4 Apple) as (H1 & _ & H3).
  - lia.
  - lia.
  - lia.
  - intros c Hc.
    assert (c = 2 ∨ c = 3 ∨ c = 4 ∨ c = 5)%Z as Hcases by lia.
    destruct_or!; subst c; eexists; split; by vm_compute.
  - intros gx gy Hx1 Hx2 Hy.
    apply (range2_by_Forall
             (λ gx gy, sameKind3 (gx, gy) (gx + 1, gy)%Z (gx + 2, gy)%Z runBoard →
                       gy = 3%Z ∧ (2 ≤ gx)%Z ∧ (gx + 3 ≤ 2 + 4)%Z) 0 6 0 8);
      [by_compute|lia|lia].
  - intros gx gy Hx Hy1 Hy2.
    apply (range2_by_Forall
             (λ gx gy, ¬ sameKind3 (gx, gy) (gx, gy + 1)%Z (gx, gy + 2)%Z runBoard) 0 8 0 6);
      [by_compute|lia|lia].
  - split_and!; [exact H1|by vm_compute|apply H3; by_compute].
Defined.

Lemma gravity_keeps_column_order_witness :
  Forall (λ g, 0 ≤ x g < 8)%Z swappedBoard ∧
  ∃ (newGems : list Gem) env',
    nextLayout 8 8 turnRng swappedBoard startEnv = Returned (newGems, env') ∧
    ∃ i j, i < j < 5 ∧
      mkGem 0 0 (8 - 5 + Z.of_nat i) Orange (Some false) (Some true) ∈ newGems ∧
      mkGem 40 0 (8 - 5 + Z.of_nat j) Orange (Some false) (Some true) ∈ newGems.
Proof.
  split; [by_compute|].
  destruct (gravity_keeps_column_order 8 8 turnRng swappedBoard startEnv)
    as (newGems & env' & Hnext & Hcol); [by_compute|].
  exists newGems, env'. split; [done|].
  destruct (Hcol 0%Z ltac:(lia)) as (sorted & _ & _ & _ & Horder).
  apply (Horder (mkGem 0 0 0 Orange None (Some true)) (mkGem 40 0 5 Orange None (Some true)));
    [by_compute|by_compute|simpl; lia].
Defined.

Lemma handleSwap_no_match_reverts_witness :
  findMatches 8 8 (swapCoords 0 1 (mkGem 0 0 0 Orange None (Some true))
                     (mkGem 1 1 0 Coconut None (Some true)) <$> gems startState) = ∅ ∧
  ∃ st', handleSwap 8 8 5 appleRng 0 1 startState startEnv = Returned (st', startEnv) ∧
         gems st' = gems startState ∧ score st' = score startState ∧
         selectedId st' = None ∧ isProcessing st' = false.
Proof.
  split; [by vm_compute|].
  apply (handleSwap_no_match_reverts 8 8 5 appleRng 0 1
           (mkGem 0 0 0 Orange None (Some true)) (mkGem 1 1 0 Coconut None (Some true))
           startState startEnv); by vm_compute.
Defined.

Lemma handleClick_second_selection_witness :
  handleClick 8 8 5 appleRng 1 (setSelectedId (Some 0) startState) startEnv =
    handleSwap 8 8 5 appleRng 0 1 (setSelectedId (Some 0) startState) startEnv ∧
  handleClick 8 8 5 appleRng 9 (setSelectedId (Some 0) startState) startEnv =
    Returned (mkState (gems startState) 0 (Some 9) false false, startEnv).
Proof.
  split.
  - apply (handleClick_second_selection 8 8 5 appleRng 0 1
             (mkGem 0 0 0 Orange None (Some true)) (mkGem 1 1 0 Coconut None (Some true))
             (setSelectedId (Some 0) startState) startEnv); try (by vm_compute); lia.
  - apply (handleClick_second_selection 8 8 5 appleRng 0 9
             (mkGem 0 0 0 Orange None (Some true)) (mkGem 9 1 1 Lemon None (Some true))
             (setSelectedId (Some 0) startState) startEnv); try (by vm_compute); lia.
Defined.

Lemma match_set_empty_or_three_witness :
  (NoDup (id <$> swappedBoard) ∧ findMatches 8 8 swappedBoard ≠ ∅ ∧
   nextLayout 8 8 turnRng swappedBoard startEnv = Returned (turnLayout1, mkEnv 67 67) ∧
   processBoard 8 8 5 turnRng swappedBoard 1 swappedState startEnv =
     Returned (turnFinalState, mkEnv 70 70)) ∧
  (findMatches 8 8 swappedBoard = ∅ ∨ 3 ≤ size (findMatches 8 8 swappedBoard)) ∧
  (processBoard 8 8 5 turnRng swappedBoard 1 swappedState startEnv =
     processBoard 8 8 4 turnRng turnLayout1 (1 + 1)
       (mkState turnLayout1 (score swappedState + size (findMatches 8 8 swappedBoard) * 10 * 1)
          (selectedId swappedState) true (isPaused swappedState)) (mkEnv 67 67) ∧
   score swappedState + 30 * 1 ≤
     score swappedState + size (findMatches 8 8 swappedBoard) * 10 * 1) ∧
  score swappedState + 30 * 1 ≤ score turnFinalState ∧
  (NoDup (id <$> turnLayout1) ∧ findMatches 8 8 turnLayout1 ≠ ∅ ∧
   nextLayout 8 8 turnRng turnLayout1 (mkEnv 67 67) =
     Returned (gems turnFinalState, mkEnv 70 70) ∧
   findMatches 8 8 (gems turnFinalState) = ∅) ∧
  processBoard 8 8 2 turnRng turnLayout1 2 (mkState turnLayout1 30 None true false)
      (mkEnv 67 67) =
    Returned (mkState (gems turnFinalState) (30 + size (findMatches 8 8 turnLayout1) * 10 * 2)
                None false false, mkEnv 70 70).
Proof.
  assert (NoDup (id <$> swappedBoard)) as Hnd by by_compute.
  assert (findMatches 8 8 swappedBoard ≠ ∅) as Hne by by_compute.
  assert (NoDup (id <$> turnLayout1)) as Hnd1 by by_compute.
  assert (findMatches 8 8 turnLayout1 ≠ ∅) as Hne1 by by_compute.
  destruct (match_set_empty_or_three 8 8 swappedBoard Hnd) as (H1 & H2 & H3 & _).
  destruct (match_set_empty_or_three 8 8 turnLayout1 Hnd1) as (_ & _ & _ & H4).
  split_and!; [done|done|by vm_compute|by vm_compute|exact H1| | | |done|done|
               by vm_compute|by vm_compute|].
  - apply (H2 4 turnRng 1 swappedState startEnv turnLayout1 (mkEnv 67 67) Hne).
    by vm_compute.
  - apply (H2 4 turnRng 1 swappedState startEnv turnLayout1 (mkEnv 67 67) Hne).
    by vm_compute.
  - apply (H3 5 turnRng 1 swappedState startEnv turnFinalState (mkEnv 70 70) Hne).
    by vm_compute.
  - apply (H4 0 turnRng 2 (mkState turnLayout1 30 None true false) (mkEnv 67 67)
             (gems turnFinalState) (mkEnv 70 70) Hne1); by vm_compute.
Defined.

(** C8, counterexample: [gapRow] is not a full layout of the 8 x 8 board,
    and [findMatches] on it returns, with an empty set; so it does on the
    layout with gaps in which the cascade above ends. *)
Lemma findMatches_returns_on_gaps :
  (¬ fullBoard 8 8 gapRow ∧ callFindMatches 8 8 gapRow = Returned ∅) ∧
  (¬ fullBoard 8 8 (gems turnFinalState) ∧
   callFindMatches 8 8 (gems turnFinalState) = Returned ∅).
Proof. split; (split; [by_compute|by vm_compute]). Qed.

(** * Further properties of the engine *)

(** ** What [findMatches] reports *)

Section Triples.
Local Open Scope Z_scope.
Variables COLS ROWS : Z.

Lemma elem_of_extendRun_col a n gx t (l : list Gem) i :
  i ∈ extendRun ((λ k, (gx, k)) <$> seqZ a n) t l ∅ ↔
  ∃ c g, a ≤ c < a + n ∧ getGemAt gx c l = Some g ∧ id g = i ∧
    ∀ c', a ≤ c' ≤ c → ∃ g', getGemAt gx c' l = Some g' ∧ type g' = t.
Proof.
  rewrite elem_of_extendRun. split.
  - intros (j & g & Hall & (c & Hc & Hg) & Hid).
    rewrite list_lookup_fmap in Hc.
    destruct (seqZ a n !! j) as [c0|] eqn:Hj; simplify_eq/=.
    apply lookup_seqZ in Hj as [-> Hlt].
    exists (a + Z.of_nat j), g. split_and!; [lia..|done|done|].
    intros c' Hc'. destruct (Hall (Z.to_nat (c' - a))) as (c & g' & Hc & Hg' & Hty); [lia|].
    rewrite list_lookup_fmap in Hc.
    destruct (seqZ a n !! Z.to_nat (c' - a)) as [c0|] eqn:Hj'; simplify_eq/=.
    apply lookup_seqZ in Hj' as [-> _].
    exists g'. split; [|done]. rewrite <- Hg'. f_equal. lia.
  - intros (c & g & Hc & Hg & Hid & Hall).
    exists (Z.to_nat (c - a)), g. split_and!; [| |done].
    + intros j' Hj'. destruct (Hall (a + Z.of_nat j')) as (g' & Hg' & Hty); [lia|].
      exists (gx, a + Z.of_nat j'), g'. split_and!; [|done..].
      rewrite list_lookup_fmap.
      rewrite (proj2 (lookup_seqZ a n j' (a + Z.of_nat j'))) by lia. done.
    + exists (gx, c). split; [|done]. rewrite list_lookup_fmap.
      rewrite (proj2 (lookup_seqZ a n (Z.to_nat (c - a)) c)) by lia. done.
Qed.

Local Abbreviation inRowTriple := (inRowTriple COLS ROWS).
Local Abbreviation inColumnTriple := (inColumnTriple COLS ROWS).

Lemma scanH_inRowTriple l gx gy i :
  0 ≤ gx < COLS - 2 → 0 ≤ gy < ROWS → i ∈ scanH COLS l gy ∅ gx → inRowTriple l i.
Proof.
  intros Hx Hy Hw. pose proof Hw as Hfire.
  apply scanH_fires in Hfire as (g1 & g2 & g3 & E1 & E2 & E3 & T2 & T3 & _).
  unfold scanH in Hw. rewrite E1, E2, E3 in Hw.
  rewrite decide_True in Hw by done.
  rewrite extendRun_union, elem_of_union, elem_of_extendRun_row in Hw.
  destruct Hw as [Hbase|(c & g & Hc & Hg & Hid & Hall)].
  - exists gx, gy, g1, g2, g3. split_and!; [lia..|done|done|done|done|done|].
    set_solver.
  - assert (∀ c', gx ≤ c' ≤ c → ∃ g', getGemAt c' gy l = Some g' ∧ type g' = type g1)
      as Hcells.
    { intros c' Hc'. destruct (decide (gx + 3 ≤ c')) as [|Hlt]; [apply Hall; lia|].
      assert (c' = gx ∨ c' = gx + 1 ∨ c' = gx + 2) as [-> | [-> | ->]] by lia;
        eexists; split; done. }
    destruct (Hcells (c - 2)) as (h1 & F1 & S1); [lia|].
    destruct (Hcells (c - 1)) as (h2 & F2 & S2); [lia|].
    destruct (Hcells c) as (h3 & F3 & S3); [lia|].
    exists (c - 2), gy, h1, h2, h3.
    replace (c - 2 + 1) with (c - 1) by lia. replace (c - 2 + 2) with c by lia.
    split_and!; [lia..|done|done|done|congruence|congruence|].
    right. right. congruence.
Qed.

Lemma scanV_inColumnTriple l gx gy i :
  0 ≤ gx < COLS → 0 ≤ gy < ROWS - 2 → i ∈ scanV ROWS l gx ∅ gy → inColumnTriple l i.
Proof.
  intros Hx Hy Hw. pose proof Hw as Hfire.
  apply scanV_fires in Hfire as (g1 & g2 & g3 & E1 & E2 & E3 & T2 & T3 & _).
  unfold scanV in Hw. rewrite E1, E2, E3 in Hw.
  rewrite decide_True in Hw by done.
  rewrite extendRun_union, elem_of_union, elem_of_extendRun_col in Hw.
  destruct Hw as [Hbase|(c & g & Hc & Hg & Hid & Hall)].
  - exists gx, gy, g1, g2, g3. split_and!; [lia..|done|done|done|done|done|].
    set_solver.
  - assert (∀ c', gy ≤ c' ≤ c → ∃ g', getGemAt gx c' l = Some g' ∧ type g' = type g1)
      as Hcells.
    { intros c' Hc'. destruct (decide (gy + 3 ≤ c')) as [|Hlt]; [apply Hall; lia|].
      assert (c' = gy ∨ c' = gy + 1 ∨ c' = gy + 2) as [-> | [-> | ->]] by lia;
        eexists; split; done. }
    destruct (Hcells (c - 2)) as (h1 & F1 & S1); [lia|].
    destruct (Hcells (c - 1)) as (h2 & F2 & S2); [lia|].
    destruct (Hcells c) as (h3 & F3 & S3); [lia|].
    exists gx, (c - 2), h1, h2, h3.
    replace (c - 2 + 1) with (c - 1) by lia. replace (c - 2 + 2) with c by lia.
    split_and!; [lia..|done|done|done|congruence|congruence|].
    right. right. congruence.
Qed.

Lemma findMatches_iff_triple l i :
  i ∈ findMatches COLS ROWS l ↔ inRowTriple l i ∨ inColumnTriple l i.
Proof.
  rewrite elem_of_findMatches. split.
  - intros [(gx & gy & Hx & Hy & Hw)|(gx & gy & Hx & Hy & Hw)].
    + left. by eapply scanH_inRowTriple.
    + right. by eapply scanV_inColumnTriple.
  - intros [(gx & gy & g1 & g2 & g3 & Hx1 & Hx2 & Hy & E1 & E2 & E3 & T2 & T3 & Hi)|
            (gx & gy & g1 & g2 & g3 & Hx & Hy1 & Hy2 & E1 & E2 & E3 & T2 & T3 & Hi)].
    + left. exists gx, gy. split_and!; [lia..|].
      unfold scanH. rewrite E1, E2, E3, decide_True by done.
      apply extendRun_subseteq. set_solver.
    + right. exists gx, gy. split_and!; [lia..|].
      unfold scanV. rewrite E1, E2, E3, decide_True by done.
      apply extendRun_subseteq. set_solver.
Qed.

Lemma findMatches_on_board l i :
  i ∈ findMatches COLS ROWS l →
  ∃ g, g ∈ l ∧ id g = i ∧ 0 ≤ x g < COLS ∧ 0 ≤ y g < ROWS.
Proof.
  intros [(gx & gy & g1 & g2 & g3 & Hx1 & Hx2 & Hy & E1 & E2 & E3 & _ & _ & Hi)|
          (gx & gy & g1 & g2 & g3 & Hx & Hy1 & Hy2 & E1 & E2 & E3 & _ & _ & Hi)]
    %findMatches_iff_triple;
    apply getGemAt_Some in E1 as (I1 & X1 & Y1);
    apply getGemAt_Some in E2 as (I2 & X2 & Y2);
    apply getGemAt_Some in E3 as (I3 & X3 & Y3);
    destruct Hi as [-> | [-> | ->]];
    first [ exists g1; split_and!; [done|done|lia..]
          | exists g2; split_and!; [done|done|lia..]
          | exists g3; split_and!; [done|done|lia..] ].
Qed.

End Triples.

(** ** What a cascade keeps *)

Section Session.
Local Open Scope Z_scope.
Variables COLS ROWS : Z.
Variable rng : nat → Kind.

Lemma processBoard_unfold fuel l mult st env :
  findMatches COLS ROWS l ≠ ∅ →
  processBoard COLS ROWS (S fuel) rng l mult st env =
    '(newGems, env') ← nextLayout COLS ROWS rng l env;
    processBoard COLS ROWS fuel rng newGems (mult + 1)%nat
      (mkState newGems (score st + size (findMatches COLS ROWS l) * 10 * mult)%nat
         (selectedId st) true (isPaused st)) env'.
Proof.
  intros Hne. simpl. case_decide as Hsz; [|done].
  by apply size_empty_inv, leibniz_equiv in Hsz.
Qed.

(** The state in which [processBoard] returns. *)
Lemma processBoard_final fuel l mult st env st' env' :
  gems st = l →
  processBoard COLS ROWS fuel rng l mult st env = Returned (st', env') →
  findMatches COLS ROWS (gems st') = ∅ ∧
  isProcessing st' = false ∧ selectedId st' = selectedId st ∧ isPaused st' = isPaused st ∧
  ∃ k, score st' = (score st + 10 * k)%nat.
Proof.
  revert l mult st env. induction fuel as [|fuel IH]; intros l mult st env Hl; [done|].
  destruct (decide (findMatches COLS ROWS l = ∅)) as [He|Hne].
  - rewrite processBoard_stop by done. intros [= <- <-]. simpl.
    rewrite Hl. split_and!; [done..|]. exists 0%nat. lia.
  - rewrite processBoard_unfold by done.
    destruct (nextLayout COLS ROWS rng l env) as [[l1 e1]| |]; simpl; [|done..].
    intros Hrec. apply IH in Hrec as (Hm & Hp & Hs & Hq & k & Hk); [|done].
    simpl in *. split_and!; [done..|].
    exists (size (findMatches COLS ROWS l) * mult + k)%nat. lia.
Qed.

Lemma processBoard_wellFormed fuel l mult st env st' env' :
  wellFormed COLS l env → gems st = l →
  processBoard COLS ROWS fuel rng l mult st env = Returned (st', env') →
  wellFormed COLS (gems st') env'.
Proof.
  revert l mult st env. induction fuel as [|fuel IH]; intros l mult st env Hwf Hl; [done|].
  destruct (decide (findMatches COLS ROWS l = ∅)) as [He|Hne].
  - rewrite processBoard_stop by done. intros [= <- <-]. simpl. by rewrite Hl.
  - rewrite processBoard_unfold by done.
    destruct (nextLayout COLS ROWS rng l env) as [[l1 e1]| |] eqn:Hn; simpl; [|done..].
    apply IH; [|done]. by eapply nextLayout_wellFormed.
Qed.

Lemma nextLayout_returns l env :
  Forall (λ g, 0 ≤ x g < COLS) l →
  ∃ l1 e1, nextLayout COLS ROWS rng l env = Returned (l1, e1).
Proof.
  intros Hx. unfold nextLayout.
  destruct (applyGravity_spec COLS ROWS rng
              (removeMatched (findMatches COLS ROWS l) l) env)
    as (newGems & env' & _ & Happ & _).
  - apply Forall_forall. intros g Hg. unfold removeMatched in Hg.
    apply list_elem_of_filter in Hg as [_ Hg].
    rewrite Forall_forall in Hx. by apply Hx.
  - by exists newGems, env'.
Qed.

Lemma processBoard_no_throw fuel l mult st env :
  wellFormed COLS l env → processBoard COLS ROWS fuel rng l mult st env ≠ Threw.
Proof.
  revert l mult st env. induction fuel as [|fuel IH]; intros l mult st env Hwf; [done|].
  destruct (decide (findMatches COLS ROWS l = ∅)) as [He|Hne].
  - by rewrite processBoard_stop.
  - rewrite processBoard_unfold by done.
    destruct (nextLayout_returns l env) as (l1 & e1 & Hn); [apply Hwf|].
    rewrite Hn. simpl. apply IH. by eapply nextLayout_wellFormed.
Qed.

Lemma handleSwap_session fuel id1 id2 st env st' env' :
  wellFormed COLS (gems st) env → findMatches COLS ROWS (gems st) = ∅ →
  handleSwap COLS ROWS fuel rng id1 id2 st env = Returned (st', env') →
  wellFormed COLS (gems st') env' ∧ findMatches COLS ROWS (gems st') = ∅ ∧
  isProcessing st' = false ∧ selectedId st' = None ∧ isPaused st' = isPaused st ∧
  ∃ k, score st' = (score st + 10 * k)%nat.
Proof.
  intros Hwf Hm. unfold handleSwap.
  destruct (swapLayout id1 id2 (gems st)) as [nextGems| |] eqn:Hs; simpl; [|done..].
  case_decide.
  - intros Hp. split.
    + refine (processBoard_wellFormed _ _ _ _ _ _ _ _ _ Hp); [|done].
      by eapply swapLayout_wellFormed.
    + apply processBoard_final in Hp; [|done]. simpl in Hp. naive_solver.
  - intros [= <- <-]. simpl. split_and!; [done..|]. exists 0%nat. lia.
Qed.

Lemma handleClick_session fuel i st env st' env' :
  wellFormed COLS (gems st) env → findMatches COLS ROWS (gems st) = ∅ →
  handleClick COLS ROWS fuel rng i st env = Returned (st', env') →
  wellFormed COLS (gems st') env' ∧ findMatches COLS ROWS (gems st') = ∅ ∧
  isPaused st' = isPaused st ∧ ∃ k, score st' = (score st + 10 * k)%nat.
Proof.
  intros Hwf Hm. unfold handleClick.
  assert (∀ s, Returned (setSelectedId s st, env) = Returned (st', env') →
            wellFormed COLS (gems st') env' ∧ findMatches COLS ROWS (gems st') = ∅ ∧
            isPaused st' = isPaused st ∧ ∃ k, score st' = (score st + 10 * k)%nat) as Hsel.
  { intros s [= <- <-]. simpl. split_and!; [done..|]. exists 0%nat. lia. }
  assert (Returned (st, env) = Returned (st', env') →
            wellFormed COLS (gems st') env' ∧ findMatches COLS ROWS (gems st') = ∅ ∧
            isPaused st' = isPaused st ∧ ∃ k, score st' = (score st + 10 * k)%nat) as Hsame.
  { intros [= <- <-]. split_and!; [done..|]. exists 0%nat. lia. }
  destruct (isProcessing st || isPaused st); [done|].
  destruct (selectedId st) as [sel|]; [|by apply Hsel].
  case_decide; [by apply Hsel|].
  destruct (findById sel (gems st)) as [g1|]; [|done].
  destruct (findById i (gems st)) as [g2|]; [|done].
  case_decide; [|by apply Hsel].
  intros Hs. apply handleSwap_session in Hs; [|done..]. naive_solver.
Qed.

Lemma handleSwap_no_throw fuel id1 id2 st env :
  wellFormed COLS (gems st) env →
  is_Some (findById id1 (gems st)) → is_Some (findById id2 (gems st)) →
  handleSwap COLS ROWS fuel rng id1 id2 st env ≠ Threw.
Proof.
  intros Hwf [g1 H1] [g2 H2]. unfold handleSwap.
  pose proof (swapLayout_wellFormed COLS id1 id2 (gems st)) as Hsw.
  unfold swapLayout in *. rewrite H1, H2 in *. simpl.
  case_decide; [|done]. apply processBoard_no_throw. by eapply Hsw.
Qed.

Lemma handleClick_no_throw fuel i st env :
  wellFormed COLS (gems st) env → handleClick COLS ROWS fuel rng i st env ≠ Threw.
Proof.
  intros Hwf. unfold handleClick.
  destruct (isProcessing st || isPaused st); [done|].
  destruct (selectedId st) as [sel|]; [|done].
  case_decide; [done|].
  destruct (findById sel (gems st)) as [g1|] eqn:E1; [|done].
  destruct (findById i (gems st)) as [g2|] eqn:E2; [|done].
  case_decide; [|done].
  apply handleSwap_no_throw; [done|by rewrite E1|by rewrite E2].
Qed.

End Session.

(** ** The swap of two gems *)

Section Swap.
Local Open Scope Z_scope.
Variables COLS ROWS : Z.

Lemma gem_eta g : mkGem (id g) (x g) (y g) (type g) (isMatch g) (isNew g) = g.
Proof. by destruct g. Qed.

Lemma findById_cons i g (l : list Gem) :
  findById i (g :: l) = if decide (id g = i) then Some g else findById i l.
Proof.
  unfold findById. simpl. case_decide; [done|].
  by destruct (list_find _ l) as [[k h]|].
Qed.

Lemma findById_None i (l : list Gem) : findById i l = None ↔ ∀ g, g ∈ l → id g ≠ i.
Proof. unfold findById. by rewrite fmap_None, list_find_None, Forall_forall. Qed.

Lemma findById_NoDup i (l : list Gem) g :
  NoDup (id <$> l) → g ∈ l → id g = i → findById i l = Some g.
Proof.
  intros Hnd Hg Hi. destruct (findById i l) as [h|] eqn:E.
  - apply findById_Some in E as [Hh Hhi]. f_equal.
    apply (NoDup_id_inj l); [done..|congruence].
  - rewrite findById_None in E. by destruct (E g Hg).
Qed.

Lemma findById_fmap (h : Gem → Gem) i (l : list Gem) :
  (∀ g, id (h g) = id g) → findById i (h <$> l) = h <$> findById i l.
Proof.
  intros Hid. induction l as [|g l IH]; [done|].
  rewrite fmap_cons, !findById_cons, Hid. by case_decide.
Qed.

Lemma swapCoords_id id1 id2 g1 g2 g : id (swapCoords id1 id2 g1 g2 g) = id g.
Proof. unfold swapCoords. by repeat case_decide. Qed.

(** The swap undoes itself. *)
Lemma swapLayout_twice id1 id2 (l l' : list Gem) :
  NoDup (id <$> l) → swapLayout id1 id2 l = Returned l' →
  swapLayout id1 id2 l' = Returned l.
Proof.
  intros Hnd. unfold swapLayout.
  destruct (findById id1 l) as [g1|] eqn:E1, (findById id2 l) as [g2|] eqn:E2;
    intros [= <-]; [|by rewrite E1, E2].
  rewrite !findById_fmap, E1, E2 by apply swapCoords_id. simpl. f_equal.
  rewrite <- list_fmap_compose. rewrite <- (list_fmap_id l) at 2.
  apply list_fmap_ext. intros j g Hj%list_elem_of_lookup_2. simpl.
  apply findById_Some in E1 as [I1 J1]. apply findById_Some in E2 as [I2 J2].
  pose proof (NoDup_id_inj l) as Hinj.
  unfold swapCoords. subst id1 id2.
  repeat (case_decide; simpl in * );
    repeat match goal with
           | H : id ?a = id ?b |- _ =>
               assert (a = b) by (by apply Hinj); clear H; subst
           end;
    try apply gem_eta; congruence.
Qed.

Lemma fullBoard_cells (l : list Gem) :
  fullBoard COLS ROWS l ↔
  (∀ cx cy, 0 ≤ cx < COLS → 0 ≤ cy < ROWS → cellCount cx cy l = 1%nat) ∧
  (∀ g, g ∈ l → 0 ≤ x g < COLS ∧ 0 ≤ y g < ROWS).
Proof.
  unfold fullBoard. rewrite !Forall_forall. split; intros [Hc Hin]; (split; [|done]).
  - intros cx cy Hx Hy. specialize (Hc cy). rewrite elem_of_seqZ, Forall_forall in Hc.
    apply Hc; [lia|]. apply elem_of_seqZ. lia.
  - intros cy Hy%elem_of_seqZ. apply Forall_forall. intros cx Hx%elem_of_seqZ.
    apply Hc; lia.
Qed.

Lemma length_one_unique {A} (l : list A) a b :
  length l = 1%nat → a ∈ l → b ∈ l → a = b.
Proof.
  destruct l as [|c [|d l]]; simpl; try done. intros _.
  rewrite !list_elem_of_singleton. congruence.
Qed.

(** On a full layout no cell holds two gems. *)
Lemma fullBoard_unique (l : list Gem) g h :
  fullBoard COLS ROWS l → g ∈ l → h ∈ l → x g = x h → y g = y h → g = h.
Proof.
  intros [Hc Hin]%fullBoard_cells Hg Hh Hx Hy.
  destruct (Hin g Hg) as [Hgx Hgy].
  apply (length_one_unique (filter (λ k, x k = x g ∧ y k = y g) l)).
  - by apply Hc.
  - by apply list_elem_of_filter.
  - by apply list_elem_of_filter.
Qed.

Lemma getGemAt_full (l : list Gem) g :
  fullBoard COLS ROWS l → g ∈ l → getGemAt (x g) (y g) l = Some g.
Proof.
  intros Hfull Hg.
  destruct (getGemAt_is_Some (x g) (y g) l g) as [h Hh]; [done..|].
  rewrite Hh. f_equal.
  apply getGemAt_Some in Hh as (Hhl & Hx & Hy).
  by apply (fullBoard_unique l).
Qed.

Lemma filter_length_ext_in {A} (P Q : A → Prop) `{∀ a, Decision (P a)}
    `{∀ a, Decision (Q a)} (l : list A) :
  (∀ a, a ∈ l → P a ↔ Q a) → length (filter P l) = length (filter Q l).
Proof.
  induction l as [|a l IH]; intros Hpq; [done|].
  rewrite !filter_cons.
  assert (length (filter P l) = length (filter Q l)) as Hl.
  { apply IH. intros b Hb. apply Hpq. by right. }
  destruct (Hpq a) as [H1 H2]; [left|].
  repeat case_decide; simpl; try lia; tauto.
Qed.

Lemma filter_fmap_length {A B} (f : A → B) (P : B → Prop) `{∀ b, Decision (P b)}
    (l : list A) :
  length (filter P (f <$> l)) = length (filter (λ a, P (f a)) l).
Proof.
  induction l as [|a l IH]; [done|].
  rewrite fmap_cons, !filter_cons. case_decide; simpl; by rewrite IH.
Qed.

(** The swap of two gems of a full layout gives a full layout. *)
Lemma swapLayout_full id1 id2 (l l' : list Gem) :
  fullBoard COLS ROWS l → NoDup (id <$> l) →
  swapLayout id1 id2 l = Returned l' → fullBoard COLS ROWS l'.
Proof.
  intros Hfull Hnd. unfold swapLayout.
  destruct (findById id1 l) as [g1|] eqn:E1, (findById id2 l) as [g2|] eqn:E2;
    intros [= <-]; [|done].
  apply findById_Some in E1 as [I1 J1]. apply findById_Some in E2 as [I2 J2].
  pose proof Hfull as [Hc Hin]%fullBoard_cells.
  destruct (Hin g1 I1) as [X1 Y1]. destruct (Hin g2 I2) as [X2 Y2].
  apply fullBoard_cells. split.
  - intros cx cy Hx Hy. unfold cellCount.
    rewrite filter_fmap_length.
    set (tx := if decide (cx = x g1 ∧ cy = y g1) then x g2
               else if decide (cx = x g2 ∧ cy = y g2) then x g1 else cx).
    set (ty := if decide (cx = x g1 ∧ cy = y g1) then y g2
               else if decide (cx = x g2 ∧ cy = y g2) then y g1 else cy).
    rewrite (filter_length_ext_in _ (λ g, x g = tx ∧ y g = ty)).
    { apply Hc; unfold tx, ty; repeat case_decide; lia. }
    intros g Hg. simpl.
    destruct (decide (id g = id1)) as [D1|D1].
    { assert (g = g1) as -> by (apply (NoDup_id_inj l); [done..|congruence]).
      unfold swapCoords. rewrite decide_True by done. simpl.
      unfold tx, ty. repeat case_decide; lia. }
    destruct (decide (id g = id2)) as [D2|D2].
    { assert (g = g2) as -> by (apply (NoDup_id_inj l); [done..|congruence]).
      unfold swapCoords. rewrite decide_False, decide_True by done. simpl.
      unfold tx, ty. repeat case_decide; lia. }
    assert (¬ (x g = x g1 ∧ y g = y g1)) as U1.
    { intros [? ?]. apply D1. by rewrite (fullBoard_unique l g g1). }
    assert (¬ (x g = x g2 ∧ y g = y g2)) as U2.
    { intros [? ?]. apply D2. by rewrite (fullBoard_unique l g g2). }
    unfold swapCoords. rewrite !decide_False by done.
    unfold tx, ty. repeat case_decide; lia.
  - intros h (g & -> & Hg)%list_elem_of_fmap. destruct (Hin g Hg).
    unfold swapCoords. repeat case_decide; simpl; lia.
Qed.

End Swap.

Section SwapCells.
Local Open Scope Z_scope.
Variables COLS ROWS : Z.

(** After the swap the cell of the first gem holds the second gem and the
    cell of the second holds the first; every other cell is as before. *)
Lemma swapLayout_cells id1 id2 g1 g2 (l l' : list Gem) :
  fullBoard COLS ROWS l → NoDup (id <$> l) →
  findById id1 l = Some g1 → findById id2 l = Some g2 →
  swapLayout id1 id2 l = Returned l' →
  getGemAt (x g1) (y g1) l' =
    Some (mkGem (id g2) (x g1) (y g1) (type g2) (isMatch g2) (isNew g2)) ∧
  getGemAt (x g2) (y g2) l' =
    Some (mkGem (id g1) (x g2) (y g2) (type g1) (isMatch g1) (isNew g1)) ∧
  ∀ cx cy, (cx, cy) ≠ (x g1, y g1) → (cx, cy) ≠ (x g2, y g2) →
    getGemAt cx cy l' = getGemAt cx cy l.
Proof.
  intros Hfull Hnd E1 E2 Hs.
  pose proof (swapLayout_full COLS ROWS _ _ _ _ Hfull Hnd Hs) as Hfull'.
  unfold swapLayout in Hs. rewrite E1, E2 in Hs. injection Hs as <-.
  apply findById_Some in E1 as [I1 J1]. apply findById_Some in E2 as [I2 J2].
  pose proof (λ a b, NoDup_id_inj l a b Hnd) as Hinj.
  set (sw := swapCoords id1 id2 g1 g2) in *.
  assert (sw g1 = mkGem (id g1) (x g2) (y g2) (type g1) (isMatch g1) (isNew g1)) as S1.
  { unfold sw, swapCoords. by rewrite decide_True. }
  assert (sw g2 = mkGem (id g2) (x g1) (y g1) (type g2) (isMatch g2) (isNew g2)) as S2.
  { unfold sw, swapCoords. case_decide as Hd; [|by rewrite decide_True].
    assert (g2 = g1) as -> by (apply Hinj; [done..|congruence]). done. }
  split_and!.
  - rewrite <- S2.
    replace (x g1) with (x (sw g2)) at 1 by (by rewrite S2).
    replace (y g1) with (y (sw g2)) at 1 by (by rewrite S2).
    apply (getGemAt_full COLS ROWS); [done|]. by apply list_elem_of_fmap_2.
  - rewrite <- S1.
    replace (x g2) with (x (sw g1)) at 1 by (by rewrite S1).
    replace (y g2) with (y (sw g1)) at 1 by (by rewrite S1).
    apply (getGemAt_full COLS ROWS); [done|]. by apply list_elem_of_fmap_2.
  - intros cx cy N1 N2.
    assert (∀ g, g ∈ l → x g = cx → y g = cy → sw g = g) as Hsame.
    { intros g Hg Hx Hy. unfold sw, swapCoords.
      case_decide as D1.
      { assert (g = g1) as -> by (apply Hinj; [done..|congruence]). congruence. }
      case_decide as D2; [|done].
      assert (g = g2) as -> by (apply Hinj; [done..|congruence]). congruence. }
    destruct (getGemAt cx cy l) as [g|] eqn:E.
    + apply getGemAt_Some in E as (Hg & Hx & Hy).
      rewrite <- (Hsame g Hg Hx Hy).
      replace cx with (x (sw g)) by (by rewrite Hsame).
      replace cy with (y (sw g)) by (by rewrite Hsame).
      apply (getGemAt_full COLS ROWS); [done|]. by apply list_elem_of_fmap_2.
    + rewrite getGemAt_None in E. apply getGemAt_None.
      intros h (g & -> & Hg)%list_elem_of_fmap [Hx Hy].
      unfold sw, swapCoords in Hx, Hy.
      repeat case_decide; simpl in *; try congruence. by apply (E g Hg).
Qed.

End SwapCells.

(** ** The layout of [initGame] and a reset *)

Section Reset.
Local Open Scope Z_scope.
Variables COLS ROWS : Z.

(** The ids of the gems of [initGame] are the next values of
    [gemIdCounter], in the order of the array. *)
Lemma initGame_ids fuel rng st env st' env' :
  initGame COLS ROWS fuel rng st env = Returned (st', env') →
  id <$> gems st' = seq (gemIdCounter env) (length (gems st')) ∧
  gemIdCounter env' = (gemIdCounter env + length (gems st'))%nat ∧
  score st' = 0%nat ∧ isProcessing st' = false ∧
  selectedId st' = selectedId st ∧ isPaused st' = isPaused st.
Proof.
  unfold initGame.
  destruct (foldM _ _ (seqZ 0 ROWS)) as [[newGems env1]| |] eqn:Hf; simpl; try done.
  intros [= <- <-]. simpl.
  set (inv := λ a : list Gem * Env,
         id <$> a.1 = seq (gemIdCounter env) (length a.1) ∧
         gemIdCounter a.2 = (gemIdCounter env + length a.1)%nat).
  assert (inv (newGems, env1)) as [Hids Hc]; [|done].
  apply (foldM_ind _ (λ _, inv)) in Hf; [done|done|].
  intros i a gy a' _ Ha Hrow.
  apply (foldM_ind _ (λ _, inv)) in Hrow; [done|done|].
  clear. intros _ [l e] gx [l' e'] _ [Hids Hc]. unfold placeGem. simpl in *.
  destruct (redraw COLS fuel rng l gx gy _ _) as [[t' e2]| |] eqn:Hr; simpl; try done.
  apply redraw_counter in Hr. simpl in Hr.
  intros [= <- <-]. unfold inv. simpl.
  rewrite fmap_app, length_app, Hids, Hr, Hc. simpl.
  split; [|lia]. by rewrite seq_app.
Qed.

Lemma initGame_index fuel rng st env st' env' (j : nat) g :
  initGame COLS ROWS fuel rng st env = Returned (st', env') →
  gems st' !! j = Some g →
  id g = (gemIdCounter env + j)%nat ∧
  x g = Z.of_nat j `mod` COLS ∧ y g = Z.of_nat j / COLS.
Proof.
  intros Hinit Hj.
  pose proof (initGame_ids _ _ _ _ _ _ Hinit) as (Hids & _).
  pose proof (initGame_placed _ _ _ _ _ _ _ _ Hinit) as [Hpl _].
  destruct (Hpl j g Hj) as (Hx & Hy & _). split; [|done].
  assert ((id <$> gems st') !! j = Some (id g)) as Hi by (by rewrite list_lookup_fmap, Hj).
  rewrite Hids in Hi. apply lookup_seq in Hi. lia.
Qed.

(** After [initGame] the gem that was selected before is not on the
    board, and a click on any gem of the board does nothing. *)
Lemma initGame_stale_selection fuel rng st env st' env' sel :
  initGame COLS ROWS fuel rng st env = Returned (st', env') →
  selectedId st = Some sel → (sel < gemIdCounter env)%nat →
  selectedId st' = Some sel ∧ findById sel (gems st') = None ∧
  ∀ fuel' rng' g, g ∈ gems st' →
    handleClick COLS ROWS fuel' rng' (id g) st' env' = Returned (st', env').
Proof.
  intros Hinit Hsel Hold.
  pose proof (initGame_ids _ _ _ _ _ _ Hinit) as (Hids & _ & _ & Hproc & Hs & _).
  assert (∀ g, g ∈ gems st' → (gemIdCounter env ≤ id g)%nat) as Hfresh.
  { intros g Hg. assert (id g ∈ id <$> gems st') as Hi by (by apply list_elem_of_fmap_2).
    rewrite Hids in Hi. apply elem_of_seq in Hi. lia. }
  assert (findById sel (gems st') = None) as Hnone.
  { apply findById_None. intros g Hg%Hfresh. lia. }
  split_and!; [congruence|done|].
  intros fuel' rng' g Hg. unfold handleClick.
  destruct (isProcessing st' || isPaused st'); [done|].
  rewrite Hs, Hsel. rewrite decide_False by (apply Hfresh in Hg; lia).
  by rewrite Hnone.
Qed.

End Reset.

(** ** The columns after a round *)

Section Counts.
Local Open Scope Z_scope.
Variables COLS ROWS : Z.
Variable rng : nat → Kind.

Lemma filter_all {A} (P : A → Prop) `{∀ a, Decision (P a)} (l : list A) :
  (∀ a, a ∈ l → P a) → filter P l = l.
Proof.
  induction l as [|a l IH]; intros Hall; [done|].
  rewrite filter_cons, decide_True by (apply Hall; left).
  f_equal. apply IH. intros b Hb. apply Hall. by right.
Qed.

Lemma sum_list_with_at {A} `{EqDecision A} (f : A → nat) (l : list A) a :
  NoDup l → a ∈ l → sum_list_with (λ b, if decide (b = a) then f b else 0%nat) l = f a.
Proof.
  induction l as [|b l IH]; intros Hnd Ha; [by apply elem_of_nil in Ha|].
  apply NoDup_cons in Hnd as [Hb Hnd]. simpl. case_decide as Hd.
  - subst b. rewrite (sum_list_with_ext_in _ (λ _, 0%nat)).
    + clear. induction l as [|? ? IHl]; simpl; lia.
    + intros c Hc. case_decide; [by subst|done].
  - apply elem_of_cons in Ha as [->|Ha]; [done|]. by rewrite IH.
Qed.

Lemma rebuild_count (cols : list (list Gem)) (cs : list Z) (acc : list Gem) env res env' c0 :
  (∀ c col g, c ∈ cs → cols !! Z.to_nat c = Some col → g ∈ col → x g = c) →
  foldM (rebuildColumn ROWS rng cols) (acc, env) cs = Returned (res, env') →
  length (filter (λ g, x g = c0) res) =
    (length (filter (λ g, x g = c0) acc) +
     sum_list_with
       (λ c, if decide (c = c0)
             then Z.to_nat (ROWS - Z.of_nat (length (default [] (cols !! Z.to_nat c)))) +
                  length (default [] (cols !! Z.to_nat c))
             else 0) cs)%nat.
Proof.
  revert acc env. induction cs as [|c cs IH]; intros acc env Hcols; simpl.
  - intros [= <- <-]. lia.
  - destruct (cols !! Z.to_nat c) as [col|] eqn:Hcol; simpl; [|done].
    destruct (refill rng c _ _ env) as [fresh env1] eqn:Hr. simpl.
    apply refill_spec in Hr as (_ & _ & Hlen & Hfresh).
    intros Hrest. apply IH in Hrest; [|intros c' col' g Hc'; apply Hcols; by right].
    rewrite Hrest, !filter_app, !length_app.
    rewrite length_seqZ, sortByY_length in Hlen.
    assert (∀ g, g ∈ imap (settle (ROWS - Z.of_nat (length (sortByY col)))) (sortByY col) →
                 x g = c) as Hsettled.
    { intros g (i & g0 & -> & Hi)%elem_of_lookup_imap. simpl.
      apply list_elem_of_lookup_2 in Hi. rewrite sortByY_Permutation in Hi.
      apply (Hcols c col); [by left|done..]. }
    case_decide as Hd.
    + subst c0.
      rewrite (filter_all _ fresh) by (intros g Hg; by apply Hfresh).
      rewrite (filter_all _ (imap _ _)) by done.
      rewrite length_imap, sortByY_length, Hlen. lia.
    + rewrite (filter_none _ fresh)
        by (intros g Hg%Hfresh; destruct Hg as [? _]; congruence).
      rewrite (filter_none _ (imap _ _)) by (intros g Hg%Hsettled; congruence).
      simpl. lia.
Qed.

(** After the gravity step a column of the board holds [ROWS] gems, or as
    many as it held before when these were more. *)
Lemma applyGravity_count (remaining : list Gem) env newGems env' c0 :
  Forall (λ g, 0 ≤ x g < COLS) remaining →
  applyGravity COLS ROWS rng remaining env = Returned (newGems, env') →
  0 ≤ c0 < COLS →
  Z.of_nat (length (filter (λ g, x g = c0) newGems)) =
    Z.max ROWS (Z.of_nat (length (filter (λ g, x g = c0) remaining))).
Proof.
  intros Hall. unfold applyGravity.
  destruct (pushAll_spec (replicate (Z.to_nat COLS) []) remaining)
    as (cols & -> & Hlen & Hcols).
  { rewrite length_replicate. eapply Forall_impl; [exact Hall|]. simpl. intros; lia. }
  simpl. intros Hf Hc0.
  assert (∀ c, 0 ≤ c < COLS →
            cols !! Z.to_nat c = Some (filter (λ g, x g = c) remaining)) as Hcol.
  { intros c Hc. rewrite (Hcols (Z.to_nat c) []) by (apply lookup_replicate_2; lia).
    simpl. f_equal. apply list_filter_iff. intros g. lia. }
  apply (rebuild_count _ _ _ _ _ _ c0) in Hf.
  - rewrite Hf. simpl.
    rewrite (sum_list_with_at
               (λ c, Z.to_nat (ROWS - Z.of_nat (length (default [] (cols !! Z.to_nat c)))) +
                     length (default [] (cols !! Z.to_nat c)))%nat).
    + rewrite Hcol by done. simpl. lia.
    + apply NoDup_seqZ.
    + apply elem_of_seqZ. lia.
  - intros c col g Hc%elem_of_seqZ Hcs Hg. rewrite Hcol in Hcs by lia.
    injection Hcs as <-. by apply list_elem_of_filter in Hg as [? _].
Qed.

Local Abbreviation columnsWithin := (columnsWithin COLS ROWS).

Lemma fullBoard_columnsWithin (l : list Gem) : fullBoard COLS ROWS l → columnsWithin l.
Proof.
  intros Hfull. pose proof Hfull as [_ Hin]. split.
  - eapply Forall_impl; [exact Hin|]. simpl. tauto.
  - apply Forall_forall. intros c Hc%elem_of_seqZ.
    rewrite (full_column_count COLS ROWS l c Hfull) by lia. done.
Qed.

(** A round on a layout with a match: the layout that it passes on has its
    columns within the board again, and an empty cell in the top row. *)
Lemma round_leaves_gap (l : list Gem) env newGems env' :
  columnsWithin l → findMatches COLS ROWS l ≠ ∅ →
  nextLayout COLS ROWS rng l env = Returned (newGems, env') →
  columnsWithin newGems ∧
  ∃ c, 0 ≤ c < COLS ∧ 0 < ROWS ∧ getGemAt c 0 newGems = None.
Proof.
  intros [Hin Hcnt] Hne Hnext. rewrite Forall_forall in Hcnt.
  set (remaining := removeMatched (findMatches COLS ROWS l) l) in *.
  assert (Forall (λ g, 0 ≤ x g < COLS) remaining) as Hrem.
  { apply Forall_forall. intros h Hh.
    unfold remaining, removeMatched in Hh. apply list_elem_of_filter in Hh as [_ Hh].
    rewrite Forall_forall in Hin. by apply Hin. }
  assert (∀ c, length (filter (λ h, x h = c) remaining) ≤
               length (filter (λ h, x h = c) l))%nat as Hle.
  { intros c. unfold remaining, removeMatched.
    rewrite list_filter_filter.
    rewrite (list_filter_iff _ (λ h, (id h ∉ findMatches COLS ROWS l) ∧ x h = c))
      by (intros h; tauto).
    rewrite <- list_filter_filter. apply sublist_length, sublist_filter. }
  unfold nextLayout in Hnext. fold remaining in Hnext.
  split.
  - split.
    + destruct (applyGravity_spec COLS ROWS rng remaining env Hrem)
        as (ng & e & fresh & Happ & Hfresh & Hnew).
      rewrite Hnext in Happ. injection Happ as <- <-.
      apply Forall_forall. intros g [Hf|(c & i & g0 & Hc & Hi & ->)]%Hnew.
      * by destruct (Hfresh g Hf) as (? & _).
      * simpl. apply list_elem_of_lookup_2 in Hi. rewrite sortByY_Permutation in Hi.
        apply list_elem_of_filter in Hi as [-> _]. done.
    + apply Forall_forall. intros c Hc%elem_of_seqZ.
      pose proof (applyGravity_count _ _ _ _ c Hrem Hnext ltac:(lia)) as Hcount.
      specialize (Hcnt c). rewrite elem_of_seqZ in Hcnt.
      specialize (Hcnt ltac:(lia)). specialize (Hle c). lia.
  - apply set_choose_L in Hne as [i Hi].
    destruct (findMatches_on_board COLS ROWS l i Hi) as (g & Hg & Hid & Hx & Hy).
    destruct (applyGravity_spec COLS ROWS rng remaining env Hrem)
      as (ng & e & fresh & Happ & Hfresh & Hnew).
    rewrite Hnext in Happ. injection Happ as <- <-.
    assert (length (filter (λ h, x h = x g) remaining) <
            length (filter (λ h, x h = x g) l))%nat as Hk.
    { unfold remaining, removeMatched. rewrite list_filter_filter.
      rewrite (filter_split_length (λ h, id h ∉ findMatches COLS ROWS l)
                 (filter (λ h, x h = x g) l)).
      rewrite list_filter_filter.
      assert (0 < length (filter (λ h, ¬ (id h ∉ findMatches COLS ROWS l))
                            (filter (λ h, x h = x g) l)))%nat.
      { destruct (filter _ (filter _ l)) as [|? ?] eqn:E; [|simpl; lia].
        exfalso. eapply (filter_nil_not_elem_of _ _ g E).
        - intros Hn. apply Hn. by rewrite Hid.
        - by apply list_elem_of_filter. }
      assert (length (filter (λ h, x h = x g ∧ (id h ∉ findMatches COLS ROWS l)) l) =
              length (filter (λ h, (id h ∉ findMatches COLS ROWS l) ∧ x h = x g) l)) as ->.
      { f_equal. apply list_filter_iff. intros h. tauto. }
      lia. }
    specialize (Hcnt (x g)). rewrite elem_of_seqZ in Hcnt. specialize (Hcnt ltac:(lia)).
    exists (x g). split_and!; [lia..|].
    apply getGemAt_None. intros h Hh [Hhx Hhy].
    apply Hnew in Hh as [Hf|(c & j & g0 & _ & Hj & ->)].
    + destruct (Hfresh h Hf) as (_ & ? & _). lia.
    + simpl in *.
      assert (x g0 = c) as Hg0.
      { apply list_elem_of_lookup_2 in Hj. rewrite sortByY_Permutation in Hj.
        by apply list_elem_of_filter in Hj as [? _]. }
      subst c. rewrite Hhx in Hhy. lia.
Qed.

(** Once a round has found matches, the cascade cannot end on a full
    layout. *)
Lemma processBoard_ends_with_gap fuel (l : list Gem) mult st env st' env' :
  columnsWithin l → findMatches COLS ROWS l ≠ ∅ →
  processBoard COLS ROWS fuel rng l mult st env = Returned (st', env') →
  ∃ c, 0 ≤ c < COLS ∧ 0 < ROWS ∧ getGemAt c 0 (gems st') = None.
Proof.
  revert l mult st env. induction fuel as [|fuel IH]; intros l mult st env Hcw Hne; [done|].
  rewrite processBoard_unfold by done.
  destruct (nextLayout COLS ROWS rng l env) as [[l1 e1]| |] eqn:Hn; simpl; [|done..].
  destruct (round_leaves_gap l env l1 e1 Hcw Hne Hn) as [Hcw1 Hgap].
  destruct (decide (findMatches COLS ROWS l1 = ∅)) as [He|Hne1].
  - destruct fuel as [|fuel]; [done|].
    rewrite processBoard_stop by done. by intros [= <- <-].
  - by apply IH.
Qed.

End Counts.

(** ** What a click can change *)

Section Clicks.
Local Open Scope Z_scope.
Variables COLS ROWS : Z.
Variable rng : nat → Kind.

Lemma handleSwap_changes fuel id1 id2 st env st' env' :
  handleSwap COLS ROWS fuel rng id1 id2 st env = Returned (st', env') →
  (gems st' = gems st ∧ score st' = score st ∧ env' = env) ∨
  ∃ nextGems, swapLayout id1 id2 (gems st) = Returned nextGems ∧
              findMatches COLS ROWS nextGems ≠ ∅.
Proof.
  unfold handleSwap.
  destruct (swapLayout id1 id2 (gems st)) as [nextGems| |]; simpl; [|done..].
  case_decide as Hsz.
  - intros _. right. exists nextGems. split; [done|].
    intros He. rewrite He, size_empty in Hsz. lia.
  - intros [= <- <-]. by left.
Qed.

Lemma handleClick_changes fuel i st env st' env' :
  handleClick COLS ROWS fuel rng i st env = Returned (st', env') →
  (gems st' = gems st ∧ score st' = score st ∧ env' = env) ∨
  (isProcessing st = false ∧ isPaused st = false ∧
   ∃ sel g1 g2 nextGems,
     selectedId st = Some sel ∧ sel ≠ i ∧
     findById sel (gems st) = Some g1 ∧ findById i (gems st) = Some g2 ∧
     Z.abs (x g1 - x g2) + Z.abs (y g1 - y g2) = 1 ∧
     swapLayout sel i (gems st) = Returned nextGems ∧
     findMatches COLS ROWS nextGems ≠ ∅).
Proof.
  unfold handleClick.
  destruct (isProcessing st) eqn:Hp; simpl; [intros [= <- <-]; by left|].
  destruct (isPaused st) eqn:Hq; simpl; [intros [= <- <-]; by left|].
  destruct (selectedId st) as [sel|] eqn:Hs; [|intros [= <- <-]; by left].
  case_decide as Hne; [intros [= <- <-]; by left|].
  destruct (findById sel (gems st)) as [g1|] eqn:E1; [|intros [= <- <-]; by left].
  destruct (findById i (gems st)) as [g2|] eqn:E2; [|intros [= <- <-]; by left].
  case_decide as Hadj; [|intros [= <- <-]; by left].
  intros [Hsame|(nextGems & Hsw & Hm)]%handleSwap_changes; [by left|right].
  split_and!; [done..|]. by exists sel, g1, g2, nextGems.
Qed.

Lemma handleSwap_score_step fuel id1 id2 st env st' env' :
  handleSwap COLS ROWS fuel rng id1 id2 st env = Returned (st', env') →
  ∃ k, score st' = (score st + 10 * k)%nat.
Proof.
  unfold handleSwap.
  destruct (swapLayout id1 id2 (gems st)) as [nextGems| |]; simpl; [|done..].
  case_decide.
  - intros Hp. apply processBoard_final in Hp; [|done]. simpl in Hp. naive_solver.
  - intros [= <- <-]. exists 0%nat. simpl. lia.
Qed.

Lemma handleClick_score_step fuel i st env st' env' :
  handleClick COLS ROWS fuel rng i st env = Returned (st', env') →
  ∃ k, score st' = (score st + 10 * k)%nat.
Proof.
  intros Hc. destruct (handleClick_changes _ _ _ _ _ _ Hc) as [(_ & Hs & _)|Hsw].
  - exists 0%nat. lia.
  - destruct Hsw as (Hp & Hq & sel & g1 & g2 & nextGems & Hs & Hne & E1 & E2 & Hadj & _).
    unfold handleClick in Hc. rewrite Hp, Hq, Hs, E1, E2 in Hc. simpl in Hc.
    rewrite decide_False, decide_True in Hc by done.
    by eapply handleSwap_score_step.
Qed.

(** The ids after a round. *)
Lemma nextLayout_ids (l : list Gem) env newGems env' :
  wellFormed COLS l env →
  nextLayout COLS ROWS rng l env = Returned (newGems, env') →
  wellFormed COLS newGems env' ∧
  (gemIdCounter env ≤ gemIdCounter env')%nat ∧
  id <$> newGems ≡ₚ
    seq (gemIdCounter env) (gemIdCounter env' - gemIdCounter env) ++
    (id <$> removeMatched (findMatches COLS ROWS l) l).
Proof.
  intros Hwf Hn. split; [by eapply nextLayout_wellFormed|].
  apply (applyGravity_ids COLS ROWS rng); [|done].
  destruct Hwf as (_ & _ & Hx). apply Forall_forall. intros g Hg.
  unfold removeMatched in Hg. apply list_elem_of_filter in Hg as [_ Hg].
  rewrite Forall_forall in Hx. by apply Hx.
Qed.

Lemma nextLayout_count (l : list Gem) env newGems env' c :
  Forall (λ g, 0 ≤ x g < COLS) l →
  nextLayout COLS ROWS rng l env = Returned (newGems, env') →
  0 ≤ c < COLS →
  Z.of_nat (length (filter (λ g, x g = c) newGems)) =
    Z.max ROWS (Z.of_nat (length (filter (λ g, x g = c)
                                    (removeMatched (findMatches COLS ROWS l) l)))).
Proof.
  intros Hx Hn Hc. apply (applyGravity_count COLS ROWS rng _ env _ env'); [|done..].
  apply Forall_forall. intros g Hg.
  unfold removeMatched in Hg. apply list_elem_of_filter in Hg as [_ Hg].
  rewrite Forall_forall in Hx. by apply Hx.
Qed.

Lemma gap_not_full (l : list Gem) c :
  0 ≤ c < COLS → 0 < ROWS → getGemAt c 0 l = None → ¬ fullBoard COLS ROWS l.
Proof.
  intros Hc Hr Hgap [Hcells _]%fullBoard_cells.
  specialize (Hcells c 0 Hc ltac:(lia)). unfold cellCount in Hcells.
  rewrite filter_none in Hcells; [done|].
  intros h Hh Hpos. rewrite getGemAt_None in Hgap. by apply (Hgap h).
Qed.

Lemma handleClick_outcome fuel i st env :
  wellFormed COLS (gems st) env →
  handleClick COLS ROWS fuel rng i st env = OutOfFuel ∨
  ∃ res, handleClick COLS ROWS fuel rng i st env = Returned res.
Proof.
  intros Hwf. pose proof (handleClick_no_throw COLS ROWS rng fuel i st env Hwf) as Hn.
  destruct (handleClick COLS ROWS fuel rng i st env) as [res| |]; [right|done|left];
    by eauto.
Qed.

End Clicks.

(** * Further properties: the statements *)

(** ** [findMatches] *)

(** X1: an id is in the set that [findMatches] returns exactly when its gem
    is one of three gems of one kind that lie side by side in a row of the
    board or one above the other in a column of the board.  The loop that
    extends a run beyond three adds only gems that are the third of such a
    triple. *)
Theorem matched_iff_in_triple COLS ROWS (l : list Gem) i :
  i ∈ findMatches COLS ROWS l ↔ inRowTriple COLS ROWS l i ∨ inColumnTriple COLS ROWS l i.
Proof. apply findMatches_iff_triple. Qed.

(** X2: every id that [findMatches] returns is the id of a gem of the
    layout that lies on the board; a gem above the board, where the refill
    puts the new gems, is not matched. *)
Theorem matched_gems_on_board COLS ROWS (l : list Gem) i :
  i ∈ findMatches COLS ROWS l →
  ∃ g, g ∈ l ∧ id g = i ∧ (0 ≤ x g < COLS)%Z ∧ (0 ≤ y g < ROWS)%Z.
Proof. apply findMatches_on_board. Qed.

Lemma matched_gems_on_board_witness :
  16 ∈ findMatches 8 8 swappedBoard ∧
  ∃ g, g ∈ swappedBoard ∧ id g = 16 ∧ (0 ≤ x g < 8)%Z ∧ (0 ≤ y g < 8)%Z.
Proof.
  split; [by_compute|].
  apply (matched_gems_on_board 8 8 swappedBoard 16). by_compute.
Defined.

(** ** [initGame] *)

(** X3: the layout that [initGame] sets is full: one gem at every cell of
    the board and no gem outside. *)
Theorem initGame_layout_full COLS ROWS fuel rng st env st' env' :
  initGame COLS ROWS fuel rng st env = Returned (st', env') →
  fullBoard COLS ROWS (gems st').
Proof. apply initGame_full. Qed.

Lemma initGame_layout_full_witness :
  initGame 8 8 3 appleRng mountState mountEnv = Returned (startState, startEnv) ∧
  fullBoard 8 8 (gems startState).
Proof.
  split; [by vm_compute|].
  apply (initGame_layout_full 8 8 3 appleRng mountState mountEnv startState startEnv).
  by vm_compute.
Defined.

(** X4: [initGame] fills the array row by row: it has [ROWS * COLS] gems,
    the gem at index [j] is at column [j mod COLS] of row [j / COLS] and
    its id is the value of [gemIdCounter] before the call plus [j];
    [gemIdCounter] has grown by the number of gems. *)
Theorem initGame_row_major COLS ROWS fuel rng st env st' env' :
  initGame COLS ROWS fuel rng st env = Returned (st', env') →
  length (gems st') = Z.to_nat ROWS * Z.to_nat COLS ∧
  gemIdCounter env' = gemIdCounter env + length (gems st') ∧
  ∀ (j : nat) g, gems st' !! j = Some g →
    id g = gemIdCounter env + j ∧
    x g = (Z.of_nat j `mod` COLS)%Z ∧ y g = (Z.of_nat j / COLS)%Z.
Proof.
  intros Hinit. split_and!.
  - by apply initGame_placed in Hinit as [_ ?].
  - by apply initGame_ids in Hinit as (_ & ? & _).
  - intros j g. by apply (initGame_index COLS ROWS fuel rng st env st' env').
Qed.

Lemma initGame_row_major_witness :
  initGame 8 8 3 appleRng mountState mountEnv = Returned (startState, startEnv) ∧
  length (gems startState) = Z.to_nat 8 * Z.to_nat 8 ∧
  gemIdCounter startEnv = gemIdCounter mountEnv + length (gems startState) ∧
  ∀ (j : nat) g, gems startState !! j = Some g →
    id g = gemIdCounter mountEnv + j ∧
    x g = (Z.of_nat j `mod` 8)%Z ∧ y g = (Z.of_nat j / 8)%Z.
Proof.
  split; [by vm_compute|].
  apply (initGame_row_major 8 8 3 appleRng mountState mountEnv startState startEnv).
  by vm_compute.
Defined.

(** X5: the [while] loop of [initGame] rejects at most two kinds at a
    cell, so [initGame] returns when, among any [fuel] draws in a row, one
    differs from any two given kinds. *)
Theorem initGame_returns_on_spread_draws COLS ROWS fuel rng st env :
  spread fuel rng →
  ∃ st' env', initGame COLS ROWS fuel rng st env = Returned (st', env').
Proof. intros Hs. by apply initGame_returns. Qed.

Lemma initGame_returns_on_spread_draws_witness :
  spread 3 cycleRng ∧
  ∃ st' env', initGame 8 8 3 cycleRng mountState mountEnv = Returned (st', env').
Proof.
  split; [exact cycleRng_spread|].
  exact (initGame_returns_on_spread_draws 8 8 3 cycleRng mountState mountEnv cycleRng_spread).
Defined.

(** X6: [initGame] does not reset [selectedId].  When a gem is selected
    and the board is reset, the selection stays on that gem, which is no
    longer among the gems; a click on any gem of the new board then finds
    no first gem and changes nothing, so no gem can be selected or swapped
    any more. *)
Theorem reset_keeps_stale_selection COLS ROWS fuel rng st env st' env' sel :
  initGame COLS ROWS fuel rng st env = Returned (st', env') →
  selectedId st = Some sel → sel < gemIdCounter env →
  selectedId st' = Some sel ∧ findById sel (gems st') = None ∧
  ∀ fuel' rng' g, g ∈ gems st' →
    handleClick COLS ROWS fuel' rng' (id g) st' env' = Returned (st', env').
Proof. apply initGame_stale_selection. Qed.

Lemma reset_keeps_stale_selection_witness :
  ∃ st' env',
    initGame 8 8 3 cycleRng (setSelectedId (Some 5) startState) startEnv =
      Returned (st', env') ∧
    selectedId st' = Some 5 ∧ findById 5 (gems st') = None ∧
    ∀ fuel' rng' g, g ∈ gems st' →
      handleClick 8 8 fuel' rng' (id g) st' env' = Returned (st', env').
Proof.
  destruct (initGame_cycleRng_returns 8 8 (setSelectedId (Some 5) startState) startEnv)
    as (st' & env' & Hinit & _).
  exists st', env'. split; [exact Hinit|].
  apply (reset_keeps_stale_selection 8 8 3 cycleRng (setSelectedId (Some 5) startState)
           startEnv st' env' 5 Hinit); [reflexivity|simpl; lia].
Defined.

(** ** A round of [processBoard] *)

(** X7: a round on a layout whose gems have distinct ids below
    [gemIdCounter] gives such a layout again; the gems that were not
    matched keep their ids, and the gems of the refill have the values
    that [gemIdCounter] went through in the round. *)
Theorem round_ids COLS ROWS rng (l : list Gem) env newGems env' :
  wellFormed COLS l env →
  nextLayout COLS ROWS rng l env = Returned (newGems, env') →
  wellFormed COLS newGems env' ∧
  gemIdCounter env ≤ gemIdCounter env' ∧
  id <$> newGems ≡ₚ
    seq (gemIdCounter env) (gemIdCounter env' - gemIdCounter env) ++
    (id <$> removeMatched (findMatches COLS ROWS l) l).
Proof. apply nextLayout_ids. Qed.

Lemma round_ids_witness :
  nextLayout 8 8 appleRng swappedBoard startEnv = Returned (appleLayout1, mkEnv 67 67) ∧
  wellFormed 8 appleLayout1 (mkEnv 67 67) ∧
  gemIdCounter startEnv ≤ gemIdCounter (mkEnv 67 67) ∧
  id <$> appleLayout1 ≡ₚ
    seq (gemIdCounter startEnv) (gemIdCounter (mkEnv 67 67) - gemIdCounter startEnv) ++
    (id <$> removeMatched (findMatches 8 8 swappedBoard) swappedBoard).
Proof.
  split; [by vm_compute|].
  apply (round_ids 8 8 appleRng swappedBoard startEnv appleLayout1 (mkEnv 67 67)).
  - unfold wellFormed. split_and!; by_compute.
  - by vm_compute.
Defined.

(** X8: after a round every column of the board holds [ROWS] gems, the
    new ones above the board counted, or as many as were left in it when
    these were more than [ROWS]. *)
Theorem round_column_counts COLS ROWS rng (l : list Gem) env newGems env' c :
  Forall (λ g, 0 ≤ x g < COLS)%Z l →
  nextLayout COLS ROWS rng l env = Returned (newGems, env') →
  (0 ≤ c < COLS)%Z →
  Z.of_nat (length (filter (λ g, x g = c) newGems)) =
    Z.max ROWS (Z.of_nat (length (filter (λ g, x g = c)
                                    (removeMatched (findMatches COLS ROWS l) l)))).
Proof. apply nextLayout_count. Qed.

Lemma round_column_counts_witness :
  Forall (λ g, 0 ≤ x g < 8)%Z swappedBoard ∧
  nextLayout 8 8 appleRng swappedBoard startEnv = Returned (appleLayout1, mkEnv 67 67) ∧
  Z.of_nat (length (filter (λ g, x g = 0%Z) appleLayout1)) =
    Z.max 8 (Z.of_nat (length (filter (λ g, x g = 0%Z)
                                 (removeMatched (findMatches 8 8 swappedBoard) swappedBoard)))).
Proof.
  split; [by_compute|]. split; [by vm_compute|].
  apply (round_column_counts 8 8 appleRng swappedBoard startEnv appleLayout1 (mkEnv 67 67) 0).
  - by_compute.
  - by vm_compute.
  - lia.
Defined.

(** ** The cascade *)

(** X9: a cascade that starts on a full layout with a match does not end
    on a full layout: when [processBoard] returns, a cell of the top row is
    empty.  The gems of the last refill are still above the board. *)
Theorem cascade_ends_with_gap COLS ROWS fuel rng (l : list Gem) mult st env st' env' :
  fullBoard COLS ROWS l → findMatches COLS ROWS l ≠ ∅ →
  processBoard COLS ROWS fuel rng l mult st env = Returned (st', env') →
  (∃ c, (0 ≤ c < COLS)%Z ∧ getGemAt c 0 (gems st') = None) ∧
  ¬ fullBoard COLS ROWS (gems st').
Proof.
  intros Hfull Hne Hp.
  destruct (processBoard_ends_with_gap COLS ROWS rng fuel l mult st env st' env')
    as (c & Hc & Hr & Hgap); [by apply fullBoard_columnsWithin|done..|].
  split; [by exists c|]. by apply (gap_not_full COLS ROWS _ c).
Qed.

Lemma cascade_ends_with_gap_witness :
  (fullBoard 8 8 swappedBoard ∧ findMatches 8 8 swappedBoard ≠ ∅ ∧
   processBoard 8 8 5 turnRng swappedBoard 1 swappedState startEnv =
     Returned (turnFinalState, mkEnv 70 70)) ∧
  (∃ c, (0 ≤ c < 8)%Z ∧ getGemAt c 0 (gems turnFinalState) = None) ∧
  ¬ fullBoard 8 8 (gems turnFinalState).
Proof.
  split; [split_and!; [by_compute|by_compute|by vm_compute]|].
  apply (cascade_ends_with_gap 8 8 5 turnRng swappedBoard 1 swappedState startEnv
           turnFinalState (mkEnv 70 70)).
  - by_compute.
  - by_compute.
  - by vm_compute.
Defined.

(** X10: when [processBoard] returns, the gems of the state have no
    match, [isProcessing] is false, and the selection and the pause flag
    are as they were at the call. *)
Theorem cascade_final_state COLS ROWS fuel rng (l : list Gem) mult st env st' env' :
  gems st = l →
  processBoard COLS ROWS fuel rng l mult st env = Returned (st', env') →
  findMatches COLS ROWS (gems st') = ∅ ∧ isProcessing st' = false ∧
  selectedId st' = selectedId st ∧ isPaused st' = isPaused st.
Proof.
  intros Hl Hp.
  destruct (processBoard_final COLS ROWS rng fuel l mult st env st' env' Hl Hp)
    as (? & ? & ? & ? & _).
  done.
Qed.

Lemma cascade_final_state_witness :
  processBoard 8 8 5 turnRng swappedBoard 1 swappedState startEnv =
    Returned (turnFinalState, mkEnv 70 70) ∧
  findMatches 8 8 (gems turnFinalState) = ∅ ∧ isProcessing turnFinalState = false ∧
  selectedId turnFinalState = selectedId swappedState ∧
  isPaused turnFinalState = isPaused swappedState.
Proof.
  split; [by vm_compute|].
  apply (cascade_final_state 8 8 5 turnRng swappedBoard 1 swappedState startEnv
           turnFinalState (mkEnv 70 70)).
  - reflexivity.
  - by vm_compute.
Defined.

(** ** Clicks *)

(** X11: a click keeps what the layouts of a session have in common: when
    the gems have distinct ids below [gemIdCounter], lie in the columns of
    the board and have no match, the same holds after the click. *)
Theorem click_keeps_layout_sound COLS ROWS fuel rng i st env st' env' :
  wellFormed COLS (gems st) env → findMatches COLS ROWS (gems st) = ∅ →
  handleClick COLS ROWS fuel rng i st env = Returned (st', env') →
  wellFormed COLS (gems st') env' ∧ findMatches COLS ROWS (gems st') = ∅ ∧
  isPaused st' = isPaused st.
Proof.
  intros Hwf Hm Hc.
  destruct (handleClick_session COLS ROWS rng fuel i st env st' env' Hwf Hm Hc)
    as (? & ? & ? & _).
  done.
Qed.

Lemma click_keeps_layout_sound_witness :
  handleClick 8 8 5 turnRng 33 (setSelectedId (Some 32) startState) startEnv =
    Returned (turnFinalState, mkEnv 70 70) ∧
  wellFormed 8 (gems turnFinalState) (mkEnv 70 70) ∧
  findMatches 8 8 (gems turnFinalState) = ∅ ∧
  isPaused turnFinalState = isPaused (setSelectedId (Some 32) startState).
Proof.
  split; [by vm_compute|].
  apply (click_keeps_layout_sound 8 8 5 turnRng 33 (setSelectedId (Some 32) startState)
           startEnv turnFinalState (mkEnv 70 70)).
  - unfold wellFormed. split_and!; by_compute.
  - by vm_compute.
  - by vm_compute.
Defined.

(** X12: a click never lowers the score, and what it adds is a multiple
    of ten. *)
Theorem click_score_multiple_of_ten COLS ROWS fuel rng i st env st' env' :
  handleClick COLS ROWS fuel rng i st env = Returned (st', env') →
  ∃ k, score st' = score st + 10 * k.
Proof. apply handleClick_score_step. Qed.

Lemma click_score_multiple_of_ten_witness :
  handleClick 8 8 5 turnRng 33 (setSelectedId (Some 32) startState) startEnv =
    Returned (turnFinalState, mkEnv 70 70) ∧
  ∃ k, score turnFinalState = score (setSelectedId (Some 32) startState) + 10 * k.
Proof.
  split; [by vm_compute|].
  apply (click_score_multiple_of_ten 8 8 5 turnRng 33 (setSelectedId (Some 32) startState)
           startEnv turnFinalState (mkEnv 70 70)).
  by vm_compute.
Defined.

(** X13: on a layout whose gems have distinct ids and lie in the columns
    of the board, a click does not throw: the swap finds both gems, and
    the rebuilding of the columns finds a column for every gem. *)
Theorem click_does_not_throw COLS ROWS fuel rng i st env :
  wellFormed COLS (gems st) env →
  handleClick COLS ROWS fuel rng i st env = OutOfFuel ∨
  ∃ res, handleClick COLS ROWS fuel rng i st env = Returned res.
Proof. apply handleClick_outcome. Qed.

Lemma click_does_not_throw_witness :
  wellFormed 8 (gems startState) startEnv ∧
  (handleClick 8 8 5 turnRng 33 (setSelectedId (Some 32) startState) startEnv = OutOfFuel ∨
   ∃ res, handleClick 8 8 5 turnRng 33 (setSelectedId (Some 32) startState) startEnv =
            Returned res).
Proof.
  assert (wellFormed 8 (gems startState) startEnv) as Hwf.
  { unfold wellFormed. split_and!; by_compute. }
  split; [exact Hwf|].
  exact (click_does_not_throw 8 8 5 turnRng 33 (setSelectedId (Some 32) startState)
           startEnv Hwf).
Defined.

(** X14: a click changes the gems, the score or [gemIdCounter] only when
    no cascade runs, the game is not paused, another gem of the board is
    selected at distance one, and the layout with the two gems exchanged
    has a match. *)
Theorem click_changes_board_only_by_matching_swap COLS ROWS fuel rng i st env st' env' :
  handleClick COLS ROWS fuel rng i st env = Returned (st', env') →
  (gems st' = gems st ∧ score st' = score st ∧ env' = env) ∨
  (isProcessing st = false ∧ isPaused st = false ∧
   ∃ sel g1 g2 nextGems,
     selectedId st = Some sel ∧ sel ≠ i ∧
     findById sel (gems st) = Some g1 ∧ findById i (gems st) = Some g2 ∧
     (Z.abs (x g1 - x g2) + Z.abs (y g1 - y g2) = 1)%Z ∧
     swapLayout sel i (gems st) = Returned nextGems ∧
     findMatches COLS ROWS nextGems ≠ ∅).
Proof. apply handleClick_changes. Qed.

Lemma click_changes_board_only_by_matching_swap_witness :
  handleClick 8 8 5 turnRng 33 (setSelectedId (Some 32) startState) startEnv =
    Returned (turnFinalState, mkEnv 70 70) ∧
  ((gems turnFinalState = gems (setSelectedId (Some 32) startState) ∧
    score turnFinalState = score (setSelectedId (Some 32) startState) ∧
    mkEnv 70 70 = startEnv) ∨
   (isProcessing (setSelectedId (Some 32) startState) = false ∧
    isPaused (setSelectedId (Some 32) startState) = false ∧
    ∃ sel g1 g2 nextGems,
      selectedId (setSelectedId (Some 32) startState) = Some sel ∧ sel ≠ 33 ∧
      findById sel (gems (setSelectedId (Some 32) startState)) = Some g1 ∧
      findById 33 (gems (setSelectedId (Some 32) startState)) = Some g2 ∧
      (Z.abs (x g1 - x g2) + Z.abs (y g1 - y g2) = 1)%Z ∧
      swapLayout sel 33 (gems (setSelectedId (Some 32) startState)) = Returned nextGems ∧
      findMatches 8 8 nextGems ≠ ∅)).
Proof.
  split; [by vm_compute|].
  apply (click_changes_board_only_by_matching_swap 8 8 5 turnRng 33
           (setSelectedId (Some 32) startState) startEnv turnFinalState (mkEnv 70 70)).
  by vm_compute.
Defined.

(** ** The swap *)

(** X15: on gems with distinct ids the swap of [handleSwap] undoes itself:
    the swap of the same two ids on the swapped layout gives the layout
    back, gem for gem. *)
Theorem swap_twice_restores (id1 id2 : nat) (l l' : list Gem) :
  NoDup (id <$> l) → swapLayout id1 id2 l = Returned l' →
  swapLayout id1 id2 l' = Returned l.
Proof. apply swapLayout_twice. Qed.

Lemma swap_twice_restores_witness :
  (NoDup (id <$> gems startState) ∧
   swapLayout 32 33 (gems startState) = Returned swappedBoard) ∧
  swapLayout 32 33 swappedBoard = Returned (gems startState).
Proof.
  split; [split; [by_compute|by vm_compute]|].
  apply (swap_twice_restores 32 33 (gems startState) swappedBoard).
  - by_compute.
  - by vm_compute.
Defined.

(** X16: the swap of two gems of a full layout with distinct ids gives a
    full layout. *)
Theorem swap_keeps_board_full COLS ROWS (id1 id2 : nat) (l l' : list Gem) :
  fullBoard COLS ROWS l → NoDup (id <$> l) →
  swapLayout id1 id2 l = Returned l' → fullBoard COLS ROWS l'.
Proof. apply swapLayout_full. Qed.

Lemma swap_keeps_board_full_witness :
  (fullBoard 8 8 (gems startState) ∧ NoDup (id <$> gems startState) ∧
   swapLayout 32 33 (gems startState) = Returned swappedBoard) ∧
  fullBoard 8 8 swappedBoard.
Proof.
  split; [split_and!; [by_compute|by_compute|by vm_compute]|].
  apply (swap_keeps_board_full 8 8 32 33 (gems startState) swappedBoard).
  - by_compute.
  - by_compute.
  - by vm_compute.
Defined.

(** X17: on a full layout with distinct ids, after the swap the cell of
    the first gem holds the second gem and the cell of the second holds
    the first, each with its id, kind and flags; every other cell holds
    what it held. *)
Theorem swap_exchanges_two_cells COLS ROWS (id1 id2 : nat) g1 g2 (l l' : list Gem) :
  fullBoard COLS ROWS l → NoDup (id <$> l) →
  findById id1 l = Some g1 → findById id2 l = Some g2 →
  swapLayout id1 id2 l = Returned l' →
  getGemAt (x g1) (y g1) l' =
    Some (mkGem (id g2) (x g1) (y g1) (type g2) (isMatch g2) (isNew g2)) ∧
  getGemAt (x g2) (y g2) l' =
    Some (mkGem (id g1) (x g2) (y g2) (type g1) (isMatch g1) (isNew g1)) ∧
  ∀ cx cy, (cx, cy) ≠ (x g1, y g1) → (cx, cy) ≠ (x g2, y g2) →
    getGemAt cx cy l' = getGemAt cx cy l.
Proof. apply swapLayout_cells. Qed.

Lemma swap_exchanges_two_cells_witness :
  (fullBoard 8 8 (gems startState) ∧ NoDup (id <$> gems startState) ∧
   findById 32 (gems startState) = Some (mkGem 32 0 4 Coconut None (Some true)) ∧
   findById 33 (gems startState) = Some (mkGem 33 1 4 Apple None (Some true)) ∧
   swapLayout 32 33 (gems startState) = Returned swappedBoard) ∧
  getGemAt 0 4 swappedBoard = Some (mkGem 33 0 4 Apple None (Some true)) ∧
  getGemAt 1 4 swappedBoard = Some (mkGem 32 1 4 Coconut None (Some true)) ∧
  ∀ cx cy, (cx, cy) ≠ (0, 4)%Z → (cx, cy) ≠ (1, 4)%Z →
    getGemAt cx cy swappedBoard = getGemAt cx cy (gems startState).
Proof.
  split; [split_and!; [by_compute|by_compute|by vm_compute..]|].
  apply (swap_exchanges_two_cells 8 8 32 33 (mkGem 32 0 4 Coconut None (Some true))
           (mkGem 33 1 4 Apple None (Some true)) (gems startState) swappedBoard).
  - by_compute.
  - by_compute.
  - by vm_compute.
  - by vm_compute.
  - by vm_compute.
Defined.
